(** * kysely-cursor: keyset pagination over ordered SQL result sets

    A shallow embedding of [dist/index.cjs] (codecs, cursor handling, the
    recursive keyset predicate, the dialects and the pagination
    orchestrator), followed by its properties: those the specification
    states, and further ones read off the code.

    Conventions of the embedding.
    - A JavaScript string is a Rocq [string] holding its UTF-8 bytes, so
      [Buffer.from(s, "utf8")] is the list of the string's characters and the
      ASCII operations of the source ([split(".")], [slice(0, 8)] of a hex
      digest) act on it as they do on the JavaScript string.
    - A JavaScript string is a sequence of UTF-16 code units; [code_units]
      reads them off the UTF-8 bytes where the source or the runtime looks at
      them (Node's base64 decoder).  A string with a lone surrogate has no
      counterpart here.
    - A JavaScript number is a [number]: an integer, a non-integral dyadic
      fraction, [NaN] or an infinity, of which the doubles are the values of
      the program; comparisons are exact and [limit + 1] rounds as the
      addition of doubles does.
    - A JavaScript object used as a record of named values (a result row, the
      [k] map of a cursor payload) is a [gmap string JsValue] of its own
      properties, with [Object.prototype] as its prototype: [key in obj] and
      [obj[key]] find an own property first and a member of
      [Object.prototype] next.
    - An [async] function returns a [Promise]: it is either [Resolved] with a
      value or [Rejected] with the thrown error; [await] is the bind of that
      monad, and a synchronous [throw] is a rejection.  The codecs handed
      to the paginator, the dialect methods and the query executor are
      deterministic in the embedding.
    - The codecs that draw on the runtime ([createAesCodec], [stashCodec])
      take the state of what they draw on, the entropy and the store, and
      give it back; Node's [crypto] and the superjson library are variables
      of the sections that embed their callers. *)

From Stdlib Require Import ZArith List String Ascii Lia Bool.
From stdpp Require Import base gmap strings list option pretty.
From Equations Require Import Equations.

Set Warnings "-register-all".
#[local] Open Scope Z_scope.

(** ** JavaScript values *)

(** [Int z] is the integer [z]; [Dyadic k e] is the non-integer
    [(2k+1) / 2^e]: every finite double that is not an integer has exactly one
    such form. *)
Inductive number : Type :=
  | Int (z : Z)
  | Dyadic (k : Z) (e : positive)
  | NaN
  | Infinity (negative : bool).

(** [VInherited name] is the member [name] of [Object.prototype]: one of its
    functions ([constructor], [toString], ...) or, under [__proto__], what the
    accessor returns for a plain object, [Object.prototype] itself. *)
Inductive JsValue : Type :=
  | VUndefined
  | VNull
  | VBool (b : bool)
  | VNum (n : number)
  | VStr (s : string)
  | VBigInt (z : Z)
  | VDate (ms : Z)
  | VArr (l : list JsValue)
  | VObj (o : gmap string JsValue)
  | VInherited (name : string).

(** [Number.isInteger(n)] *)
Definition Number_isInteger (n : number) : bool :=
  match n with Int _ => true | _ => false end.

(** [n > 0] *)
Definition num_gt0 (n : number) : bool :=
  match n with
  | Int z => 0 <? z
  | Dyadic k _ => 0 <=? k
  | NaN => false
  | Infinity negative => negb negative
  end.

(** The double nearest to the integer [z]: an integer of more than 53
    significant bits keeps 53 of them, rounded to the nearest and, half way
    between two, to the one whose last kept bit is 0. *)
Definition round_to_double (z : Z) : Z :=
  let a := Z.abs z in
  let extra := Z.log2 a - 52 in
  if extra <=? 0 then z
  else
    let unit := 2 ^ extra in
    let q := a / unit in
    let r := a mod unit in
    let q' := if (unit <? 2 * r) || ((unit =? 2 * r) && Z.odd q) then q + 1 else q in
    Z.sgn z * (q' * unit).

(** The number [m / 2^e]. *)
Definition dyadic (m : Z) (e : positive) : number :=
  let g := Z.gcd m (2 ^ Z.pos e) in
  if g =? 2 ^ Z.pos e then Int (m / g)
  else Dyadic ((m / g - 1) / 2) (Z.to_pos (Z.pos e - Z.log2 g)).

(** [n + 1], the addition of doubles: the exact sum, rounded to a double.
    (The sum of a double and 1 is below the largest double, and is exact
    where doubles are subnormal.) *)
Definition num_succ (n : number) : number :=
  match n with
  | Int z => Int (round_to_double (z + 1))
  | Dyadic k e => dyadic (round_to_double (2 * k + 1 + 2 ^ Z.pos e)) e
  | NaN => NaN
  | Infinity negative => Infinity negative
  end.

(** [n === 0] *)
Definition num_is0 (n : number) : bool :=
  match n with Int z => z =? 0 | _ => false end.

(** [len > n] for an array length [len] *)
Definition length_gt (len : nat) (n : number) : bool :=
  match n with
  | Int z => z <? Z.of_nat len
  | Dyadic k e => (2 * k + 1) <? Z.of_nat len * Z.pow 2 (Z.pos e)
  | NaN => false
  | Infinity negative => negative
  end.

(** [ToIntegerOrInfinity] as [Array.prototype.slice] applies it to its end
    index, then clamped into [0 .. len]: a negative index counts from the
    end. *)
Definition slice_end (len : nat) (n : number) : nat :=
  let clamp (z : Z) : nat :=
    if z <? 0 then Z.to_nat (Z.max (Z.of_nat len + z) 0)
    else Nat.min (Z.to_nat z) len in
  match n with
  | Int z => clamp z
  | Dyadic k e => clamp (Z.quot (2 * k + 1) (Z.pow 2 (Z.pos e)))
  | NaN => 0%nat
  | Infinity negative => if negative then 0%nat else len
  end.

(** [rows.slice(0, n)] *)
Definition slice0 {A : Type} (rows : list A) (n : number) : list A :=
  take (slice_end (length rows) n) rows.

(** ** Errors and promises *)

(** [ErrorCode] of [src/error.ts]. *)
Inductive ErrorCode : Type :=
  | INVALID_TOKEN
  | INVALID_SORT
  | INVALID_LIMIT
  | UNEXPECTED_ERROR.

(** What can be thrown: a [PaginationError] (message, code, cause), or any
    other error value (an [Error], a [TypeError], a [ZodError], ...). *)
Inductive Error : Type :=
  | GenericError (name message : string)
  | PaginationError (message : string) (code : ErrorCode) (cause : option Error).

(** [error instanceof PaginationError] *)
Definition instanceof_PaginationError (e : Error) : bool :=
  match e with PaginationError _ _ _ => true | GenericError _ _ => false end.

Definition error_code (e : Error) : option ErrorCode :=
  match e with PaginationError _ c _ => Some c | GenericError _ _ => None end.

(** A settled promise: the value an [async] function returned, or the error
    it threw. *)
Inductive Promise (A : Type) : Type :=
  | Resolved (a : A)
  | Rejected (e : Error).
Arguments Resolved {A} a.
Arguments Rejected {A} e.

#[global] Instance Promise_ret : MRet Promise := fun A a => Resolved a.
#[global] Instance Promise_bind : MBind Promise := fun A B f m =>
  match m with Resolved a => f a | Rejected e => Rejected e end.

(** [try { body } catch (error) { handler }] *)
Definition try_catch {A : Type} (body : Promise A) (handler : Error -> Promise A)
  : Promise A :=
  match body with Resolved a => Resolved a | Rejected e => handler e end.

(** ** SHA-256 (FIPS 180-4), as [crypto.createHash("sha256")] computes it *)

Module Sha256.

Definition w32 (x : Z) : Z := Z.land x 0xFFFFFFFF.
Definition add32 (x y : Z) : Z := w32 (x + y).
Definition rotr (n x : Z) : Z :=
  Z.lor (Z.shiftr x n) (w32 (Z.shiftl x (32 - n))).
Definition shr (n x : Z) : Z := Z.shiftr x n.

Definition Ch (x y z : Z) : Z :=
  Z.lxor (Z.land x y) (Z.land (Z.lxor x 0xFFFFFFFF) z).
Definition Maj (x y z : Z) : Z :=
  Z.lxor (Z.lxor (Z.land x y) (Z.land x z)) (Z.land y z).
Definition Sigma0 (x : Z) : Z :=
  Z.lxor (Z.lxor (rotr 2 x) (rotr 13 x)) (rotr 22 x).
Definition Sigma1 (x : Z) : Z :=
  Z.lxor (Z.lxor (rotr 6 x) (rotr 11 x)) (rotr 25 x).
Definition sigma0 (x : Z) : Z :=
  Z.lxor (Z.lxor (rotr 7 x) (rotr 18 x)) (shr 3 x).
Definition sigma1 (x : Z) : Z :=
  Z.lxor (Z.lxor (rotr 17 x) (rotr 19 x)) (shr 10 x).

Definition K : list Z :=
  [ 0x428A2F98; 0x71374491; 0xB5C0FBCF; 0xE9B5DBA5;
    0x3956C25B; 0x59F111F1; 0x923F82A4; 0xAB1C5ED5;
    0xD807AA98; 0x12835B01; 0x243185BE; 0x550C7DC3;
    0x72BE5D74; 0x80DEB1FE; 0x9BDC06A7; 0xC19BF174;
    0xE49B69C1; 0xEFBE4786; 0x0FC19DC6; 0x240CA1CC;
    0x2DE92C6F; 0x4A7484AA; 0x5CB0A9DC; 0x76F988DA;
    0x983E5152; 0xA831C66D; 0xB00327C8; 0xBF597FC7;
    0xC6E00BF3; 0xD5A79147; 0x06CA6351; 0x14292967;
    0x27B70A85; 0x2E1B2138; 0x4D2C6DFC; 0x53380D13;
    0x650A7354; 0x766A0ABB; 0x81C2C92E; 0x92722C85;
    0xA2BFE8A1; 0xA81A664B; 0xC24B8B70; 0xC76C51A3;
    0xD192E819; 0xD6990624; 0xF40E3585; 0x106AA070;
    0x19A4C116; 0x1E376C08; 0x2748774C; 0x34B0BCB5;
    0x391C0CB3; 0x4ED8AA4A; 0x5B9CCA4F; 0x682E6FF3;
    0x748F82EE; 0x78A5636F; 0x84C87814; 0x8CC70208;
    0x90BEFFFA; 0xA4506CEB; 0xBEF9A3F7; 0xC67178F2 ].

(** The eight working variables a..h, also the hash value H0..H7. *)
Record state : Type := State {
  sa : Z; sb : Z; sc : Z; sd : Z; se : Z; sf : Z; sg : Z; sh : Z
}.

Definition H0 : state :=
  State 0x6A09E667 0xBB67AE85 0x3C6EF372 0xA54FF53A
        0x510E527F 0x9B05688C 0x1F83D9AB 0x5BE0CD19.

(** The message bytes, the bit 1, zero bytes up to 56 modulo 64, and the
    bit length as a 64-bit big-endian integer. *)
Definition be_bytes (n : nat) (x : Z) : list Z :=
  map (fun i => Z.land (Z.shiftr x (8 * Z.of_nat i)) 0xFF) (rev (seq 0 n)).

Definition pad (msg : list Z) : list Z :=
  let len := Z.of_nat (length msg) in
  let zeros := Z.to_nat ((55 - len) mod 64) in
  msg ++ [0x80] ++ repeat 0 zeros ++ be_bytes 8 (8 * len).

Fixpoint words (bytes : list Z) : list Z :=
  match bytes with
  | b0 :: b1 :: b2 :: b3 :: rest =>
      Z.lor (Z.shiftl b0 24) (Z.lor (Z.shiftl b1 16) (Z.lor (Z.shiftl b2 8) b3))
      :: words rest
  | _ => []
  end.

(** The message schedule, newest word first: [extend n rw] adds [n] words
    to the reversed schedule [rw]. *)
Fixpoint extend (n : nat) (rw : list Z) : list Z :=
  match n with
  | O => rw
  | S n' =>
      let w := add32 (add32 (sigma1 (nth 1 rw 0)) (nth 6 rw 0))
                     (add32 (sigma0 (nth 14 rw 0)) (nth 15 rw 0)) in
      extend n' (w :: rw)
  end.

Definition schedule (block : list Z) : list Z :=
  rev (extend 48 (rev block)).

Definition round (s : state) (kw : Z * Z) : state :=
  let '(k, w) := kw in
  let t1 := add32 (add32 (add32 (sh s) (Sigma1 (se s))) (Ch (se s) (sf s) (sg s)))
                  (add32 k w) in
  let t2 := add32 (Sigma0 (sa s)) (Maj (sa s) (sb s) (sc s)) in
  State (add32 t1 t2) (sa s) (sb s) (sc s) (add32 (sd s) t1) (se s) (sf s) (sg s).

Definition compress (h : state) (block : list Z) : state :=
  let s := fold_left round (combine K (schedule block)) h in
  State (add32 (sa h) (sa s)) (add32 (sb h) (sb s)) (add32 (sc h) (sc s))
        (add32 (sd h) (sd s)) (add32 (se h) (se s)) (add32 (sf h) (sf s))
        (add32 (sg h) (sg s)) (add32 (sh h) (sh s)).

(** The 16-word blocks of a padded message. *)
Fixpoint blocks (n : nat) (ws : list Z) : list (list Z) :=
  match n with
  | O => []
  | S n' => match ws with
            | [] => []
            | _ => firstn 16 ws :: blocks n' (skipn 16 ws)
            end
  end.

Definition hash (msg : list Z) : state :=
  let ws := words (pad msg) in
  fold_left compress (blocks (length ws) ws) H0.

Definition hex_digit (d : Z) : ascii :=
  ascii_of_nat (Z.to_nat (if d <? 10 then 48 + d else 87 + d)).

(** The eight lower-case hexadecimal digits of a 32-bit word. *)
Definition hex_word (w : Z) : list ascii :=
  map (fun i => hex_digit (Z.land (Z.shiftr w (4 * Z.of_nat i)) 0xF))
      (rev (seq 0 8)).

Definition bytes_of_string (s : string) : list Z :=
  map (fun c => Z.of_nat (nat_of_ascii c)) (list_ascii_of_string s).

(** [createHash("sha256").update(s).digest("hex")] *)
Definition digest_hex (s : string) : list ascii :=
  let h := hash (bytes_of_string s) in
  hex_word (sa h) ++ hex_word (sb h) ++ hex_word (sc h) ++ hex_word (sd h) ++
  hex_word (se h) ++ hex_word (sf h) ++ hex_word (sg h) ++ hex_word (sh h).

End Sha256.

#[local] Close Scope Z_scope.

(** ** Codecs ([src/codec]) *)

(** [type Codec<I, O> = { encode: (value: I) => Promise<O> | O;
                          decode: (value: O) => Promise<I> | I }] *)
Record Codec (I O : Type) : Type := {
  encode : I -> Promise O;
  decode : O -> Promise I
}.
Arguments encode {I O} c value.
Arguments decode {I O} c value.

(** [codecPipe(...codecs)]: [reduce] folds from the first codec on,
    [reduceRight] from the last; [acc.then(f)] is the bind of [Promise].  The
    codecs of one pipe exchange values of the one run-time value type [V]. *)
Definition codecPipe {V : Type} (codecs : list (Codec V V)) : Codec V V := {|
  encode := fun value =>
    foldl (fun acc codec => acc ≫= (fun v => encode codec v)) (Resolved value) codecs;
  decode := fun value =>
    foldr (fun codec acc => acc ≫= (fun v => decode codec v)) (Resolved value) codecs
|}.

(** *** Node's [Buffer] for the encodings [base64UrlCodec] uses *)

Module Buffer.

#[local] Open Scope Z_scope.

Definition byte_of_ascii (c : ascii) : Z := Z.of_nat (nat_of_ascii c).
Definition ascii_of_byte (b : Z) : ascii := ascii_of_nat (Z.to_nat b).

(** [Buffer.from(s, "utf8")] *)
Definition from_utf8 (s : string) : list Z :=
  map byte_of_ascii (list_ascii_of_string s).

Definition string_of_bytes (bs : list Z) : string :=
  string_of_list_ascii (map ascii_of_byte bs).

(** The URL-safe alphabet: A-Z a-z 0-9 - _ *)
Definition base64url_char (v : Z) : ascii :=
  ascii_of_byte
    (if v <? 26 then 65 + v
     else if v <? 52 then 97 + (v - 26)
     else if v <? 62 then 48 + (v - 52)
     else if v =? 62 then 45
     else 95).

(** [buf.toString("base64url")]: three bytes give four characters, a last
    group of one or two bytes gives two or three, without padding. *)
Fixpoint toString_base64url (bs : list Z) : list ascii :=
  match bs with
  | [] => []
  | [b0] =>
      [ base64url_char (Z.shiftr b0 2);
        base64url_char (Z.shiftl (Z.land b0 3) 4) ]
  | [b0; b1] =>
      [ base64url_char (Z.shiftr b0 2);
        base64url_char (Z.lor (Z.shiftl (Z.land b0 3) 4) (Z.shiftr b1 4));
        base64url_char (Z.shiftl (Z.land b1 15) 2) ]
  | b0 :: b1 :: b2 :: rest =>
      base64url_char (Z.shiftr b0 2)
      :: base64url_char (Z.lor (Z.shiftl (Z.land b0 3) 4) (Z.shiftr b1 4))
      :: base64url_char (Z.lor (Z.shiftl (Z.land b1 15) 2) (Z.shiftr b2 6))
      :: base64url_char (Z.land b2 63)
      :: toString_base64url rest
  end.

(** The UTF-16 code units of the string with these UTF-8 bytes: a sequence
    of one, two or three bytes is one unit, a sequence of four bytes a pair
    of surrogates.  (A byte that opens no sequence, or too short a one, is
    read as U+FFFD; no JavaScript string has such bytes.) *)
Fixpoint code_units (bs : list Z) : list Z :=
  let continued (b : Z) : Z := Z.land b 0x3F in
  match bs with
  | [] => []
  | b0 :: rest =>
      if b0 <? 0x80 then b0 :: code_units rest
      else if (0xC0 <=? b0) && (b0 <? 0xE0) then
        match rest with
        | b1 :: rest =>
            Z.lor (Z.shiftl (Z.land b0 0x1F) 6) (continued b1) :: code_units rest
        | _ => 0xFFFD :: code_units rest
        end
      else if (0xE0 <=? b0) && (b0 <? 0xF0) then
        match rest with
        | b1 :: b2 :: rest =>
            Z.lor (Z.shiftl (Z.land b0 0x0F) 12)
                  (Z.lor (Z.shiftl (continued b1) 6) (continued b2))
            :: code_units rest
        | _ => 0xFFFD :: code_units rest
        end
      else if (0xF0 <=? b0) && (b0 <? 0xF8) then
        match rest with
        | b1 :: b2 :: b3 :: rest =>
            let point :=
              Z.lor (Z.shiftl (Z.land b0 0x07) 18)
                    (Z.lor (Z.shiftl (continued b1) 12)
                           (Z.lor (Z.shiftl (continued b2) 6) (continued b3))) in
            0xD800 + Z.shiftr (point - 0x10000) 10
            :: 0xDC00 + Z.land (point - 0x10000) 0x3FF
            :: code_units rest
        | _ => 0xFFFD :: code_units rest
        end
      else 0xFFFD :: code_units rest
  end.

(** What Node's base64 decoder reads of a code unit: its low eight bits
    (the unit cast to [uint8_t]). *)
Definition low_byte (unit : Z) : ascii := ascii_of_byte (Z.land unit 0xFF).

(** The characters the decoder goes through for a string. *)
Definition decoder_input (s : string) : list ascii :=
  map low_byte (code_units (from_utf8 s)).

(** Node's decoding table: both the standard and the URL-safe alphabet. *)
Definition unbase64 (c : ascii) : option Z :=
  let n := byte_of_ascii c in
  if (65 <=? n) && (n <=? 90) then Some (n - 65)
  else if (97 <=? n) && (n <=? 122) then Some (n - 97 + 26)
  else if (48 <=? n) && (n <=? 57) then Some (n - 48 + 52)
  else if (n =? 43) || (n =? 45) then Some 62
  else if (n =? 47) || (n =? 95) then Some 63
  else None.

(** The 6-bit values Node's decoder reads: a character outside the table is
    skipped, and [=] ends the decoding (a padding character; the decoder asks
    for no particular number of them). *)
Fixpoint sextets (cs : list ascii) : list Z :=
  match cs with
  | [] => []
  | c :: rest =>
      match unbase64 c with
      | Some v => v :: sextets rest
      | None => if byte_of_ascii c =? 61 then [] else sextets rest
      end
  end.

(** Four values give three bytes; a last group of two or three values gives
    one or two bytes, and a single left-over value gives none. *)
Fixpoint bytes_of_sextets (vs : list Z) : list Z :=
  match vs with
  | v0 :: v1 :: v2 :: v3 :: rest =>
      Z.lor (Z.shiftl v0 2) (Z.shiftr v1 4)
      :: Z.lor (Z.shiftl (Z.land v1 15) 4) (Z.shiftr v2 2)
      :: Z.lor (Z.shiftl (Z.land v2 3) 6) v3
      :: bytes_of_sextets rest
  | [v0; v1; v2] =>
      [ Z.lor (Z.shiftl v0 2) (Z.shiftr v1 4);
        Z.lor (Z.shiftl (Z.land v1 15) 4) (Z.shiftr v2 2) ]
  | [v0; v1] => [ Z.lor (Z.shiftl v0 2) (Z.shiftr v1 4) ]
  | _ => []
  end.

(** [Buffer.from(s, "base64url")]: never throws. *)
Definition from_base64url (s : string) : list Z :=
  bytes_of_sextets (sextets (decoder_input s)).

(** The state of the UTF-8 decoder between two bytes: the bytes of the
    sequence read so far, how many more are needed, and the range the next
    one must lie in. *)
Record utf8_state : Type := Utf8 {
  pending : list Z; needed : nat; lower : Z; upper : Z
}.

Definition replacement : list Z := [0xEF; 0xBF; 0xBD].

(** A byte read at the start of a sequence: the bytes to emit and the
    sequence it opens, if any. *)
Definition utf8_lead (b : Z) : list Z * option utf8_state :=
  if b <=? 0x7F then ([b], None)
  else if (0xC2 <=? b) && (b <=? 0xDF) then ([], Some (Utf8 [b] 1 0x80 0xBF))
  else if (0xE0 <=? b) && (b <=? 0xEF) then
    ([], Some (Utf8 [b] 2 (if b =? 0xE0 then 0xA0 else 0x80)
                           (if b =? 0xED then 0x9F else 0xBF)))
  else if (0xF0 <=? b) && (b <=? 0xF4) then
    ([], Some (Utf8 [b] 3 (if b =? 0xF0 then 0x90 else 0x80)
                           (if b =? 0xF4 then 0x8F else 0xBF)))
  else (replacement, None).

(** [buf.toString("utf8")]: a byte sequence that is not UTF-8 is replaced
    by U+FFFD, never refused. *)
Fixpoint utf8_decode (st : option utf8_state) (bs : list Z) : list Z :=
  match bs with
  | [] => match st with None => [] | Some _ => replacement end
  | b :: rest =>
      match st with
      | None => let '(out, st') := utf8_lead b in out ++ utf8_decode st' rest
      | Some s =>
          if (lower s <=? b) && (b <=? upper s) then
            match needed s with
            | 1%nat => (pending s ++ [b]) ++ utf8_decode None rest
            | n => utf8_decode
                     (Some (Utf8 (pending s ++ [b]) (Nat.pred n) 0x80 0xBF)) rest
            end
          else
            let '(out, st') := utf8_lead b in
            replacement ++ out ++ utf8_decode st' rest
      end
  end.

Definition toString_utf8 (bs : list Z) : string :=
  string_of_bytes (utf8_decode None bs).

(** The standard alphabet: A-Z a-z 0-9 + / *)
Definition base64_char (v : Z) : ascii :=
  ascii_of_byte
    (if v <? 26 then 65 + v
     else if v <? 52 then 97 + (v - 26)
     else if v <? 62 then 48 + (v - 52)
     else if v =? 62 then 43
     else 47).

(** [buf.toString("base64")]: the standard alphabet, and a last group of
    one or two bytes padded with [=] to four characters. *)
Fixpoint toString_base64 (bs : list Z) : list ascii :=
  match bs with
  | [] => []
  | [b0] =>
      [ base64_char (Z.shiftr b0 2);
        base64_char (Z.shiftl (Z.land b0 3) 4);
        "="%char; "="%char ]
  | [b0; b1] =>
      [ base64_char (Z.shiftr b0 2);
        base64_char (Z.lor (Z.shiftl (Z.land b0 3) 4) (Z.shiftr b1 4));
        base64_char (Z.shiftl (Z.land b1 15) 2);
        "="%char ]
  | b0 :: b1 :: b2 :: rest =>
      base64_char (Z.shiftr b0 2)
      :: base64_char (Z.lor (Z.shiftl (Z.land b0 3) 4) (Z.shiftr b1 4))
      :: base64_char (Z.lor (Z.shiftl (Z.land b1 15) 2) (Z.shiftr b2 6))
      :: base64_char (Z.land b2 63)
      :: toString_base64 rest
  end.

(** [Buffer.from(s, "base64")]: Node reads both encodings with the one
    decoder. *)
Definition from_base64 (s : string) : list Z :=
  bytes_of_sextets (sextets (decoder_input s)).

(** [buf.subarray(start, end)] for indices that are not negative *)
Definition subarray (buf : list Z) (first last : nat) : list Z :=
  take (last - first) (drop first buf).

End Buffer.

(** [base64UrlCodec] ([src/codec/base64Url.ts]) *)
Definition base64UrlCodec : Codec string string := {|
  encode := fun s =>
    Resolved (string_of_list_ascii (Buffer.toString_base64url (Buffer.from_utf8 s)));
  decode := fun s =>
    Resolved (Buffer.toString_utf8 (Buffer.from_base64url s))
|}.

(** ** Sort sets ([src/sorting.ts]) *)

(** kysely's [OrderByDirection] *)
Inductive OrderByDirection : Type := asc | desc.

(** [applyDefaultDirection = (dir) => dir ?? "asc"] *)
Definition applyDefaultDirection (dir : option OrderByDirection) : OrderByDirection :=
  default asc dir.

(** kysely's [ReferenceExpression]: a column name, possibly qualified by its
    table, or an expression that is not a string. *)
Inductive ReferenceExpression : Type :=
  | RefString (s : string)
  | RefExpression (id : nat).

(** The two shapes of a [SortItem]: [{ col, output }], or [{ col }] with a
    string reference from which the output key is read. *)
Inductive SortRef : Type :=
  | WithOutput (col : ReferenceExpression) (output : string)
  | Column (col : string).

(** [type SortItem = { dir?: OrderByDirection } & ({ col; output } | { col })] *)
Record SortItem : Type := { dir : option OrderByDirection; ref : SortRef }.

(** [sort.col] *)
Definition col (s : SortItem) : ReferenceExpression :=
  match ref s with WithOutput c _ => c | Column c => RefString c end.

(** [invertSorts] ([src/paginator.ts]) *)
Definition invertSorts (sorts : list SortItem) : list SortItem :=
  map (fun s =>
         {| dir := Some (match applyDefaultDirection (dir s) with
                         | desc => asc
                         | asc => desc
                         end);
            ref := ref s |})
      sorts.

(** ** Cursors ([src/cursor.ts]) *)

(** A result row: its output columns by name. *)
Abbreviation Row := (gmap string JsValue).

(** The names of the members of [Object.prototype] (ECMAScript, with its
    annex B): an object literal, the result of [Object.fromEntries], a parsed
    record and a result row have them on their prototype chain. *)
Definition Object_prototype : list string :=
  [ "constructor"; "hasOwnProperty"; "isPrototypeOf"; "propertyIsEnumerable";
    "toLocaleString"; "toString"; "valueOf"; "__proto__";
    "__defineGetter__"; "__defineSetter__"; "__lookupGetter__";
    "__lookupSetter__" ].

(** [key in obj]: an own property, or a member of the prototype. *)
Definition has (o : gmap string JsValue) (key : string) : bool :=
  match o !! key with
  | Some _ => true
  | None => bool_decide (key ∈ Object_prototype)
  end.

(** [obj[key]]: the own property, else the member of the prototype, else
    [undefined]. *)
Definition get (o : gmap string JsValue) (key : string) : JsValue :=
  match o !! key with
  | Some value => value
  | None => if bool_decide (key ∈ Object_prototype) then VInherited key
            else VUndefined
  end.

(** [type CursorPayload = z.output<typeof CursorPayloadSchema>]:
    [{ sig: string, k: Record<string, any> }] *)
Module CursorPayload.
Record t : Type := { sig : string; k : gmap string JsValue }.
End CursorPayload.

(** The payload as the value handed to a codec. *)
Definition payload_value (p : CursorPayload.t) : JsValue :=
  VObj (<["sig" := VStr (CursorPayload.sig p)]>
          (<["k" := VObj (CursorPayload.k p)]> ∅)).

Definition ZodError : Error := GenericError "ZodError" "Invalid input".

(** [CursorPayloadSchema.parse]: an object whose [sig] is a string and whose
    [k] is a record; other keys are stripped.  zod copies a record key by
    key into a new object and leaves the key [__proto__] out. *)
Definition CursorPayloadSchema_parse (decoded : JsValue) : Promise CursorPayload.t :=
  match decoded with
  | VObj o =>
      match o !! "sig", o !! "k" with
      | Some (VStr s), Some (VObj r) =>
          Resolved {| CursorPayload.sig := s;
                      CursorPayload.k := delete "__proto__" r |}
      | _, _ => Rejected ZodError
      end
  | _ => Rejected ZodError
  end.

(** An incoming cursor object, by the keys it has: a field is [None] when
    the key is not [in] the object.  [type CursorIncoming] declares exactly
    one of the three; at run time an object may have any of them. *)
Module CursorIncoming.
Record t : Type := {
  nextPage : option string;
  prevPage : option string;
  offset : option number
}.
End CursorIncoming.

(** ["next" | "prev" | "offset"], the cursor types a dialect is told of. *)
Inductive CursorType : Type := TNext | TPrev | TOffset.

(** ["next" | "prev"], the types of a keyset cursor. *)
Inductive NextPrev : Type := KNext | KPrev.

Definition cursor_type (t : NextPrev) : CursorType :=
  match t with KNext => TNext | KPrev => TPrev end.

(** [type DecodedCursorNextPrev = { type: "next" | "prev", payload }] *)
Record DecodedCursorNextPrev : Type := {
  type : NextPrev;
  payload : CursorPayload.t
}.

(** What [decodeCursor] returns: [{ type, payload }] or
    [{ type: "offset", offset }]. *)
Inductive DecodedCursor : Type :=
  | Keyset (c : DecodedCursorNextPrev)
  | Offset (offset : number).

(** [decodedCursor?.type] *)
Definition type_of (d : option DecodedCursor) : option CursorType :=
  match d with
  | Some (Keyset c) => Some (cursor_type (type c))
  | Some (Offset _) => Some TOffset
  | None => None
  end.

(** [decodedCursor?.type === "prev"] *)
Definition is_prev (d : option DecodedCursor) : bool :=
  match type_of d with Some TPrev => true | _ => false end.

(** The codec of cursors, [Codec<any, string>]: [paginate] takes it from
    its arguments (its default, [codecPipe(superJsonCodec, base64UrlCodec)],
    is an argument like any other here). *)
Abbreviation CursorCodec := (Codec JsValue string).

(** [decodeCursorPayload] (index.cjs 126-129) *)
Definition decodeCursorPayload (token : string) (keysetCodec : CursorCodec)
  : Promise CursorPayload.t :=
  decoded ← decode keysetCodec token;
  CursorPayloadSchema_parse decoded.

(** [decodeCursor] (index.cjs 112-125): the tests ["nextPage" in cursor],
    ["prevPage" in cursor], ["offset" in cursor], in this order. *)
Definition decodeCursor (cursor : CursorIncoming.t) (keysetCodec : CursorCodec)
  : Promise DecodedCursor :=
  match CursorIncoming.nextPage cursor with
  | Some token =>
      p ← decodeCursorPayload token keysetCodec;
      Resolved (Keyset {| type := KNext; payload := p |})
  | None =>
  match CursorIncoming.prevPage cursor with
  | Some token =>
      p ← decodeCursorPayload token keysetCodec;
      Resolved (Keyset {| type := KPrev; payload := p |})
  | None =>
  match CursorIncoming.offset cursor with
  | Some n => Resolved (Offset n)
  | None => Rejected (PaginationError "Invalid cursor" INVALID_TOKEN None)
  end end end.

(** [s.split(sep)] for a one-character separator *)
Fixpoint split (sep : ascii) (s : string) : list string :=
  match s with
  | EmptyString => [EmptyString]
  | String c rest =>
      if Ascii.eqb c sep then EmptyString :: split sep rest
      else match split sep rest with
           | seg :: segs => String c seg :: segs
           | [] => [String c EmptyString]
           end
  end.

(** [getSortOutput = (sort) =>
      "output" in sort ? sort.output : sort.col.split(".").at(-1)] *)
Definition getSortOutput (sort : SortItem) : string :=
  match ref sort with
  | WithOutput _ output => output
  | Column c => List.last (split "." c) EmptyString
  end.

Definition direction_text (d : OrderByDirection) : string :=
  match d with asc => "asc" | desc => "desc" end.

(** The text [sortSignature] hashes:
    [sorts.map(s => `${"output" in s ? s.output : s.col}:${s.dir ?? "asc"}`).join("|")] *)
Definition signature_text (sorts : list SortItem) : string :=
  String.concat "|"
    (map (fun s =>
            (match ref s with WithOutput _ output => output | Column c => c end)
            +:+ ":" +:+ direction_text (default asc (dir s)))
         sorts).

(** [createHash("sha256").update(sig).digest("hex").slice(0, 8)] *)
Definition sortSignature (sorts : list SortItem) : string :=
  string_of_list_ascii (take 8 (Sha256.digest_hex (signature_text sorts))).

(** [Object.fromEntries]: a later entry of a key replaces an earlier one. *)
Definition fromEntries (entries : list (string * JsValue)) : gmap string JsValue :=
  foldl (fun o kv => <[kv.1 := kv.2]> o) ∅ entries.

(** [resolveCursor] (index.cjs 159-168) *)
Definition resolveCursor (item : Row) (sorts : list SortItem) : CursorPayload.t :=
  let sig := sortSignature sorts in
  let k := fromEntries
             (map (fun s => let key := getSortOutput s in (key, get item key)) sorts) in
  {| CursorPayload.sig := sig; CursorPayload.k := k |}.

(** [type CursorOutgoing = { startCursor?, endCursor?, nextPage?, prevPage? }];
    the fields of the object [resolvePageTokens] returns. *)
Module CursorOutgoing.
Record t : Type := {
  startCursor : option string;
  endCursor : option string;
  prevPage : option string;
  nextPage : option string
}.
End CursorOutgoing.

(** [resolvePageTokens] (index.cjs 130-144); a row is an object, so
    [first ? ... : void 0] asks whether there is a first row. *)
Definition resolvePageTokens (rows : list Row) (sorts : list SortItem)
    (cursorCodec : CursorCodec) (decodedCursor : option DecodedCursor)
    (overFetched : bool) : Promise CursorOutgoing.t :=
  if (length rows =? 0)%nat then
    Resolved {| CursorOutgoing.startCursor := None;
                CursorOutgoing.endCursor := None;
                CursorOutgoing.prevPage := None;
                CursorOutgoing.nextPage := None |}
  else
    let inverted := is_prev decodedCursor in
    let isFirst :=
      match decodedCursor with
      | None => true
      | Some (Offset n) => num_is0 n
      | Some (Keyset _) => false
      end in
    let first := head rows in
    let last := list.last rows in
    startCursor ← match first with
                  | Some r => s ← encode cursorCodec (payload_value (resolveCursor r sorts));
                              Resolved (Some s)
                  | None => Resolved None
                  end;
    endCursor ← match last with
                | Some r => s ← encode cursorCodec (payload_value (resolveCursor r sorts));
                            Resolved (Some s)
                | None => Resolved None
                end;
    Resolved {| CursorOutgoing.startCursor := startCursor;
                CursorOutgoing.endCursor := endCursor;
                CursorOutgoing.prevPage :=
                  if (negb inverted || overFetched) && negb isFirst
                  then startCursor else None;
                CursorOutgoing.nextPage :=
                  if inverted || overFetched then endCursor else None |}.

(** [type EdgeOutgoing<T> = { node: T, cursor: string }] *)
Module EdgeOutgoing.
Record t : Type := { node : Row; cursor : string }.
End EdgeOutgoing.

(** [Promise.all(rows.map(async (row) => ...))]: the edges in row order, or
    the rejection of an encoding that failed. *)
Fixpoint resolveEdges_all (rows : list Row) (sorts : list SortItem)
    (cursorCodec : CursorCodec) : Promise (list EdgeOutgoing.t) :=
  match rows with
  | [] => Resolved []
  | row :: rest =>
      c ← encode cursorCodec (payload_value (resolveCursor row sorts));
      edges ← resolveEdges_all rest sorts cursorCodec;
      Resolved ({| EdgeOutgoing.node := row; EdgeOutgoing.cursor := c |} :: edges)
  end.

(** [resolveEdges] (index.cjs 145-153) *)
Definition resolveEdges (rows : list Row) (sorts : list SortItem)
    (cursorCodec : CursorCodec) : Promise (list EdgeOutgoing.t) :=
  if (length rows =? 0)%nat then Resolved []
  else resolveEdges_all rows sorts cursorCodec.

(** *** The keyset predicate *)

(** The operators [buildCursorPredicateRecursive] passes to the expression
    builder: [<], [>], [=], [is], [is not]. *)
Inductive Operator : Type := OpLt | OpGt | OpEq | OpIs | OpIsNot.

(** The expressions it builds with kysely's [ExpressionBuilder]:
    [eb(col, op, value)], [lhs.and(rhs)], [eb.and([...])], [eb.or([...])]. *)
Inductive Expression : Type :=
  | Eb (col : ReferenceExpression) (op : Operator) (value : JsValue)
  | ExprAnd (lhs rhs : Expression)
  | EbAnd (es : list Expression)
  | EbOr (es : list Expression).

(** The double-quote character, for messages that quote a key. *)
Definition dquote : string := String (ascii_of_nat 34) EmptyString.

(** A value together with the equation that it is the value, to keep
    [sorts[idx]] at hand in the recursive call below. *)
Definition inspect {A : Type} (a : A) : { b : A | a = b } := exist _ a eq_refl.

(** [buildCursorPredicateRecursive] (index.cjs 169-196), with [eb] the
    constructors of [Expression]; [idx] runs up to [sorts.length - 1]. *)
Equations? buildCursorPredicateRecursive (sorts : list SortItem)
    (decoded : CursorPayload.t) (idx : nat) : Promise Expression
    by wf (length sorts - idx)%nat lt :=
  buildCursorPredicateRecursive sorts decoded idx with inspect (sorts !! idx) := {
    | exist _ None _ =>
        Rejected (PaginationError "Sort index out of bounds" UNEXPECTED_ERROR None)
    | exist _ (Some sort) Hsort =>
        let dir := applyDefaultDirection (dir sort) in
        let col := col sort in
        let key := getSortOutput sort in
        if negb (has (CursorPayload.k decoded) key) then
          Rejected (PaginationError
                      ("Missing pagination cursor value for " +:+ dquote +:+ key +:+ dquote)
                      INVALID_TOKEN None)
        else
          let value := get (CursorPayload.k decoded) key in
          let cmp := match dir with desc => OpLt | asc => OpGt end in
          if (idx =? length sorts - 1)%nat then Resolved (Eb col cmp value)
          else
            next ← buildCursorPredicateRecursive sorts decoded (idx + 1);
            match value with
            | VNull =>
                match dir with
                | asc => Resolved (EbOr [ExprAnd (Eb col OpIs VNull) next;
                                         Eb col OpIsNot VNull])
                | desc => Resolved (EbAnd [Eb col OpIs VNull; next])
                end
            | _ =>
                Resolved (EbOr ([Eb col cmp value;
                                 EbAnd [Eb col OpEq value; next]]
                                ++ match dir with
                                   | desc => [Eb col OpIs VNull]
                                   | asc => []
                                   end))
            end }.
Proof. apply lookup_lt_Some in Hsort. lia. Qed.

(** ** SQL dialects ([src/dialect]) *)

Inductive NullsOrder : Type := NullsFirst | NullsLast.

(** The clauses the dialects add to a kysely [SelectQueryBuilder]. *)
Inductive Clause : Type :=
  | OrderBy (col : ReferenceExpression) (dir : OrderByDirection)
            (nulls : option NullsOrder)
  | Limit (n : number)
  | Top (n : number)
  | Fetch (n : number)
  | OffsetRows (n : number)
  | Where (e : Expression).

(** A query under construction: the clauses added so far, in order.  Every
    builder method returns a new builder. *)
Abbreviation SelectQueryBuilder := (list Clause).

(** [baseApplyCursor]: kysely's [builder.where(callback)] calls the callback
    with an expression builder at once and adds its result as a WHERE
    clause; what the callback throws, [where] throws. *)
Definition baseApplyCursor (builder : SelectQueryBuilder) (sorts : list SortItem)
    (cursor : DecodedCursorNextPrev) : Promise SelectQueryBuilder :=
  e ← buildCursorPredicateRecursive sorts (payload cursor) 0;
  Resolved (builder ++ [Where e]).

(** [type PaginationDialect], over the query type [Q] of the caller.  The
    three builder steps return a new query; [applyCursor] may throw, as
    [baseApplyCursor] does for a cursor without a value for a sort key. *)
Record PaginationDialect (Q : Type) : Type := {
  applyLimit : Q -> number -> option CursorType -> Q;
  applyOffset : Q -> number -> Q;
  applySort : Q -> list SortItem -> Q;
  applyCursor : Q -> list SortItem -> DecodedCursorNextPrev -> Promise Q
}.
Arguments applyLimit {Q} _ _ _ _.
Arguments applyOffset {Q} _ _ _.
Arguments applySort {Q} _ _ _.
Arguments applyCursor {Q} _ _ _ _.

(** [for (const s of sorts) builder = builder.orderBy(s.col, s.dir ?? "asc")] *)
Definition orderBy_each (builder : SelectQueryBuilder) (sorts : list SortItem)
  : SelectQueryBuilder :=
  foldl (fun b s => b ++ [OrderBy (col s) (default asc (dir s)) None]) builder sorts.

(** [src/dialect/mssql.ts] *)
Definition MssqlPaginationDialect : PaginationDialect SelectQueryBuilder := {|
  applyLimit := fun builder limit cursorType =>
    match cursorType with
    | Some TOffset => builder ++ [Fetch limit]
    | _ => builder ++ [Top limit]
    end;
  applyOffset := fun builder offset => builder ++ [OffsetRows offset];
  applySort := orderBy_each;
  applyCursor := baseApplyCursor
|}.

(** [src/dialect/mysql.ts] *)
Definition MysqlPaginationDialect : PaginationDialect SelectQueryBuilder := {|
  applyLimit := fun builder limit _ => builder ++ [Limit limit];
  applyOffset := fun builder offset => builder ++ [OffsetRows offset];
  applySort := orderBy_each;
  applyCursor := baseApplyCursor
|}.

(** [src/dialect/postgres.ts]: ascending with NULLS FIRST, descending with
    NULLS LAST. *)
Definition PostgresPaginationDialect : PaginationDialect SelectQueryBuilder := {|
  applyLimit := fun builder limit _ => builder ++ [Limit limit];
  applyOffset := fun builder offset => builder ++ [OffsetRows offset];
  applySort := fun builder sorts =>
    foldl (fun b s =>
             let dir := default asc (dir s) in
             b ++ [match dir with
                   | asc => OrderBy (col s) asc (Some NullsFirst)
                   | desc => OrderBy (col s) desc (Some NullsLast)
                   end])
          builder sorts;
  applyCursor := baseApplyCursor
|}.

(** [src/dialect/sqlite.ts] *)
Definition SqlitePaginationDialect : PaginationDialect SelectQueryBuilder := {|
  applyLimit := fun builder limit _ => builder ++ [Limit limit];
  applyOffset := fun builder offset => builder ++ [OffsetRows offset];
  applySort := orderBy_each;
  applyCursor := baseApplyCursor
|}.

(** ** The paginator ([src/paginator.ts]) *)

(** [type PaginatedResult<T> =
      { items: T[], hasNextPage: boolean, hasPrevPage: boolean } & CursorOutgoing] *)
Module PaginatedResult.
Record t : Type := {
  items : list Row;
  prevPage : option string;
  nextPage : option string;
  startCursor : option string;
  endCursor : option string;
  hasPrevPage : bool;
  hasNextPage : bool
}.
End PaginatedResult.

(** [type EdgeOutgoing<T>] and [type PaginatedResultWithEdges<T>] *)
Module PaginatedResultWithEdges.
Record t : Type := {
  prevPage : option string;
  nextPage : option string;
  startCursor : option string;
  endCursor : option string;
  hasPrevPage : bool;
  hasNextPage : bool;
  edges : list EdgeOutgoing.t
}.
End PaginatedResultWithEdges.

(** [!!token] for an optional string: [undefined] and the empty string are
    falsy. *)
Definition truthy (token : option string) : bool :=
  match token with
  | Some s => negb (String.eqb s "")
  | None => false
  end.

(** [assertLimitSorts] (index.cjs 325-330); a [list] is an array, so
    [!Array.isArray(sorts)] is false. *)
Definition assertLimitSorts (limit : number) (sorts : list SortItem) : Promise unit :=
  if negb (Number_isInteger limit && num_gt0 limit) then
    Rejected (PaginationError "Invalid page size limit" INVALID_LIMIT None)
  else if (length sorts <? 1)%nat then
    Rejected (PaginationError "Cannot paginate without sorting" INVALID_SORT None)
  else Resolved tt.

Section Paginator.

(** The query type of the caller and its [q.execute()]. *)
Context {Q : Type}.
Variable execute : Q -> Promise (list Row).

(** [paginate] (index.cjs 264-310): [assertLimitSorts] stands before the
    [try] block. *)
Definition paginate (query : Q) (sorts : list SortItem) (limit : number)
    (cursor : option CursorIncoming.t) (dialect : PaginationDialect Q)
    (cursorCodec : CursorCodec) : Promise PaginatedResult.t :=
  _ ← assertLimitSorts limit sorts;
  try_catch
    (decodedCursor ← match cursor with
                     | Some c => d ← decodeCursor c cursorCodec; Resolved (Some d)
                     | None => Resolved None
                     end;
     let sortsApplied :=
       if is_prev decodedCursor then invertSorts sorts else sorts in
     let q := applySort dialect query sortsApplied in
     let q := applyLimit dialect q (num_succ limit) (type_of decodedCursor) in
     q ← match decodedCursor with
         | Some (Offset n) => Resolved (applyOffset dialect q n)
         | Some (Keyset c) =>
             let sig := sortSignature sorts in
             if negb (String.eqb (CursorPayload.sig (payload c)) sig) then
               Rejected (PaginationError "Page token does not match sort order"
                                         INVALID_TOKEN None)
             else applyCursor dialect q sortsApplied c
         | None => Resolved q
         end;
     rows ← execute q;
     let items :=
       if is_prev decodedCursor then rev (slice0 rows limit) else slice0 rows limit in
     tokens ← resolvePageTokens items sorts cursorCodec decodedCursor
                (length_gt (length rows) limit);
     Resolved {| PaginatedResult.items := items;
                 PaginatedResult.prevPage := CursorOutgoing.prevPage tokens;
                 PaginatedResult.nextPage := CursorOutgoing.nextPage tokens;
                 PaginatedResult.startCursor := CursorOutgoing.startCursor tokens;
                 PaginatedResult.endCursor := CursorOutgoing.endCursor tokens;
                 PaginatedResult.hasPrevPage := truthy (CursorOutgoing.prevPage tokens);
                 PaginatedResult.hasNextPage := truthy (CursorOutgoing.nextPage tokens) |})
    (fun error =>
       if instanceof_PaginationError error then Rejected error
       else Rejected (PaginationError "Failed to paginate" UNEXPECTED_ERROR (Some error))).

(** [paginateWithEdges] (index.cjs 311-324): the call of [paginate] stands
    before the [try] block. *)
Definition paginateWithEdges (query : Q) (sorts : list SortItem) (limit : number)
    (cursor : option CursorIncoming.t) (dialect : PaginationDialect Q)
    (cursorCodec : CursorCodec) : Promise PaginatedResultWithEdges.t :=
  paginated ← paginate query sorts limit cursor dialect cursorCodec;
  let items := PaginatedResult.items paginated in
  try_catch
    (edges ← resolveEdges items sorts cursorCodec;
     Resolved {| PaginatedResultWithEdges.prevPage := PaginatedResult.prevPage paginated;
                 PaginatedResultWithEdges.nextPage := PaginatedResult.nextPage paginated;
                 PaginatedResultWithEdges.startCursor := PaginatedResult.startCursor paginated;
                 PaginatedResultWithEdges.endCursor := PaginatedResult.endCursor paginated;
                 PaginatedResultWithEdges.hasPrevPage := PaginatedResult.hasPrevPage paginated;
                 PaginatedResultWithEdges.hasNextPage := PaginatedResult.hasNextPage paginated;
                 PaginatedResultWithEdges.edges := edges |})
    (fun error =>
       if instanceof_PaginationError error then Rejected error
       else Rejected (PaginationError "Failed to generate edges" UNEXPECTED_ERROR
                                      (Some error))).

End Paginator.

(** ** Codecs with effects ([src/codec/codec.ts])

    [createAesCodec] draws random bytes and [stashCodec] draws a random key
    and keeps a store: their methods act on a world [W], the entropy of the
    runtime and the content of the store, which they take and give back. *)

Record EffectfulCodec (W I O : Type) : Type := {
  run_encode : I -> W -> Promise O * W;
  run_decode : O -> W -> Promise I * W
}.
Arguments run_encode {W I O} _ _ _.
Arguments run_decode {W I O} _ _ _.

(** The options [createAesCodec] passes to [crypto.scrypt]. *)
Record ScryptOptions : Type := {
  scrypt_N : nat; scrypt_r : nat; scrypt_p : nat; scrypt_maxmem : nat
}.

Section AesCodec.

(** Node's [crypto] as [createAesCodec] uses it. *)
Context {Entropy : Type}.

(** [crypto.randomBytes(size)] *)
Variable randomBytes : nat -> Entropy -> list Z * Entropy.

(** [crypto.scrypt(password, salt, keylen, options, callback)]: the derived
    key, or the error the callback is called with. *)
Variable scrypt : string -> list Z -> nat -> ScryptOptions -> Promise (list Z).

(** AES-256-GCM encryption of a plaintext under a key, an IV and additional
    authenticated data ([createCipheriv], [setAAD], [update], [final],
    [getAuthTag]): the ciphertext and the authentication tag. *)
Variable aes_256_gcm_encrypt :
  list Z -> list Z -> list Z -> list Z -> Promise (list Z * list Z).

(** AES-256-GCM decryption of a ciphertext with its tag ([createDecipheriv],
    [setAAD], [setAuthTag], [update], [final]): the plaintext, or the error
    [final] throws when the authentication fails. *)
Variable aes_256_gcm_decrypt :
  list Z -> list Z -> list Z -> list Z -> list Z -> Promise (list Z).

Definition VERSION : list Z := [1%Z].
Definition SALT_LEN : nat := 16.
Definition IV_LEN : nat := 12.
Definition TAG_LEN : nat := 16.
Definition KEY_LEN : nat := 32.
Definition SCRYPT : ScryptOptions :=
  {| scrypt_N := 2 ^ 15; scrypt_r := 8; scrypt_p := 1;
     scrypt_maxmem := 256 * 1024 * 1024 |}.

(** [createAesCodec] (index.cjs 23-81).  [key.fill(0)] in the [finally]
    blocks wipes the key buffer and changes no result. *)
Definition createAesCodec (secret : string) : EffectfulCodec Entropy string string :=
  let kdf (salt : list Z) : Promise (list Z) := scrypt secret salt KEY_LEN SCRYPT in
  {| run_encode := fun plain world =>
       let '(salt, world) := randomBytes SALT_LEN world in
       match kdf salt with
       | Rejected e => (Rejected e, world)
       | Resolved key =>
           let '(iv, world) := randomBytes IV_LEN world in
           let aad := VERSION ++ salt in
           (sealed ← aes_256_gcm_encrypt key iv aad (Buffer.from_utf8 plain);
            let '(ciphertext, tag) := sealed in
            Resolved (string_of_list_ascii
                        (Buffer.toString_base64
                           (VERSION ++ salt ++ iv ++ tag ++ ciphertext))),
            world)
       end;
     run_decode := fun payload world =>
       (let buf := Buffer.from_base64 payload in
        let HEADER := 1 + SALT_LEN + IV_LEN + TAG_LEN in
        if length buf <? HEADER then
          Rejected (GenericError "Error" "Invalid payload: too short")
        else
          let ver := Buffer.subarray buf 0 1 in
          match head ver with
          | Some 1%Z =>
              let salt := Buffer.subarray buf 1 (1 + SALT_LEN) in
              let iv := Buffer.subarray buf (1 + SALT_LEN) (1 + SALT_LEN + IV_LEN) in
              let tag := Buffer.subarray buf (1 + SALT_LEN + IV_LEN) HEADER in
              let ciphertext := drop HEADER buf in
              key ← kdf salt;
              let aad := ver ++ salt in
              plaintext ← aes_256_gcm_decrypt key iv aad tag ciphertext;
              Resolved (Buffer.toString_utf8 plaintext)
          | Some v =>
              Rejected (GenericError "Error" ("Unsupported version: " +:+ pretty v))
          | None =>
              Rejected (GenericError "Error" "Unsupported version: undefined")
          end,
        world) |}.

End AesCodec.

(** [type Stash = { get: (key) => Promise<string>,
                    set: (key, value) => Promise<void> }], over the content
    [S] of the store. *)
Module Stash.
Record t (S : Type) : Type := {
  get : string -> S -> Promise string * S;
  set : string -> string -> S -> Promise unit * S
}.
Arguments get {S} _ _ _.
Arguments set {S} _ _ _ _.
End Stash.

Section StashCodec.

Context {Entropy S : Type}.

(** [crypto.randomUUID()] *)
Variable randomUUID : Entropy -> string * Entropy.

(** [stashCodec] (index.cjs 82-89) *)
Definition stashCodec (stash : Stash.t S)
  : EffectfulCodec (Entropy * S) string string := {|
  run_decode := fun value world =>
    let '(entropy, store) := world in
    let '(found, store) := Stash.get stash value store in
    (found, (entropy, store));
  run_encode := fun value world =>
    let '(entropy, store) := world in
    let '(key, entropy) := randomUUID entropy in
    let '(stored, store) := Stash.set stash key value store in
    (_ ← stored; Resolved key, (entropy, store))
|}.

End StashCodec.

(** ** The default cursor codec and [createPaginator] ([src/paginator.ts]) *)

(** [codecPipe(c1, c2)] at the types of two codecs, the output type of the
    first being the input type of the second: [reduce] runs [c1.encode] on
    the value and [c2.encode] on its result, [reduceRight] runs [c2.decode]
    and then [c1.decode]. *)
Definition codecPipe2 {A B C : Type} (c1 : Codec A B) (c2 : Codec B C) : Codec A C := {|
  encode := fun value =>
    (Resolved value ≫= (fun v => encode c1 v)) ≫= (fun v => encode c2 v);
  decode := fun value =>
    (Resolved value ≫= (fun v => decode c2 v)) ≫= (fun v => decode c1 v)
|}.

(** [type PaginatorOptions = { dialect, cursorCodec? }] *)
Module PaginatorOptions.
Record t (Q : Type) : Type := {
  dialect : PaginationDialect Q;
  cursorCodec : option CursorCodec
}.
Arguments dialect {Q} _.
Arguments cursorCodec {Q} _.
End PaginatorOptions.

(** [type PaginateArgs = { query, sorts, limit, cursor? }] *)
Module PaginateArgs.
Record t (Q : Type) : Type := {
  query : Q;
  sorts : list SortItem;
  limit : number;
  cursor : option CursorIncoming.t
}.
Arguments query {Q} _.
Arguments sorts {Q} _.
Arguments limit {Q} _.
Arguments cursor {Q} _.
End PaginateArgs.

(** [type Paginator = { paginate, paginateWithEdges }] *)
Module Paginator.
Record t (Q : Type) : Type := {
  paginate : PaginateArgs.t Q -> Promise PaginatedResult.t;
  paginateWithEdges : PaginateArgs.t Q -> Promise PaginatedResultWithEdges.t
}.
Arguments paginate {Q} _ _.
Arguments paginateWithEdges {Q} _ _.
End Paginator.

Section DefaultCodec.

(** [superjson.stringify(value)] and [superjson.parse(text)], with what they
    throw. *)
Variable superjson_stringify : JsValue -> Promise string.
Variable superjson_parse : string -> Promise JsValue.

(** [superJsonCodec] (index.cjs 90-93) *)
Definition superJsonCodec : Codec JsValue string := {|
  encode := fun value => superjson_stringify value;
  decode := fun value => superjson_parse value
|}.

(** [DEFAULT_CURSOR_CODEC = codecPipe(superJsonCodec, base64UrlCodec)] *)
Definition DEFAULT_CURSOR_CODEC : CursorCodec :=
  codecPipe2 superJsonCodec base64UrlCodec.

Context {Q : Type}.
Variable execute : Q -> Promise (list Row).

(** [createPaginator] (index.cjs 260-263): [{ ...args, ...opts }] takes the
    dialect and the cursor codec from the options, and [paginate] falls back
    on the default codec when the options give none. *)
Definition createPaginator (opts : PaginatorOptions.t Q) : Paginator.t Q :=
  let cursorCodec :=
    default DEFAULT_CURSOR_CODEC (PaginatorOptions.cursorCodec opts) in
  {| Paginator.paginate := fun args =>
       paginate execute (PaginateArgs.query args) (PaginateArgs.sorts args)
                (PaginateArgs.limit args) (PaginateArgs.cursor args)
                (PaginatorOptions.dialect opts) cursorCodec;
     Paginator.paginateWithEdges := fun args =>
       paginateWithEdges execute (PaginateArgs.query args) (PaginateArgs.sorts args)
                         (PaginateArgs.limit args) (PaginateArgs.cursor args)
                         (PaginatorOptions.dialect opts) cursorCodec |}.

End DefaultCodec.

(** * Definitions the statements below use *)

(** ** Codec pipelines, as the specification words them *)

Section CodecChains.

Context {V : Type}.

(** [cn.encode(...(c2.encode(c1.encode(v))))]: the first codec encodes the
    value, and the output of each codec is the input of the next. *)
Fixpoint encode_in_order (codecs : list (Codec V V)) (v : V) : Promise V :=
  match codecs with
  | [] => Resolved v
  | c :: rest => encode c v ≫= encode_in_order rest
  end.

(** [c1.decode(...(cn-1.decode(cn.decode(w))))]: the last codec decodes
    first, the first codec last. *)
Fixpoint decode_in_reverse (codecs : list (Codec V V)) (w : V) : Promise V :=
  match codecs with
  | [] => Resolved w
  | c :: rest => decode_in_reverse rest w ≫= decode c
  end.

End CodecChains.

(** The round-trip law of a codec: what [encode] produces from [x], [decode]
    turns back into [x]. *)
Definition round_trip {I O : Type} (c : Codec I O) : Prop :=
  forall x y, encode c x = Resolved y -> decode c y = Resolved x.

(** A codec that labels a value, [v] to [[label, v]], and on decoding
    refuses anything that does not carry its label. *)
Definition labelCodec (label : string) : Codec JsValue JsValue := {|
  encode := fun v => Resolved (VArr [VStr label; v]);
  decode := fun w =>
    match w with
    | VArr [VStr l; v] =>
        if String.eqb l label then Resolved v
        else Rejected (GenericError "Error" "Unknown label")
    | _ => Rejected (GenericError "Error" "Malformed value")
    end
|}.

(** ** Sort sets, cursors and rows for the examples *)

(** [[{ col: "age", dir: "desc" }, { col: "id" }]]: by age, oldest first,
    then by id. *)
Definition byAgeThenId : list SortItem :=
  [ {| dir := Some desc; ref := Column "age" |};
    {| dir := None; ref := Column "id" |} ].

(** [[{ col: "id" }]] and the same column qualified by its table. *)
Definition byId : list SortItem := [ {| dir := None; ref := Column "id" |} ].
Definition byUsersId : list SortItem := [ {| dir := None; ref := Column "users.id" |} ].

Definition person (id : Z) (age : JsValue) : Row :=
  <["id" := VNum (Int id)]> (<["age" := age]> ∅).

(** The cursor of the row [{ age: 30, id: 5 }] under [byAgeThenId]. *)
Definition cursor_30_5 : CursorPayload.t :=
  resolveCursor (person 5 (VNum (Int 30))) byAgeThenId.

(** ** What the sort signature depends on *)

(** The name [sortSignature] writes for a sort item: its [output], or for a
    string-only item its [col] as written, table qualifier included. *)
Definition signature_label (s : SortItem) : string :=
  match ref s with WithOutput _ output => output | Column c => c end.

(** The (name, direction) pair of a sort item in the signature, an absent
    direction counting as ascending. *)
Definition signature_entry (s : SortItem) : string * OrderByDirection :=
  (signature_label s, applyDefaultDirection (dir s)).

(** The (outputKey, direction) pair of a sort item. *)
Definition output_entry (s : SortItem) : string * OrderByDirection :=
  (getSortOutput s, applyDefaultDirection (dir s)).

(** A sort item whose name in the signature is its output key: it has an
    [output], or its [col] has no table qualifier. *)
Definition unqualified (s : SortItem) : Prop :=
  match ref s with
  | WithOutput _ _ => True
  | Column c => ~ In "."%char (list_ascii_of_string c)
  end.

(** The first 32 bits of the SHA-256 hash of the text [sortSignature]
    hashes. *)
Definition signature_bits (sorts : list SortItem) : Z :=
  Sha256.sa (Sha256.hash (Sha256.bytes_of_string (signature_text sorts))).

Definition is_hex_digit (c : ascii) : bool :=
  let n := nat_of_ascii c in
  ((48 <=? n) && (n <=? 57) || (97 <=? n) && (n <=? 102))%nat.

(** ** An in-memory table queried the way SQLite does

    The query executor is the caller's; the examples below run the paginator
    against this one.  A column reference names the row's column after its
    table qualifier; comparisons with NULL are unknown, and a WHERE clause
    keeps the rows whose predicate is true. *)

Definition is_null (v : JsValue) : bool :=
  match v with VNull | VUndefined => true | _ => false end.

(** A finite number as a fraction with a positive denominator. *)
Definition fraction (n : number) : option (Z * Z) :=
  match n with
  | Int z => Some (z, 1%Z)
  | Dyadic k e => Some ((2 * k + 1)%Z, Z.pow 2 (Z.pos e))
  | _ => None
  end.

Fixpoint compare_strings (s t : string) : comparison :=
  match s, t with
  | EmptyString, EmptyString => Eq
  | EmptyString, String _ _ => Lt
  | String _ _, EmptyString => Gt
  | String a s', String b t' =>
      match Nat.compare (nat_of_ascii a) (nat_of_ascii b) with
      | Eq => compare_strings s' t'
      | c => c
      end
  end.

(** The order of two values of one sortable type. *)
Definition compare_values (v w : JsValue) : option comparison :=
  match v, w with
  | VNum a, VNum b =>
      match fraction a, fraction b with
      | Some (p, q), Some (r, s) => Some (Z.compare (p * s) (r * q))
      | _, _ => None
      end
  | VStr s, VStr t => Some (compare_strings s t)
  | VBool a, VBool b => Some (Nat.compare (Nat.b2n a) (Nat.b2n b))
  | VBigInt a, VBigInt b => Some (Z.compare a b)
  | VDate a, VDate b => Some (Z.compare a b)
  | _, _ => None
  end.

Definition column_value (row : Row) (c : ReferenceExpression) : JsValue :=
  match c with
  | RefString name =>
      default VUndefined (row !! List.last (split "." name) EmptyString)
  | RefExpression _ => VNull
  end.

(** SQL's three truth values: [None] is UNKNOWN. *)
Definition sql_and (a b : option bool) : option bool :=
  match a, b with
  | Some false, _ | _, Some false => Some false
  | Some true, Some true => Some true
  | _, _ => None
  end.

Definition sql_or (a b : option bool) : option bool :=
  match a, b with
  | Some true, _ | _, Some true => Some true
  | Some false, Some false => Some false
  | _, _ => None
  end.

Definition eval_binary (v : JsValue) (op : Operator) (w : JsValue) : option bool :=
  match op with
  | OpIs => Some (is_null v && is_null w)
  | OpIsNot => Some (negb (is_null v && is_null w))
  | _ =>
      if is_null v || is_null w then None
      else match compare_values v w, op with
           | Some Lt, OpLt | Some Gt, OpGt | Some Eq, OpEq => Some true
           | Some _, _ => Some false
           | None, _ => None
           end
  end.

Fixpoint eval (row : Row) (e : Expression) : option bool :=
  match e with
  | Eb c op value => eval_binary (column_value row c) op value
  | ExprAnd lhs rhs => sql_and (eval row lhs) (eval row rhs)
  | EbAnd es => fold_right (fun e acc => sql_and (eval row e) acc) (Some true) es
  | EbOr es => fold_right (fun e acc => sql_or (eval row e) acc) (Some false) es
  end.

(** One ORDER BY key: NULL is the smallest value unless the clause places it,
    so it comes first in ascending and last in descending order. *)
Definition compare_by (c : Clause) (r1 r2 : Row) : comparison :=
  match c with
  | OrderBy column direction nulls =>
      let v1 := column_value r1 column in
      let v2 := column_value r2 column in
      let nulls_first :=
        match nulls, direction with
        | Some NullsFirst, _ => true
        | Some NullsLast, _ => false
        | None, asc => true
        | None, desc => false
        end in
      match is_null v1, is_null v2 with
      | true, true => Eq
      | true, false => if nulls_first then Lt else Gt
      | false, true => if nulls_first then Gt else Lt
      | false, false =>
          let c := default Eq (compare_values v1 v2) in
          match direction with asc => c | desc => CompOpp c end
      end
  | _ => Eq
  end.

Fixpoint compare_rows (q : list Clause) (r1 r2 : Row) : comparison :=
  match q with
  | [] => Eq
  | c :: rest =>
      match compare_by c r1 r2 with
      | Eq => compare_rows rest r1 r2
      | o => o
      end
  end.

Fixpoint insert_row (q : list Clause) (r : Row) (sorted : list Row) : list Row :=
  match sorted with
  | [] => [r]
  | r' :: rest =>
      match compare_rows q r r' with
      | Gt => r' :: insert_row q r rest
      | _ => r :: r' :: rest
      end
  end.

Definition order_rows (q : list Clause) (rows : list Row) : list Row :=
  fold_right (insert_row q) [] rows.

Definition where_holds (q : list Clause) (row : Row) : bool :=
  forallb (fun c => match c with
                    | Where e => match eval row e with Some true => true | _ => false end
                    | _ => true
                    end) q.

(** OFFSET, then the row limit: SQLite reads a negative offset as zero and a
    negative limit as no limit, and refuses a bound that is not an integer. *)
Fixpoint bound_rows (q : list Clause) (rows : list Row) : Promise (list Row) :=
  match q with
  | [] => Resolved rows
  | OffsetRows n :: rest =>
      match n with
      | Int z => bound_rows rest (drop (Z.to_nat z) rows)
      | _ => Rejected (GenericError "SqliteError" "datatype mismatch")
      end
  | c :: rest =>
      rows' ← bound_rows rest rows;
      match c with
      | Limit n | Top n | Fetch n =>
          match n with
          | Int z => Resolved (if (z <? 0)%Z then rows' else take (Z.to_nat z) rows')
          | _ => Rejected (GenericError "SqliteError" "datatype mismatch")
          end
      | _ => Resolved rows'
      end
  end.

Definition execute_on (table : list Row) (q : SelectQueryBuilder) : Promise (list Row) :=
  bound_rows q (order_rows q (filter (fun row => where_holds q row = true) table)).

(** ** The steps of pagination, as the specification words them *)

(** A direction flipped: an absent direction counts as ascending and becomes
    descending, a descending one becomes ascending. *)
Definition flipped (s : SortItem) : SortItem :=
  {| dir := Some (match dir s with Some desc => asc | _ => desc end);
     ref := ref s |}.

(** [effectiveSorts]: the sort set with every direction flipped if the
    decoded cursor type is [prev], else the sort set unchanged. *)
Definition effectiveSorts (decodedCursor : option DecodedCursor)
    (sortSet : list SortItem) : list SortItem :=
  match type_of decodedCursor with
  | Some TPrev => map flipped sortSet
  | _ => sortSet
  end.

(** The decoded cursor of a request: none for a first page. *)
Definition incoming (cursor : option CursorIncoming.t) (codec : CursorCodec)
  : Promise (option DecodedCursor) :=
  match cursor with
  | None => Resolved None
  | Some c => d ← decodeCursor c codec; Resolved (Some d)
  end.

(** The query handed to the executor: the effective sorts as ORDER BY, a row
    limit of [limit + 1] (as JavaScript adds), then the offset of an offset
    cursor or the keyset predicate of a [next]/[prev] cursor against the
    effective sorts. *)
Definition constrained {Q : Type} (dialect : PaginationDialect Q) (query : Q)
    (sortSet : list SortItem) (limit : Z)
    (decodedCursor : option DecodedCursor) : Promise Q :=
  let sorts := effectiveSorts decodedCursor sortSet in
  let q := applyLimit dialect (applySort dialect query sorts)
                      (num_succ (Int limit)) (type_of decodedCursor) in
  match decodedCursor with
  | None => Resolved q
  | Some (Offset n) => Resolved (applyOffset dialect q n)
  | Some (Keyset c) => applyCursor dialect q sorts c
  end.

(** The page: the first [limit] rows, reversed when paging backward. *)
Definition page (decodedCursor : option DecodedCursor) (limit : nat)
    (rows : list Row) : list Row :=
  match type_of decodedCursor with
  | Some TPrev => rev (take limit rows)
  | _ => take limit rows
  end.

(** [isFirst = (no cursor given) OR (cursor type is offset AND offset == 0)] *)
Definition isFirst (decodedCursor : option DecodedCursor) : bool :=
  match decodedCursor with
  | None => true
  | Some (Offset n) => num_is0 n
  | Some (Keyset _) => false
  end.

(** The token of an item: the encoding of
    [{ sig: signature(sortSet), k: { outputKey: item[outputKey] } }]. *)
Definition token_of (codec : CursorCodec) (sortSet : list SortItem) (item : Row)
  : Promise string :=
  encode codec (payload_value (resolveCursor item sortSet)).

(** How a failure leaves [paginate]: unchanged if it is a [PaginationError],
    else as the cause of an [UNEXPECTED_ERROR]. *)
Definition surfaced (message : string) (e : Error) : Error :=
  match e with
  | PaginationError _ _ _ => e
  | GenericError _ _ => PaginationError message UNEXPECTED_ERROR (Some e)
  end.

Definition no_cursor_key : CursorIncoming.t :=
  {| CursorIncoming.nextPage := None;
     CursorIncoming.prevPage := None;
     CursorIncoming.offset := None |}.

Definition next_page (token : string) : CursorIncoming.t :=
  {| CursorIncoming.nextPage := Some token;
     CursorIncoming.prevPage := None;
     CursorIncoming.offset := None |}.

Definition prev_page (token : string) : CursorIncoming.t :=
  {| CursorIncoming.nextPage := None;
     CursorIncoming.prevPage := Some token;
     CursorIncoming.offset := None |}.

Definition at_offset (n : number) : CursorIncoming.t :=
  {| CursorIncoming.nextPage := None;
     CursorIncoming.prevPage := None;
     CursorIncoming.offset := Some n |}.

(** ** A table and a cursor codec for the examples *)

(** Rows with a string id. *)
Definition users (ids : list string) : list Row :=
  map (fun id => {[ "id" := VStr id ]}) ids.

(** A codec for cursors over [byId] on string ids: the token is the id. *)
Definition idTokenCodec : CursorCodec := {|
  encode := fun v =>
    match v with
    | VObj o =>
        match o !! "k" with
        | Some (VObj r) =>
            match r !! "id" with
            | Some (VStr id) => Resolved id
            | _ => Rejected (GenericError "TypeError" "id is not a string")
            end
        | _ => Rejected (GenericError "TypeError" "not a cursor payload")
        end
    | _ => Rejected (GenericError "TypeError" "not a cursor payload")
    end;
  decode := fun token =>
    Resolved (VObj (<["sig" := VStr (sortSignature byId)]>
                      (<["k" := VObj {[ "id" := VStr token ]}]> ∅)))
|}.

(** A codec whose tokens are JSON text, when the token is not JSON. *)
Definition rejectingCodec : CursorCodec := {|
  encode := fun _ => Resolved "{}";
  decode := fun _ => Rejected (GenericError "SyntaxError" "Unexpected token")
|}.

(** A codec whose tokens decode to a value that is not a cursor payload. *)
Definition nullCodec : CursorCodec := {|
  encode := fun _ => Resolved "null";
  decode := fun _ => Resolved VNull
|}.

(** ** The failures of pagination *)

(** A page size the paginator accepts: a positive integer. *)
Definition positive_integer (limit : number) : Prop :=
  exists z : Z, limit = Int z /\ (0 < z)%Z.

Definition invalid_limit : Error :=
  PaginationError "Invalid page size limit" INVALID_LIMIT None.
Definition invalid_sort : Error :=
  PaginationError "Cannot paginate without sorting" INVALID_SORT None.
Definition invalid_cursor : Error :=
  PaginationError "Invalid cursor" INVALID_TOKEN None.
Definition token_mismatch : Error :=
  PaginationError "Page token does not match sort order" INVALID_TOKEN None.

(** A failure raised outside the paginator's own checks: by the cursor codec,
    by the shape check of a decoded payload, by the dialect's [applyCursor],
    or by the query executor. *)
Definition external_failure {Q : Type} (execute : Q -> Promise (list Row))
    (dialect : PaginationDialect Q) (codec : CursorCodec) (e : Error) : Prop :=
  (exists token, decode codec token = Rejected e)
  \/ e = ZodError
  \/ (exists q sorts c, applyCursor dialect q sorts c = Rejected e)
  \/ (exists q, execute q = Rejected e)
  \/ (exists v, encode codec v = Rejected e).

(** The token of an incoming cursor that [decodeCursor] decodes: [nextPage]
    if the cursor has that key, else [prevPage]. *)
Definition token_to_decode (cursor : CursorIncoming.t) (token : string) : Prop :=
  CursorIncoming.nextPage cursor = Some token
  \/ (CursorIncoming.nextPage cursor = None
      /\ CursorIncoming.prevPage cursor = Some token).

(** The shape [{ sig: string, k: record }]. *)
Definition payload_shaped (v : JsValue) : Prop :=
  exists o s r, v = VObj o /\ o !! "sig" = Some (VStr s) /\ o !! "k" = Some (VObj r).

(** A table of five users, stored in no particular order. *)
Definition five_users : list Row := users ["c"; "a"; "e"; "b"; "d"].

(** Pages of [five_users] by id, two rows a page. *)
Definition first_page : PaginatedResult.t :=
  {| PaginatedResult.items := users ["a"; "b"];
     PaginatedResult.prevPage := None;
     PaginatedResult.nextPage := Some "b";
     PaginatedResult.startCursor := Some "a";
     PaginatedResult.endCursor := Some "b";
     PaginatedResult.hasPrevPage := false;
     PaginatedResult.hasNextPage := true |}.

Definition second_page : PaginatedResult.t :=
  {| PaginatedResult.items := users ["c"; "d"];
     PaginatedResult.prevPage := Some "c";
     PaginatedResult.nextPage := Some "d";
     PaginatedResult.startCursor := Some "c";
     PaginatedResult.endCursor := Some "d";
     PaginatedResult.hasPrevPage := true;
     PaginatedResult.hasNextPage := true |}.

Definition page_before_d : PaginatedResult.t :=
  {| PaginatedResult.items := users ["b"; "c"];
     PaginatedResult.prevPage := Some "b";
     PaginatedResult.nextPage := Some "c";
     PaginatedResult.startCursor := Some "b";
     PaginatedResult.endCursor := Some "c";
     PaginatedResult.hasPrevPage := true;
     PaginatedResult.hasNextPage := true |}.

(** The decoded cursor of the token ["d"] used as a [prevPage] token. *)
Definition before_d : DecodedCursor :=
  Keyset {| type := KPrev;
            payload := {| CursorPayload.sig := sortSignature byId;
                          CursorPayload.k := {[ "id" := VStr "d" ]} |} |}.

(** ** The order a keyset predicate stands for *)

(** At one position, with [rv] the row's value and [cv] the cursor's: the row
    comes strictly after the cursor.  NULL sorts first in ascending order and
    last in descending order. *)
Definition after_at (s : SortItem) (rv cv : JsValue) : bool :=
  match applyDefaultDirection (dir s), is_null rv, is_null cv with
  | asc, false, true => true
  | asc, false, false =>
      match compare_values rv cv with Some Gt => true | _ => false end
  | asc, true, _ => false
  | desc, true, false => true
  | desc, false, false =>
      match compare_values rv cv with Some Lt => true | _ => false end
  | desc, _, true => false
  end.

(** The row and the cursor tie at a position. *)
Definition tie_at (rv cv : JsValue) : bool :=
  match is_null rv, is_null cv with
  | true, true => true
  | false, false => match compare_values rv cv with Some Eq => true | _ => false end
  | _, _ => false
  end.

(** The row sorts strictly after the cursor position under the sort set:
    after it at some position, and tied with it at every earlier one. *)
Fixpoint sorts_after (row : Row) (k : gmap string JsValue)
    (positions : list SortItem) : bool :=
  match positions with
  | [] => false
  | s :: later =>
      let rv := column_value row (col s) in
      let cv := get k (getSortOutput s) in
      after_at s rv cv || (tie_at rv cv && sorts_after row k later)
  end.

(** What the predicate builder relies on at a position: the cursor has a
    value for it, a defined one; a row value and a cursor value that are both
    not NULL are of one sortable type; and at the final position, the unique
    and non-nullable column, neither is NULL. *)
Definition position_ok (row : Row) (k : gmap string JsValue) (final : bool)
    (s : SortItem) : Prop :=
  exists cv,
    k !! getSortOutput s = Some cv
    /\ cv <> VUndefined
    /\ (is_null (column_value row (col s)) = false -> is_null cv = false ->
        is_Some (compare_values (column_value row (col s)) cv))
    /\ (final = true ->
        is_null (column_value row (col s)) = false /\ is_null cv = false).

(** ** Checking a property of every byte by computation *)

(** [P] holds of [0 .. n-1]. *)
Definition each_below (n : nat) (P : Z -> bool) : bool :=
  forallb P (map Z.of_nat (seq 0 n)).

(** The 6-bit values of a group of three bytes, as [toString_base64url]
    computes them. *)
Definition sextet0 (b0 : Z) : Z := Z.shiftr b0 2.
Definition sextet1 (b0 b1 : Z) : Z :=
  Z.lor (Z.shiftl (Z.land b0 3) 4) (Z.shiftr b1 4).
Definition sextet2 (b1 b2 : Z) : Z :=
  Z.lor (Z.shiftl (Z.land b1 15) 2) (Z.shiftr b2 6).
Definition sextet3 (b2 : Z) : Z := Z.land b2 63.

Definition is_byte (b : Z) : Prop := (0 <= b < 256)%Z.
Definition is_ascii_text (s : string) : Prop :=
  Forall (fun c => nat_of_ascii c < 128) (list_ascii_of_string s).

(** ** The clauses of the four dialects *)

(** [ORDER BY col dir], as the MSSQL, MySQL and SQLite dialects write it. *)
Definition plain_order (s : SortItem) : Clause :=
  OrderBy (col s) (applyDefaultDirection (dir s)) None.

(** [ORDER BY col ASC NULLS FIRST] or [ORDER BY col DESC NULLS LAST], as the
    PostgreSQL dialect writes it. *)
Definition postgres_order (s : SortItem) : Clause :=
  OrderBy (col s) (applyDefaultDirection (dir s))
          (Some (match applyDefaultDirection (dir s) with
                 | asc => NullsFirst
                 | desc => NullsLast
                 end)).

(** The row limit of MSSQL: [FETCH] with an offset cursor, [TOP] otherwise. *)
Definition mssql_limit (n : number) (cursorType : option CursorType) : Clause :=
  match cursorType with Some TOffset => Fetch n | _ => Top n end.

(** A dialect of the package with the clauses it writes. *)
Record Shipped : Type := {
  dialect_of : PaginationDialect SelectQueryBuilder;
  order_of : SortItem -> Clause;
  limit_of : number -> option CursorType -> Clause
}.

Definition shipped_dialects : list Shipped :=
  [ {| dialect_of := MssqlPaginationDialect;
       order_of := plain_order; limit_of := mssql_limit |};
    {| dialect_of := MysqlPaginationDialect;
       order_of := plain_order; limit_of := fun n _ => Limit n |};
    {| dialect_of := PostgresPaginationDialect;
       order_of := postgres_order; limit_of := fun n _ => Limit n |};
    {| dialect_of := SqlitePaginationDialect;
       order_of := plain_order; limit_of := fun n _ => Limit n |} ].

(** A payload as [CursorPayloadSchema.parse] returns it: without the key
    [__proto__] among its values. *)
Definition parsed (p : CursorPayload.t) : CursorPayload.t :=
  {| CursorPayload.sig := CursorPayload.sig p;
     CursorPayload.k := delete "__proto__" (CursorPayload.k p) |}.

(** The incoming cursor [{ nextPage: token }] or [{ prevPage: token }]. *)
Definition keyset_cursor (ty : NextPrev) (token : string) : CursorIncoming.t :=
  match ty with KNext => next_page token | KPrev => prev_page token end.

(** The sort set a keyset cursor is applied with. *)
Definition applied_sorts (ty : NextPrev) (sorts : list SortItem) : list SortItem :=
  match ty with KNext => sorts | KPrev => invertSorts sorts end.

(** Where the rows of a keyset cursor lie in the query order: after the
    cursor's row for [next], before it for [prev]. *)
Definition side (ty : NextPrev) : comparison :=
  match ty with KNext => Lt | KPrev => Gt end.

(** ** Executors and the query order *)

(** An executor that honours WHERE: every row it returns satisfies each
    WHERE clause of the query, under SQL's three-valued logic. *)
Definition honours_where (execute : SelectQueryBuilder -> Promise (list Row)) : Prop :=
  forall q rows row e,
    execute q = Resolved rows -> row ∈ rows -> In (Where e) q ->
    eval row e = Some true.

(** The row's output column of a sort item holds the value of the sorted
    column. *)
Definition output_is_column (row : Row) (s : SortItem) : Prop :=
  column_value row (col s) = get row (getSortOutput s).

(** ** Texts and tokens *)

(** A character of the URL-safe base64 alphabet: a letter, a digit, [-]
    or [_]. *)
Definition is_url_safe (c : ascii) : bool :=
  let n := nat_of_ascii c in
  ((65 <=? n) && (n <=? 90) || (97 <=? n) && (n <=? 122)
   || (48 <=? n) && (n <=? 57) || (n =? 45) || (n =? 95))%nat.

(** Well-formed UTF-8 (the Unicode standard, table 3-7): the bytes of a
    text. *)
Fixpoint well_formed_utf8 (bs : list Z) : bool :=
  match bs with
  | [] => true
  | b0 :: rest =>
      if (0 <=? b0) && (b0 <=? 0x7F) then well_formed_utf8 rest
      else if (0xC2 <=? b0) && (b0 <=? 0xDF) then
        match rest with
        | b1 :: rest => (0x80 <=? b1) && (b1 <=? 0xBF) && well_formed_utf8 rest
        | _ => false
        end
      else if (0xE0 <=? b0) && (b0 <=? 0xEF) then
        match rest with
        | b1 :: b2 :: rest =>
            ((if b0 =? 0xE0 then 0xA0 else 0x80) <=? b1)
            && (b1 <=? (if b0 =? 0xED then 0x9F else 0xBF))
            && (0x80 <=? b2) && (b2 <=? 0xBF) && well_formed_utf8 rest
        | _ => false
        end
      else if (0xF0 <=? b0) && (b0 <=? 0xF4) then
        match rest with
        | b1 :: b2 :: b3 :: rest =>
            ((if b0 =? 0xF0 then 0x90 else 0x80) <=? b1)
            && (b1 <=? (if b0 =? 0xF4 then 0x8F else 0xBF))
            && (0x80 <=? b2) && (b2 <=? 0xBF)
            && (0x80 <=? b3) && (b3 <=? 0xBF) && well_formed_utf8 rest
        | _ => false
        end
      else false
  end%Z.

(** A text: a string whose bytes are well-formed UTF-8, as the bytes of
    every JavaScript string without a lone surrogate are. *)
Definition is_text (s : string) : Prop :=
  well_formed_utf8 (Buffer.from_utf8 s) = true.

(** ** What [createAesCodec] asks of the cryptography *)

(** Random bytes are bytes, as many as asked for; the sealing of a plaintext
    gives bytes and a tag of sixteen of them; and opening what was sealed,
    under the same key, IV and additional data, gives the plaintext back. *)
Record crypto_laws {Entropy : Type}
    (randomBytes : nat -> Entropy -> list Z * Entropy)
    (encrypt : list Z -> list Z -> list Z -> list Z -> Promise (list Z * list Z))
    (decrypt : list Z -> list Z -> list Z -> list Z -> list Z -> Promise (list Z))
  : Prop := {
  random_bytes : forall n world,
    length (randomBytes n world).1 = n /\ Forall is_byte (randomBytes n world).1;
  sealed_bytes : forall key iv aad plain ciphertext tag,
    Forall is_byte plain ->
    encrypt key iv aad plain = Resolved (ciphertext, tag) ->
    length tag = TAG_LEN /\ Forall is_byte tag /\ Forall is_byte ciphertext;
  opened : forall key iv aad plain ciphertext tag,
    encrypt key iv aad plain = Resolved (ciphertext, tag) ->
    decrypt key iv aad tag ciphertext = Resolved plain
}.

(** Stand-ins for the examples: entropy that counts the draws, a key
    derivation that repeats the first salt byte, and a sealing that reverses
    the plaintext under a tag of zeros. *)
Definition counting_randomBytes (n : nat) (drawn : nat) : list Z * nat :=
  (repeat (Z.of_nat (drawn mod 256)) n, S drawn).

Definition repeating_scrypt (password : string) (salt : list Z) (keylen : nat)
    (options : ScryptOptions) : Promise (list Z) :=
  Resolved (repeat (default 0%Z (head salt)) keylen).

Definition reversing_encrypt (key iv aad plain : list Z)
  : Promise (list Z * list Z) :=
  Resolved (rev plain, repeat 0%Z TAG_LEN).

Definition reversing_decrypt (key iv aad tag ciphertext : list Z)
  : Promise (list Z) :=
  if decide (tag = repeat 0%Z TAG_LEN) then Resolved (rev ciphertext)
  else Rejected (GenericError "Error"
                   "Unsupported state or unable to authenticate data").

(** ** Stashes *)

(** A stash that keeps what it is given: [get] changes nothing in the store
    and finds under a key the value last [set] there, and a [set] changes
    nothing under the other keys. *)
Record keeps {S : Type} (stash : Stash.t S) : Prop := {
  get_reads : forall key store, (Stash.get stash key store).2 = store;
  get_set : forall key value store store',
    Stash.set stash key value store = (Resolved tt, store') ->
    (Stash.get stash key store').1 = Resolved value;
  get_other : forall key other value store store',
    other <> key ->
    Stash.set stash key value store = (Resolved tt, store') ->
    (Stash.get stash other store').1 = (Stash.get stash other store).1
}.

(** A stash in memory, for the examples, and a source of keys that counts
    them. *)
Definition memoryStash : Stash.t (gmap string string) := {|
  Stash.get := fun key store =>
    (match store !! key with
     | Some value => Resolved value
     | None => Rejected (GenericError "Error" "No such key")
     end, store);
  Stash.set := fun key value store => (Resolved tt, <[key := value]> store)
|}.

Definition counting_randomUUID (drawn : nat) : string * nat :=
  ("uuid-" +:+ pretty drawn, S drawn).

(** A source of keys that draws the same key every time. *)
Definition stuck_randomUUID (drawn : nat) : string * nat := ("uuid-0", S drawn).

(** ** Stand-ins for superjson in the examples *)

(** A serialisation of cursor payloads over [byId] on string ids, the text
    [id=] and the id; it refuses other values. *)
Definition id_stringify (v : JsValue) : Promise string :=
  match v with
  | VObj o =>
      match o !! "k" with
      | Some (VObj r) =>
          match r !! "id" with
          | Some (VStr id) => Resolved ("id=" +:+ id)
          | _ => Rejected (GenericError "TypeError" "id is not a string")
          end
      | _ => Rejected (GenericError "TypeError" "not a cursor payload")
      end
  | _ => Rejected (GenericError "TypeError" "not a cursor payload")
  end.

Definition id_parse (text : string) : Promise JsValue :=
  match text with
  | String "i" (String "d" (String "=" id)) =>
      Resolved (VObj (<["sig" := VStr (sortSignature byId)]>
                        (<["k" := VObj {[ "id" := VStr id ]}]> ∅)))
  | _ => Rejected (GenericError "SyntaxError" "Unexpected token")
  end.

(** The options of a paginator that leaves the cursor codec to its
    default. *)
Definition with_default_codec {Q : Type} (dialect : PaginationDialect Q)
  : PaginatorOptions.t Q :=
  {| PaginatorOptions.dialect := dialect; PaginatorOptions.cursorCodec := None |}.

(** The cursors a page carries. *)
Definition page_cursors (res : PaginatedResult.t) : list (option string) :=
  [ PaginatedResult.startCursor res; PaginatedResult.endCursor res;
    PaginatedResult.prevPage res; PaginatedResult.nextPage res ].

(** The user [b]. *)
Definition user_b : Row := {[ "id" := VStr "b" ]}.

(** The user [d]. *)
Definition user_d : Row := {[ "id" := VStr "d" ]}.

(** ** The UTF-8 decoder between two bytes *)

(** A sequence of which [pending] was read, with [n] bytes to come, the
    next of them between [lower] and [upper]: once complete it is a
    well-formed sequence. *)
Fixpoint completes (n : nat) (pending : list Z) (lower upper : Z) : Prop :=
  match n with
  | 0 => False
  | 1 => forall b out, (lower <= b <= upper)%Z ->
                       well_formed_utf8 (pending ++ b :: out) = well_formed_utf8 out
  | S m => forall b, (lower <= b <= upper)%Z -> completes m (pending ++ [b]) 0x80%Z 0xBF%Z
  end.

(** The state of the UTF-8 decoder is that of a sequence that can be
    completed. *)
Definition utf8_state_ok (st : option Buffer.utf8_state) : Prop :=
  match st with
  | None => True
  | Some s => completes (Buffer.needed s) (Buffer.pending s)
                        (Buffer.lower s) (Buffer.upper s)
  end.

(** * Properties *)

(** ** Promises *)

Lemma bind_Resolved {A B : Type} (a : A) (f : A -> Promise B) :
  Resolved a ≫= f = f a.
Proof. reflexivity. Qed.

Lemma bind_Rejected {A B : Type} (e : Error) (f : A -> Promise B) :
  Rejected e ≫= f = Rejected e.
Proof. reflexivity. Qed.

Lemma bind_assoc {A B C : Type} (m : Promise A) (f : A -> Promise B)
    (g : B -> Promise C) :
  (m ≫= f) ≫= g = m ≫= (fun a => f a ≫= g).
Proof. destruct m; reflexivity. Qed.

Lemma bind_Resolved_inv {A B : Type} (m : Promise A) (f : A -> Promise B) (b : B) :
  m ≫= f = Resolved b -> exists a, m = Resolved a /\ f a = Resolved b.
Proof. destruct m as [a|e]; [eauto | discriminate]. Qed.

Lemma bind_Rejected_inv {A B : Type} (m : Promise A) (f : A -> Promise B) (e : Error) :
  m ≫= f = Rejected e ->
  m = Rejected e \/ exists a, m = Resolved a /\ f a = Rejected e.
Proof. destruct m as [a|e']; [eauto | intros [= ->]; auto]. Qed.

(** ** Codec composition *)

Section CodecPipe.

Context {V : Type}.
Implicit Types (c : Codec V V) (codecs : list (Codec V V)).

(** [reduce] from a promise already in flight. *)
Lemma reduce_encode codecs (acc : Promise V) :
  foldl (fun acc c => acc ≫= (fun v => encode c v)) acc codecs
  = acc ≫= encode_in_order codecs.
Proof.
  revert acc; induction codecs as [|c rest IH]; intros acc; simpl.
  - destruct acc; reflexivity.
  - rewrite IH, bind_assoc. reflexivity.
Qed.

Lemma codecPipe_encode codecs (v : V) :
  encode (codecPipe codecs) v = encode_in_order codecs v.
Proof. unfold codecPipe; simpl. apply reduce_encode. Qed.

Lemma codecPipe_decode codecs (w : V) :
  decode (codecPipe codecs) w = decode_in_reverse codecs w.
Proof.
  unfold codecPipe; simpl.
  induction codecs as [|c rest IH]; simpl; [reflexivity | now rewrite IH].
Qed.

Lemma chain_round_trip codecs :
  Forall round_trip codecs ->
  forall x y, encode_in_order codecs x = Resolved y ->
              decode_in_reverse codecs y = Resolved x.
Proof.
  induction 1 as [|c rest Hc _ IH]; intros x y; simpl.
  - congruence.
  - intros Henc. apply bind_Resolved_inv in Henc as (z & Hz & Hrest).
    rewrite (IH _ _ Hrest). simpl. apply Hc, Hz.
Qed.

(** C8.  For a non-empty list of codecs [c1 .. cn], the encoder of
    [codecPipe] applies the encoders from the first codec to the last, each
    on the output of the one before, and its decoder applies the decoders in
    the inverse order; so when every codec of the list satisfies the
    round-trip law, the composed codec satisfies it too. *)
Theorem codecPipe_order_and_round_trip c1 codecs :
  (forall v, encode (codecPipe (c1 :: codecs)) v = encode_in_order (c1 :: codecs) v)
  /\ (forall w, decode (codecPipe (c1 :: codecs)) w = decode_in_reverse (c1 :: codecs) w)
  /\ (Forall round_trip (c1 :: codecs) -> round_trip (codecPipe (c1 :: codecs))).
Proof.
  split; [|split].
  - intros v. apply codecPipe_encode.
  - intros w. apply codecPipe_decode.
  - intros Hall x y. rewrite codecPipe_encode, codecPipe_decode.
    apply chain_round_trip, Hall.
Qed.

End CodecPipe.

Lemma labelCodec_round_trip label : round_trip (labelCodec label).
Proof.
  intros x y; simpl. intros [= <-]. now rewrite String.eqb_refl.
Qed.

(** The pipe of two labelling codecs: the first label ends up innermost, and
    decoding gives the value back. *)
Lemma codecPipe_order_and_round_trip_witness :
  encode (codecPipe [labelCodec "a"; labelCodec "b"]) (VNum (Int 7))
  = Resolved (VArr [VStr "b"; VArr [VStr "a"; VNum (Int 7)]])
  /\ decode (codecPipe [labelCodec "a"; labelCodec "b"])
            (VArr [VStr "b"; VArr [VStr "a"; VNum (Int 7)]])
     = Resolved (VNum (Int 7))
  /\ round_trip (codecPipe [labelCodec "a"; labelCodec "b"]).
Proof.
  destruct (codecPipe_order_and_round_trip (labelCodec "a") [labelCodec "b"])
    as (Henc & Hdec & Hrt).
  split; [|split].
  - rewrite Henc. reflexivity.
  - rewrite Hdec. reflexivity.
  - apply Hrt. repeat constructor; apply labelCodec_round_trip.
Defined.

(** ** The base64url codec *)

Lemma toString_base64url_length (bs : list Z) :
  bs <> [] -> 2 <= length (Buffer.toString_base64url bs).
Proof.
  destruct bs as [|b0 [|b1 [|b2 rest]]]; simpl; intros H; [congruence | lia..].
Qed.

Lemma from_utf8_nil (s : string) : Buffer.from_utf8 s = [] -> s = EmptyString.
Proof. destruct s; [reflexivity | discriminate]. Qed.

(** No text encodes to a single character. *)
Lemma base64Url_encode_not_single (x : string) (c : ascii) :
  encode base64UrlCodec x <> Resolved (String c EmptyString).
Proof.
  simpl. intros [= H].
  destruct (decide (Buffer.from_utf8 x = [])) as [Hnil|Hne].
  - rewrite Hnil in H. discriminate.
  - apply toString_base64url_length in Hne.
    apply (f_equal list_ascii_of_string) in H.
    rewrite list_ascii_of_string_of_list_ascii in H.
    rewrite H in Hne. simpl in Hne. lia.
Qed.

(** *** Node's decoder on ASCII text *)

Lemma list_by_three {A : Type} (P : list A -> Prop) :
  P [] -> (forall a, P [a]) -> (forall a b, P [a; b]) ->
  (forall a b c l, P l -> P (a :: b :: c :: l)) ->
  forall l, P l.
Proof.
  intros H0 H1 H2 H3.
  assert (forall l, P l /\ (forall a, P (a :: l)) /\ (forall a b, P (a :: b :: l)))
    as Hall.
  { induction l as [|c l (IH0 & IH1 & IH2)]; [auto|].
    split; [apply IH1 | split; [intros a; apply IH2 | intros a b; now apply H3]]. }
  intros l. apply Hall.
Qed.

Lemma code_units_ascii (bs : list Z) :
  Forall (fun b => (0 <= b < 128)%Z) bs -> Buffer.code_units bs = bs.
Proof.
  induction 1 as [|b rest Hb _ IH]; [reflexivity|].
  cbn [Buffer.code_units].
  destruct (Z.ltb_spec b 128) as [_|]; [|lia]. now rewrite IH.
Qed.

Lemma low_byte_of_ascii (c : ascii) :
  Buffer.low_byte (Buffer.byte_of_ascii c) = c.
Proof.
  unfold Buffer.low_byte, Buffer.ascii_of_byte, Buffer.byte_of_ascii.
  pose proof (nat_ascii_bounded c) as Hc.
  change 255%Z with (Z.ones 8). rewrite Z.land_ones by lia.
  rewrite Z.mod_small by (change (2 ^ 8)%Z with 256%Z; lia).
  rewrite Nat2Z.id. apply ascii_nat_embedding.
Qed.

(** The decoder goes through the characters of an ASCII text as they are. *)
Lemma decoder_input_ascii (cs : list ascii) :
  Forall (fun c => nat_of_ascii c < 128) cs ->
  Buffer.decoder_input (string_of_list_ascii cs) = cs.
Proof.
  intros Hcs. unfold Buffer.decoder_input, Buffer.from_utf8.
  rewrite list_ascii_of_string_of_list_ascii, code_units_ascii.
  - rewrite map_map. rewrite (map_ext _ (fun c => c)), map_id; [reflexivity|].
    apply low_byte_of_ascii.
  - apply Forall_map. eapply Forall_impl; [exact Hcs|].
    intros c Hc. unfold Buffer.byte_of_ascii. cbn beta in Hc. lia.
Qed.

Lemma code_units_length (bs : list Z) :
  length (Buffer.code_units bs) <= length bs.
Proof.
  remember (length bs) as n eqn:Hn. revert bs Hn.
  induction n as [n IH] using lt_wf_ind. intros bs ->.
  assert (forall rest, length rest < length bs ->
                       length (Buffer.code_units rest) <= length rest) as Hrest
    by (intros rest Hlt; now apply (IH (length rest))).
  destruct bs as [|b0 rest]; [reflexivity|].
  cbn [Buffer.code_units].
  repeat match goal with
         | |- context [if ?c then _ else _] => destruct c
         | |- context [match ?l with [] => _ | _ :: _ => _ end] =>
             is_var l; destruct l
         end;
    cbn [length] in *;
    repeat match goal with
           | |- context [length (Buffer.code_units ?l)] =>
               lazymatch goal with
               | _ : length (Buffer.code_units l) <= length l |- _ => fail
               | _ => pose proof (Hrest l ltac:(cbn [length]; lia))
               end
           end; cbn [length] in *; lia.
Qed.

Lemma decoder_input_length (s : string) :
  length (Buffer.decoder_input s) <= String.length s.
Proof.
  unfold Buffer.decoder_input, Buffer.from_utf8. rewrite length_map.
  etransitivity; [apply code_units_length|]. rewrite length_map.
  clear. induction s; simpl; lia.
Qed.

Lemma base64_chars_ascii (v : Z) :
  nat_of_ascii (Buffer.base64url_char v) < 128
  /\ nat_of_ascii (Buffer.base64_char v) < 128.
Proof.
  unfold Buffer.base64url_char, Buffer.base64_char, Buffer.ascii_of_byte.
  split;
    repeat match goal with
           | |- context [if ?c then _ else _] => destruct c eqn:?
           end;
    rewrite nat_ascii_embedding; lia.
Qed.

Lemma toString_base64url_ascii (bs : list Z) :
  Forall (fun c => nat_of_ascii c < 128) (Buffer.toString_base64url bs).
Proof.
  induction bs as [|b0|b0 b1|b0 b1 b2 rest IH] using list_by_three;
    cbn [Buffer.toString_base64url];
    repeat (apply Forall_cons; split; [apply base64_chars_ascii|]);
    (exact IH || constructor).
Qed.

Lemma toString_base64_ascii (bs : list Z) :
  Forall (fun c => nat_of_ascii c < 128) (Buffer.toString_base64 bs).
Proof.
  induction bs as [|b0|b0 b1|b0 b1 b2 rest IH] using list_by_three;
    cbn [Buffer.toString_base64];
    repeat (apply Forall_cons; split;
            [first [apply base64_chars_ascii | now apply Nat.ltb_lt]|]);
    (exact IH || constructor).
Qed.

Example code_units_of_text :
  Buffer.code_units [0x61; 0xC5; 0x81; 0xE2; 0x82; 0xAC; 0xF0; 0x9F; 0x98; 0x80]%Z
  = [0x61; 0x141; 0x20AC; 0xD83D; 0xDE00]%Z.
Proof. reflexivity. Qed.

(** C9, as the specification states it, fails: the string ["!"] is not the
    encoding of any text, and decoding it returns the empty text instead of
    raising a failure. *)
Lemma base64Url_decode_malformed_counterexample :
  ~ (forall s : string,
       (forall x, encode base64UrlCodec x <> Resolved s) ->
       exists e, decode base64UrlCodec s = Rejected e).
Proof.
  intros claim.
  destruct (claim "!") as [e He].
  - intros x. apply base64Url_encode_not_single.
  - discriminate He.
Qed.

(** The byte [0xFF], which no text contains, decodes to the replacement
    character; a character beyond U+00FF is read by its low eight bits, so
    that U+0141 stands for [A]. *)
Example base64Url_decode_replaces :
  decode base64UrlCodec "_w"
  = Resolved (Buffer.string_of_bytes [0xEF; 0xBF; 0xBD]%Z)
  /\ Buffer.from_base64url (Buffer.string_of_bytes [0x59; 0x57; 0xC5; 0x81; 0x4A; 0x6A]%Z)
     = [0x61; 0x60; 0x09]%Z.
Proof. split; reflexivity. Qed.

(** ** The keyset predicate *)

Lemma has_own (o : gmap string JsValue) (key : string) (value : JsValue) :
  o !! key = Some value -> has o key = true /\ get o key = value.
Proof. unfold has, get. now intros ->. Qed.

Lemma has_false (o : gmap string JsValue) (key : string) :
  has o key = false <-> o !! key = None /\ key ∉ Object_prototype.
Proof.
  unfold has. destruct (o !! key) as [value|].
  - split; [discriminate | now intros [[=] _]].
  - rewrite bool_decide_eq_false. tauto.
Qed.

Lemma has_inherited (o : gmap string JsValue) (key : string) :
  key ∈ Object_prototype -> has o key = true.
Proof.
  intros Hkey. unfold has. destruct (o !! key); [reflexivity|].
  now apply bool_decide_eq_true.
Qed.

Lemma get_inherited (o : gmap string JsValue) (key : string) :
  o !! key = None -> key ∈ Object_prototype -> get o key = VInherited key.
Proof. intros Hnone Hkey. unfold get. rewrite Hnone. now rewrite bool_decide_eq_true_2. Qed.

(** The body of [buildCursorPredicateRecursive], with the recursive call on
    [idx + 1]. *)
Lemma buildCursorPredicateRecursive_body sorts decoded idx :
  buildCursorPredicateRecursive sorts decoded idx =
  match sorts !! idx with
  | None => Rejected (PaginationError "Sort index out of bounds" UNEXPECTED_ERROR None)
  | Some sort =>
      let dir := applyDefaultDirection (dir sort) in
      let col := col sort in
      let key := getSortOutput sort in
      if negb (has (CursorPayload.k decoded) key) then
        Rejected (PaginationError
                    ("Missing pagination cursor value for " +:+ dquote +:+ key +:+ dquote)
                    INVALID_TOKEN None)
      else
        let value := get (CursorPayload.k decoded) key in
        let cmp := match dir with desc => OpLt | asc => OpGt end in
        if (idx =? length sorts - 1)%nat then Resolved (Eb col cmp value)
        else
          next ← buildCursorPredicateRecursive sorts decoded (idx + 1);
          match value with
          | VNull =>
              match dir with
              | asc => Resolved (EbOr [ExprAnd (Eb col OpIs VNull) next;
                                       Eb col OpIsNot VNull])
              | desc => Resolved (EbAnd [Eb col OpIs VNull; next])
              end
          | _ =>
              Resolved (EbOr ([Eb col cmp value;
                               EbAnd [Eb col OpEq value; next]]
                              ++ match dir with
                                 | desc => [Eb col OpIs VNull]
                                 | asc => []
                                 end))
          end
  end.
Proof.
  funelim (buildCursorPredicateRecursive sorts decoded idx).
  - rewrite Hsort. reflexivity.
  - rewrite e. reflexivity.
Qed.

Section KeysetPredicate.

Variable sorts : list SortItem.
Variable decoded : CursorPayload.t.

Let build := buildCursorPredicateRecursive sorts decoded.
Let values := CursorPayload.k decoded.

(** A position from [idx] on whose output key is not [in] the cursor's
    values makes the builder fail with [INVALID_TOKEN]. *)
Lemma buildCursorPredicateRecursive_missing (j : nat) :
  forall idx s,
    idx <= j -> sorts !! j = Some s -> has values (getSortOutput s) = false ->
    exists msg, build idx = Rejected (PaginationError msg INVALID_TOKEN None).
Proof.
  intros idx. remember (j - idx) as d eqn:Hd.
  revert idx Hd. induction d as [|d IH]; intros idx Hd s Hle Hj Hmiss;
    unfold build; rewrite buildCursorPredicateRecursive_body.
  - assert (idx = j) as -> by lia. rewrite Hj; cbn zeta.
    fold values. rewrite Hmiss. cbn [negb]. eauto.
  - pose proof (lookup_lt_Some _ _ _ Hj) as Hlt.
    destruct (sorts !! idx) as [sort|] eqn:Hidx;
      [|apply lookup_ge_None in Hidx; lia].
    cbn zeta. fold values.
    destruct (has values (getSortOutput sort)); cbn [negb]; [|eauto].
    destruct (Nat.eqb_spec idx (length sorts - 1)) as [Heq|_]; [lia|].
    destruct (IH (idx + 1) ltac:(lia) s ltac:(lia) Hj Hmiss) as [msg Hmsg].
    unfold build in Hmsg. rewrite Hmsg. simpl. eauto.
Qed.

(** When the output key of every position from [idx] on is [in] the
    cursor's values, the builder returns a predicate. *)
Lemma buildCursorPredicateRecursive_total (idx : nat) :
  idx < length sorts ->
  (forall j s, idx <= j -> sorts !! j = Some s ->
               has values (getSortOutput s) = true) ->
  exists e, build idx = Resolved e.
Proof.
  remember (length sorts - idx) as d eqn:Hd.
  revert idx Hd. induction d as [|d IH]; intros idx Hd Hlt Hall; [lia|].
  unfold build; rewrite buildCursorPredicateRecursive_body.
  destruct (lookup_lt_is_Some_2 sorts idx Hlt) as [sort Hidx].
  rewrite Hidx; cbn zeta. fold values.
  rewrite (Hall idx sort (le_n _) Hidx). cbn [negb].
  destruct (Nat.eqb_spec idx (length sorts - 1)) as [Heq|Hne]; [eauto|].
  destruct (IH (idx + 1)) as [next Hnext]; [lia | lia | |].
  { intros j s Hj. apply Hall. lia. }
  unfold build in Hnext. rewrite Hnext. cbn [mbind Promise_bind].
  destruct (get values (getSortOutput sort)), (applyDefaultDirection (dir sort)); eauto.
Qed.

(** X23.  The predicate [buildCursorPredicateRecursive] builds.  At a
    position [idx] of the sort set, with [cmp] being [>] for an ascending
    (or absent) direction and [<] for a descending one, and [value] what the
    cursor holds under the output key of the position:
    the builder fails with [INVALID_TOKEN] when the output key of this or of
    a later position is neither an entry of the cursor's values nor a name
    every object inherits; at the final position it returns
    [column cmp value]; at an earlier position, with [next] the predicate
    built for [idx + 1], it returns
    [(column IS NULL AND next) OR column IS NOT NULL] for a null value in
    ascending order, [column IS NULL AND next] for a null value in
    descending order, and [(column cmp value) OR (column = value AND next)]
    for a non-null value, with the further disjunct [column IS NULL] exactly
    in descending order; and it does return a predicate when every position
    from [idx] on has an entry. *)
Theorem buildCursorPredicateRecursive_spec (idx : nat) (sort : SortItem) :
  sorts !! idx = Some sort ->
  let column := col sort in
  let direction := applyDefaultDirection (dir sort) in
  let cmp := match direction with asc => OpGt | desc => OpLt end in
  (dir sort = None -> direction = asc)
  /\ (forall j s, idx <= j -> sorts !! j = Some s ->
                  values !! getSortOutput s = None ->
                  getSortOutput s ∉ Object_prototype ->
        exists msg, build idx = Rejected (PaginationError msg INVALID_TOKEN None))
  /\ (forall value,
        values !! getSortOutput sort = Some value ->
        idx = length sorts - 1 ->
        build idx = Resolved (Eb column cmp value))
  /\ (forall value next,
        values !! getSortOutput sort = Some value ->
        idx < length sorts - 1 ->
        build (idx + 1) = Resolved next ->
        (value = VNull -> direction = asc ->
           build idx = Resolved (EbOr [ExprAnd (Eb column OpIs VNull) next;
                                       Eb column OpIsNot VNull]))
        /\ (value = VNull -> direction = desc ->
              build idx = Resolved (EbAnd [Eb column OpIs VNull; next]))
        /\ (value <> VNull -> direction = asc ->
              build idx = Resolved (EbOr [Eb column OpGt value;
                                          EbAnd [Eb column OpEq value; next]]))
        /\ (value <> VNull -> direction = desc ->
              build idx = Resolved (EbOr [Eb column OpLt value;
                                          EbAnd [Eb column OpEq value; next];
                                          Eb column OpIs VNull])))
  /\ ((forall j s, idx <= j -> sorts !! j = Some s ->
                   is_Some (values !! getSortOutput s)) ->
      exists e, build idx = Resolved e).
Proof.
  intros Hidx column direction cmp.
  pose proof (lookup_lt_Some _ _ _ Hidx) as Hlt.
  split; [|split; [|split; [|split]]].
  - intros Hnone. unfold direction. now rewrite Hnone.
  - intros j s Hle Hj Hnone Hname.
    apply (buildCursorPredicateRecursive_missing j idx s Hle Hj).
    now apply has_false.
  - intros value Hvalue Hlast. apply has_own in Hvalue as [Hhas Hget].
    unfold build; rewrite buildCursorPredicateRecursive_body, Hidx; cbn zeta.
    fold values. rewrite Hhas, Hget. cbn [negb].
    now destruct (Nat.eqb_spec idx (length sorts - 1)).
  - intros value next Hvalue Hearlier Hnext.
    apply has_own in Hvalue as [Hhas Hget].
    assert (build idx =
            match value with
            | VNull =>
                match direction with
                | asc => Resolved (EbOr [ExprAnd (Eb column OpIs VNull) next;
                                         Eb column OpIsNot VNull])
                | desc => Resolved (EbAnd [Eb column OpIs VNull; next])
                end
            | _ =>
                Resolved (EbOr ([Eb column cmp value;
                                 EbAnd [Eb column OpEq value; next]]
                                ++ match direction with
                                   | desc => [Eb column OpIs VNull]
                                   | asc => []
                                   end))
            end) as Hbody.
    { unfold build; rewrite buildCursorPredicateRecursive_body, Hidx; cbn zeta.
      fold values. rewrite Hhas, Hget. cbn [negb].
      destruct (Nat.eqb_spec idx (length sorts - 1)) as [Heq|_]; [lia|].
      unfold build in Hnext. rewrite Hnext. reflexivity. }
    rewrite Hbody. unfold cmp.
    repeat split; intros Hv Hd; try rewrite Hd; try rewrite Hv;
      try reflexivity; destruct value; try congruence; reflexivity.
  - intros Hall. apply buildCursorPredicateRecursive_total; [exact Hlt|].
    intros j s Hle Hj. destruct (Hall j s Hle Hj) as [value Hvalue].
    now apply has_own in Hvalue.
Qed.

End KeysetPredicate.

(** The predicate of the cursor [{ age: 30, id: 5 }] under
    [age desc, id asc]: [age < 30 OR (age = 30 AND id > 5) OR age IS NULL]. *)
Lemma buildCursorPredicateRecursive_spec_witness :
  buildCursorPredicateRecursive byAgeThenId cursor_30_5 0
  = Resolved (EbOr [Eb (RefString "age") OpLt (VNum (Int 30));
                    EbAnd [Eb (RefString "age") OpEq (VNum (Int 30));
                           Eb (RefString "id") OpGt (VNum (Int 5))];
                    Eb (RefString "age") OpIs VNull]).
Proof.
  destruct (buildCursorPredicateRecursive_spec byAgeThenId cursor_30_5 0
              {| dir := Some desc; ref := Column "age" |} eq_refl)
    as (_ & _ & _ & Hearlier & _).
  apply (Hearlier (VNum (Int 30)) (Eb (RefString "id") OpGt (VNum (Int 5))));
    [reflexivity | simpl; lia | reflexivity | discriminate | reflexivity].
Defined.

Example buildCursorPredicateRecursive_null_asc :
  buildCursorPredicateRecursive
    [ {| dir := None; ref := Column "age" |}; {| dir := None; ref := Column "id" |} ]
    {| CursorPayload.sig := ""; CursorPayload.k := person 5 VNull |} 0
  = Resolved (EbOr [ExprAnd (Eb (RefString "age") OpIs VNull)
                            (Eb (RefString "id") OpGt (VNum (Int 5)));
                    Eb (RefString "age") OpIsNot VNull]).
Proof. reflexivity. Qed.

Example buildCursorPredicateRecursive_null_desc :
  buildCursorPredicateRecursive byAgeThenId
    {| CursorPayload.sig := ""; CursorPayload.k := person 5 VNull |} 0
  = Resolved (EbAnd [Eb (RefString "age") OpIs VNull;
                     Eb (RefString "id") OpGt (VNum (Int 5))]).
Proof. reflexivity. Qed.

Example buildCursorPredicateRecursive_missing_key :
  buildCursorPredicateRecursive byAgeThenId
    {| CursorPayload.sig := ""; CursorPayload.k := {[ "age" := VNum (Int 30) ]} |} 0
  = Rejected (PaginationError
                ("Missing pagination cursor value for " +:+ dquote +:+ "id" +:+ dquote)
                INVALID_TOKEN None).
Proof. reflexivity. Qed.

(** C1, where the code departs from it.  Under the sort set
    [[{ col: "constructor" }]] and a cursor whose values have no entry, the
    builder does not fail with [INVALID_TOKEN]: [key in decoded.k] finds the
    [constructor] every object inherits, and the predicate compares the
    column with that function.  With [[{ col: "id" }]] the same cursor is
    refused. *)
Lemma buildCursorPredicateRecursive_inherited_key :
  let byConstructor := [ {| dir := None; ref := Column "constructor" |} ] in
  let no_values := {| CursorPayload.sig := sortSignature byConstructor;
                      CursorPayload.k := ∅ |} in
  CursorPayload.k no_values !! "constructor" = None
  /\ buildCursorPredicateRecursive byConstructor no_values 0
     = Resolved (Eb (RefString "constructor") OpGt (VInherited "constructor"))
  /\ buildCursorPredicateRecursive byId no_values 0
     = Rejected (PaginationError
                   ("Missing pagination cursor value for " +:+ dquote +:+ "id" +:+ dquote)
                   INVALID_TOKEN None).
Proof. repeat split. Qed.

(** ** The sort signature *)

Lemma hex_digit_is_hex (d : Z) :
  (0 <= d < 16)%Z -> is_hex_digit (Sha256.hex_digit d) = true.
Proof.
  intros Hd.
  assert (d = 0 \/ d = 1 \/ d = 2 \/ d = 3 \/ d = 4 \/ d = 5 \/ d = 6 \/ d = 7 \/
          d = 8 \/ d = 9 \/ d = 10 \/ d = 11 \/ d = 12 \/ d = 13 \/ d = 14 \/
          d = 15)%Z as Hcases by lia.
  repeat (destruct Hcases as [->|Hcases]; [reflexivity|]).
  now subst.
Qed.

Lemma hex_word_length (w : Z) : length (Sha256.hex_word w) = 8.
Proof. reflexivity. Qed.

Lemma hex_word_is_hex (w : Z) :
  forallb is_hex_digit (Sha256.hex_word w) = true.
Proof.
  unfold Sha256.hex_word. apply forallb_forall. intros c Hc.
  apply in_map_iff in Hc as (i & <- & _).
  apply hex_digit_is_hex.
  change 15%Z with (Z.ones 4). rewrite Z.land_ones by lia.
  apply Z.mod_pos_bound. reflexivity.
Qed.

Lemma take_digest_hex (text : string) :
  take 8 (Sha256.digest_hex text)
  = Sha256.hex_word (Sha256.sa (Sha256.hash (Sha256.bytes_of_string text))).
Proof.
  unfold Sha256.digest_hex.
  apply take_app_length'. reflexivity.
Qed.

Lemma signature_text_entries (sorts : list SortItem) :
  signature_text sorts
  = String.concat "|"
      (map (fun e : string * OrderByDirection => e.1 +:+ ":" +:+ direction_text e.2)
           (map signature_entry sorts)).
Proof. now rewrite map_map. Qed.

Lemma split_without_separator (sep : ascii) (s : string) :
  ~ In sep (list_ascii_of_string s) -> split sep s = [s].
Proof.
  induction s as [|c rest IH]; simpl; [reflexivity|]. intros Hnot.
  destruct (Ascii.eqb_spec c sep) as [->|_]; [exfalso; auto|].
  rewrite IH; [reflexivity | auto].
Qed.

Lemma signature_label_unqualified (s : SortItem) :
  unqualified s -> signature_label s = getSortOutput s.
Proof.
  unfold unqualified, signature_label, getSortOutput.
  destruct (ref s) as [c output|c]; [reflexivity|]. intros Hc.
  now rewrite split_without_separator.
Qed.

Lemma signature_entry_unqualified (sorts : list SortItem) :
  Forall unqualified sorts -> map signature_entry sorts = map output_entry sorts.
Proof.
  induction 1 as [|s rest Hs _ IH]; simpl; [reflexivity|].
  rewrite IH. unfold signature_entry, output_entry.
  now rewrite signature_label_unqualified.
Qed.

Lemma add32_range (x y : Z) : (0 <= Sha256.add32 x y < 2 ^ 32)%Z.
Proof.
  unfold Sha256.add32, Sha256.w32. change 0xFFFFFFFF%Z with (Z.ones 32).
  rewrite Z.land_ones by lia. apply Z.mod_pos_bound. lia.
Qed.

Lemma hash_range (msg : list Z) : (0 <= Sha256.sa (Sha256.hash msg) < 2 ^ 32)%Z.
Proof.
  unfold Sha256.hash.
  generalize (Sha256.blocks (length (Sha256.words (Sha256.pad msg)))
                (Sha256.words (Sha256.pad msg))).
  intros blocks.
  assert (0 <= Sha256.sa Sha256.H0 < 2 ^ 32)%Z as Hstart by (cbn; lia).
  revert Hstart. generalize Sha256.H0.
  induction blocks as [|block rest IH]; intros h Hh; [exact Hh|].
  cbn [fold_left]. apply IH. cbn [Sha256.compress Sha256.sa]. apply add32_range.
Qed.

Lemma hex_digit_inj (d1 d2 : Z) :
  (0 <= d1 < 16)%Z -> (0 <= d2 < 16)%Z ->
  Sha256.hex_digit d1 = Sha256.hex_digit d2 -> d1 = d2.
Proof.
  intros H1 H2 Heq. unfold Sha256.hex_digit in Heq.
  apply (f_equal nat_of_ascii) in Heq.
  destruct (Z.ltb_spec d1 10), (Z.ltb_spec d2 10);
    rewrite !nat_ascii_embedding in Heq by lia; lia.
Qed.

Lemma nibble_testbit (w i j : Z) :
  (0 <= i)%Z -> (0 <= j < 4)%Z ->
  Z.testbit (Z.land (Z.shiftr w (4 * i)) 0xF) j = Z.testbit w (4 * i + j).
Proof.
  intros Hi Hj. rewrite Z.land_spec, Z.shiftr_spec by lia.
  assert (j = 0 \/ j = 1 \/ j = 2 \/ j = 3)%Z as [->|[->|[->| ->]]] by lia;
    cbn [Z.testbit]; rewrite andb_true_r; f_equal; lia.
Qed.

(** Two words of 32 bits with the same hexadecimal digits are equal. *)
Lemma hex_word_inj (w1 w2 : Z) :
  (0 <= w1 < 2 ^ 32)%Z -> (0 <= w2 < 2 ^ 32)%Z ->
  Sha256.hex_word w1 = Sha256.hex_word w2 -> w1 = w2.
Proof.
  intros H1 H2 Heq.
  assert (forall i, (0 <= i < 8)%Z ->
            Z.land (Z.shiftr w1 (4 * i)) 0xF = Z.land (Z.shiftr w2 (4 * i)) 0xF)
    as Hnibble.
  { assert (forall w i, 0 <= Z.land (Z.shiftr w (4 * i)) 0xF < 16)%Z as Hrange.
    { intros w i. change 0xF%Z with (Z.ones 4). rewrite Z.land_ones by lia.
      apply Z.mod_pos_bound. lia. }
    unfold Sha256.hex_word in Heq. cbn [seq rev app map] in Heq.
    injection Heq as E7 E6 E5 E4 E3 E2 E1 E0.
    intros i Hi.
    assert (i = 0 \/ i = 1 \/ i = 2 \/ i = 3 \/ i = 4 \/ i = 5 \/ i = 6 \/ i = 7)%Z
      as [->|[->|[->|[->|[->|[->|[->| ->]]]]]]] by lia;
      apply hex_digit_inj; try apply Hrange; assumption. }
  apply Z.bits_inj'. intros n Hn.
  destruct (Z.lt_ge_cases n 32%Z) as [Hlow|Hhigh].
  - replace n with (4 * (n / 4) + n mod 4)%Z by (symmetry; apply Z.div_mod; lia).
    assert (0 <= n / 4 < 8)%Z as Hi
      by (split; [apply Z.div_pos; lia | apply Z.div_lt_upper_bound; lia]).
    assert (0 <= n mod 4 < 4)%Z as Hj by (apply Z.mod_pos_bound; lia).
    rewrite <- !nibble_testbit by lia. now rewrite Hnibble.
  - assert (forall w, (0 <= w < 2 ^ 32)%Z -> Z.testbit w n = false) as Hzero.
    { intros w Hw. destruct (Z.eq_dec w 0%Z) as [->|Hne]; [apply Z.bits_0|].
      apply Z.bits_above_log2; [lia|].
      assert (Z.log2 w < 32)%Z by (apply Z.log2_lt_pow2; lia). lia. }
    now rewrite !Hzero.
Qed.

(** Two sort sets with one signature: the signature keeps 32 bits of the
    hash. *)
Example sortSignature_collision :
  sortSignature [ {| dir := None; ref := Column "c1139" |} ] = "cbe7ddca"
  /\ sortSignature [ {| dir := None; ref := Column "c190925" |} ] = "cbe7ddca".
Proof. split; vm_compute; reflexivity. Qed.

(** C4, as the code has it.  [sortSignature] returns eight hexadecimal
    digits, and these are a function of the sequence of (name, direction)
    pairs of the sort set, where the name of an item is its [output] or, for a
    string-only item, its [col] as written (an absent direction counts as
    ascending): two sort sets with the same sequence have the same
    signature.  For sort sets whose string-only items are not qualified by a
    table the name is the output key, and the sequence is that of the
    (outputKey, direction) pairs.  The digits are those of the first 32 bits
    of the SHA-256 hash of the pairs written [name:direction] and joined by
    [|], so that two sort sets have the same signature exactly when these 32
    bits are the same: sort sets with different sequences can have different
    signatures, and can have the same. *)
Theorem sortSignature_deterministic (sorts1 sorts2 : list SortItem) :
  (map signature_entry sorts1 = map signature_entry sorts2 ->
   sortSignature sorts1 = sortSignature sorts2)
  /\ (Forall unqualified sorts1 -> Forall unqualified sorts2 ->
      map output_entry sorts1 = map output_entry sorts2 ->
      sortSignature sorts1 = sortSignature sorts2)
  /\ length (list_ascii_of_string (sortSignature sorts1)) = 8
  /\ forallb is_hex_digit (list_ascii_of_string (sortSignature sorts1)) = true
  /\ signature_text sorts1
     = String.concat "|"
         (map (fun e : string * OrderByDirection =>
                 e.1 +:+ ":" +:+ direction_text e.2)
              (map signature_entry sorts1))
  /\ sortSignature sorts1
     = string_of_list_ascii (Sha256.hex_word (signature_bits sorts1))
  /\ (0 <= signature_bits sorts1 < 2 ^ 32)%Z
  /\ (sortSignature sorts1 = sortSignature sorts2
      <-> signature_bits sorts1 = signature_bits sorts2)
  /\ (exists a b, sortSignature a <> sortSignature b)
  /\ (exists a b, map signature_entry a <> map signature_entry b
                  /\ sortSignature a = sortSignature b).
Proof.
  assert (map signature_entry sorts1 = map signature_entry sorts2 ->
          sortSignature sorts1 = sortSignature sorts2) as Hentries.
  { intros Hsame. unfold sortSignature.
    now rewrite !signature_text_entries, Hsame. }
  assert (forall sorts, sortSignature sorts
                        = string_of_list_ascii (Sha256.hex_word (signature_bits sorts)))
    as Hbits by (intros sorts; unfold sortSignature; now rewrite take_digest_hex).
  split; [exact Hentries|].
  split; [|split; [|split; [|split; [|split; [|split; [|split; [|split]]]]]]].
  - intros H1 H2 Hsame. apply Hentries.
    now rewrite !signature_entry_unqualified.
  - unfold sortSignature.
    now rewrite list_ascii_of_string_of_list_ascii, take_digest_hex.
  - unfold sortSignature.
    rewrite list_ascii_of_string_of_list_ascii, take_digest_hex.
    apply hex_word_is_hex.
  - apply signature_text_entries.
  - apply Hbits.
  - apply hash_range.
  - rewrite !Hbits. split; [|now intros ->].
    intros Heq. apply (f_equal list_ascii_of_string) in Heq.
    rewrite !list_ascii_of_string_of_list_ascii in Heq.
    apply hex_word_inj in Heq; [exact Heq | apply hash_range..].
  - exists byUsersId, byId. vm_compute. congruence.
  - exists [ {| dir := None; ref := Column "c1139" |} ],
           [ {| dir := None; ref := Column "c190925" |} ].
    split; [discriminate|].
    destruct sortSignature_collision as [-> ->]. reflexivity.
Qed.

(** An explicit ascending direction and an absent one give one signature. *)
Lemma sortSignature_deterministic_witness :
  sortSignature [ {| dir := Some asc; ref := Column "id" |} ] = sortSignature byId.
Proof.
  apply (proj1 (sortSignature_deterministic
                  [ {| dir := Some asc; ref := Column "id" |} ] byId)).
  reflexivity.
Defined.

(** C4, as the specification states it, fails: [users.id] and [id] have the
    same output key [id] and the same direction, and different signatures. *)
Lemma sortSignature_output_keys_counterexample :
  map output_entry byUsersId = map output_entry byId
  /\ sortSignature byUsersId = "665e4d37"
  /\ sortSignature byId = "cd2f9088"
  /\ sortSignature byUsersId <> sortSignature byId.
Proof. repeat split; vm_compute; congruence. Qed.

(** The separators are not escaped: a name that contains them stands for
    several items. *)
Example sortSignature_separator :
  signature_text [ {| dir := None; ref := Column "a:asc|b" |} ]
  = signature_text [ {| dir := None; ref := Column "a" |};
                     {| dir := None; ref := Column "b" |} ].
Proof. reflexivity. Qed.

(** ** The paginator *)

#[local] Arguments num_succ : simpl never.
#[local] Arguments length_gt : simpl never.
#[local] Arguments slice0 : simpl never.
#[local] Arguments is_prev : simpl never.
#[local] Arguments type_of : simpl never.
#[local] Arguments page : simpl never.
#[local] Arguments effectiveSorts : simpl never.

(** An integer of at most 53 bits is a double, and the double nearest to a
    larger one is no smaller than [2^53]. *)
Lemma round_to_double_exact (z : Z) :
  (Z.abs z <= 2 ^ 53)%Z -> round_to_double z = z.
Proof.
  intros Hz. destruct (Z.eq_dec (Z.abs z) (2 ^ 53)%Z) as [Heq|Hne].
  - assert (z = 2 ^ 53 \/ z = - 2 ^ 53)%Z as [-> | ->] by lia; reflexivity.
  - unfold round_to_double.
    destruct (Z.leb_spec (Z.log2 (Z.abs z) - 52) 0) as [_|Hextra]; [reflexivity|].
    exfalso.
    assert (0 < Z.abs z)%Z as Hpos
      by (destruct (Z.eq_dec (Z.abs z) 0%Z) as [H0|];
          [rewrite H0 in Hextra; simpl in Hextra|]; lia).
    assert (Z.log2 (Z.abs z) < 53)%Z by (apply Z.log2_lt_pow2; lia).
    lia.
Qed.

Lemma round_to_double_large (z : Z) :
  (2 ^ 53 <= z)%Z -> (2 ^ 53 <= round_to_double z)%Z.
Proof.
  intros Hz. unfold round_to_double.
  assert (0 < z)%Z as Hpos by lia.
  rewrite Z.abs_eq, Z.sgn_pos by lia.
  destruct (Z.leb_spec (Z.log2 z - 52) 0) as [_|Hextra]; [exact Hz|].
  set (extra := (Z.log2 z - 52)%Z) in *.
  assert (2 ^ 52 <= z / 2 ^ extra)%Z as Hq.
  { apply Z.div_le_lower_bound; [apply Z.pow_pos_nonneg; lia|].
    rewrite Z.mul_comm, <- Z.pow_add_r by lia.
    replace (52 + extra)%Z with (Z.log2 z) by (unfold extra; lia).
    now apply Z.log2_spec. }
  assert (2 <= 2 ^ extra)%Z as Hunit
    by (change 2%Z with (2 ^ 1)%Z at 1; apply Z.pow_le_mono_r; lia).
  match goal with
  | |- context [if ?c then _ else _] => destruct c
  end; nia.
Qed.

(** At [2^53] the sum is half way between two doubles, and rounds to
    [2^53]; two further, it rounds up. *)
Example num_succ_rounds :
  num_succ (Int (2 ^ 53)) = Int (2 ^ 53)
  /\ num_succ (Int (2 ^ 53 + 2)) = Int (2 ^ 53 + 4)
  /\ num_succ (Int (2 ^ 53 - 1)) = Int (2 ^ 53).
Proof. repeat split. Qed.

(** [limit + 1] is exact below [2^53]. *)
Lemma num_succ_exact (n : nat) :
  (Z.of_nat n < 2 ^ 53)%Z -> num_succ (Int (Z.of_nat n)) = Int (Z.of_nat n + 1).
Proof.
  intros Hn. unfold num_succ. f_equal. apply round_to_double_exact. lia.
Qed.

(** The rows a row limit of [limit + 1] leaves of fewer than [2^53] rows. *)
Lemma take_row_limit {A : Type} (l : list A) (n : nat) :
  (Z.of_nat (length l) < 2 ^ 53)%Z ->
  exists z, num_succ (Int (Z.of_nat n)) = Int z
            /\ (0 <= z)%Z
            /\ take (Z.to_nat z) l = take (S n) l.
Proof.
  intros Hl. destruct (Z.lt_ge_cases (Z.of_nat n) (2 ^ 53)%Z) as [Hn|Hn].
  - exists (Z.of_nat n + 1)%Z. split; [now apply num_succ_exact|].
    split; [lia|]. f_equal. lia.
  - exists (round_to_double (Z.of_nat n + 1)). split; [reflexivity|].
    pose proof (round_to_double_large (Z.of_nat n + 1) ltac:(lia)) as Hlarge.
    split; [lia|]. rewrite !take_ge by lia. reflexivity.
Qed.

Lemma assertLimitSorts_Resolved (limit : number) (sorts : list SortItem) (u : unit) :
  assertLimitSorts limit sorts = Resolved u <->
  exists n : nat, limit = Int (Z.of_nat n) /\ 0 < n /\ sorts <> [].
Proof.
  unfold assertLimitSorts. split.
  - destruct limit as [z| | |]; simpl; try discriminate.
    destruct (Z.ltb_spec 0 z) as [Hz|]; simpl; [|discriminate].
    destruct sorts as [|s sorts]; simpl; [discriminate|]. intros _.
    exists (Z.to_nat z). repeat split; [f_equal; lia | lia | discriminate].
  - intros (n & -> & Hn & Hsorts). simpl.
    destruct (Z.ltb_spec 0 (Z.of_nat n)) as [_|]; [|lia]. simpl.
    destruct sorts; [congruence|]. now destruct u.
Qed.

Lemma positive_integer_check (limit : number) :
  Number_isInteger limit && num_gt0 limit = true <-> positive_integer limit.
Proof.
  unfold positive_integer. destruct limit as [z|k e| |negative]; simpl.
  - rewrite Z.ltb_lt. split; [eauto | now intros (z' & [= <-] & Hz)].
  - split; [discriminate | now intros (z & [=] & _)].
  - split; [discriminate | now intros (z & [=] & _)].
  - split; [discriminate | now intros (z & [=] & _)].
Qed.

Lemma invertSorts_flipped (sorts : list SortItem) :
  invertSorts sorts = map flipped sorts.
Proof.
  unfold invertSorts. apply map_ext. intros [[[]|] r]; reflexivity.
Qed.

Lemma slice0_take {A : Type} (rows : list A) (n : nat) :
  slice0 rows (Int (Z.of_nat n)) = take n rows.
Proof.
  unfold slice0, slice_end.
  destruct (Z.ltb_spec (Z.of_nat n) 0) as [|_]; [lia|].
  rewrite Nat2Z.id.
  destruct (Nat.le_ge_cases n (length rows)) as [Hle|Hge].
  - now rewrite Nat.min_l.
  - rewrite Nat.min_r by exact Hge. now rewrite !take_ge.
Qed.

Lemma length_gt_nat (len n : nat) :
  length_gt len (Int (Z.of_nat n)) = (n <? len).
Proof.
  unfold length_gt. destruct (Z.ltb_spec (Z.of_nat n) (Z.of_nat len)),
                  (Nat.ltb_spec n len); auto; lia.
Qed.

Lemma effectiveSorts_code (decodedCursor : option DecodedCursor) (sorts : list SortItem) :
  (if is_prev decodedCursor then invertSorts sorts else sorts)
  = effectiveSorts decodedCursor sorts.
Proof.
  unfold is_prev, effectiveSorts. rewrite invertSorts_flipped.
  destruct (type_of decodedCursor) as [[]|]; reflexivity.
Qed.

Lemma page_code (decodedCursor : option DecodedCursor) (n : nat) (rows : list Row) :
  (if is_prev decodedCursor
   then rev (slice0 rows (Int (Z.of_nat n)))
   else slice0 rows (Int (Z.of_nat n)))
  = page decodedCursor n rows.
Proof.
  unfold is_prev, page. rewrite slice0_take.
  destruct (type_of decodedCursor) as [[]|]; reflexivity.
Qed.

Lemma fromEntries_lookup (keys : list string) (value : string -> JsValue) (key : string) :
  fromEntries (map (fun name => (name, value name)) keys) !! key
  = if decide (key ∈ keys) then Some (value key) else None.
Proof.
  unfold fromEntries.
  assert (forall acc : gmap string JsValue,
            foldl (fun o kv => <[kv.1 := kv.2]> o) acc
                  (map (fun name => (name, value name)) keys) !! key
            = if decide (key ∈ keys) then Some (value key) else acc !! key) as Hacc.
  { induction keys as [|name rest IH]; intros acc; simpl.
    - destruct (decide (key ∈ [])) as [Hin|_]; [|reflexivity].
      now apply elem_of_nil in Hin.
    - rewrite IH.
      destruct (decide (key ∈ rest)) as [Hin|Hout],
               (decide (key ∈ name :: rest)) as [Hin'|Hout']; try reflexivity.
      + exfalso. apply Hout'. now apply list_elem_of_further.
      + apply elem_of_cons in Hin' as [->|Hin']; [|contradiction].
        apply lookup_insert_eq.
      + apply lookup_insert_ne. intros <-. apply Hout', list_elem_of_here. }
  rewrite Hacc. now destruct (decide (key ∈ keys)).
Qed.

(** The payload of an item: the signature of the sort set, and under each
    output key of the sort set the item's value of that name. *)
Lemma resolveCursor_payload (item : Row) (sorts : list SortItem) :
  CursorPayload.sig (resolveCursor item sorts) = sortSignature sorts
  /\ forall key,
       CursorPayload.k (resolveCursor item sorts) !! key
       = if decide (key ∈ map getSortOutput sorts) then Some (get item key) else None.
Proof.
  split; [reflexivity|]. intros key. unfold resolveCursor; simpl.
  rewrite <- (fromEntries_lookup (map getSortOutput sorts) (get item) key).
  now rewrite map_map.
Qed.

Lemma resolvePageTokens_Resolved (items : list Row) (sorts : list SortItem)
    (codec : CursorCodec) (decodedCursor : option DecodedCursor) (overFetched : bool)
    (tokens : CursorOutgoing.t) :
  resolvePageTokens items sorts codec decodedCursor overFetched = Resolved tokens ->
  match items with
  | [] =>
      tokens = {| CursorOutgoing.startCursor := None; CursorOutgoing.endCursor := None;
                  CursorOutgoing.prevPage := None; CursorOutgoing.nextPage := None |}
  | first :: _ =>
      exists final s e,
        list.last items = Some final
        /\ token_of codec sorts first = Resolved s
        /\ token_of codec sorts final = Resolved e
        /\ tokens =
           {| CursorOutgoing.startCursor := Some s;
              CursorOutgoing.endCursor := Some e;
              CursorOutgoing.prevPage :=
                if (negb (is_prev decodedCursor) || overFetched)
                   && negb (isFirst decodedCursor)
                then Some s else None;
              CursorOutgoing.nextPage :=
                if is_prev decodedCursor || overFetched then Some e else None |}
  end.
Proof.
  unfold resolvePageTokens, token_of.
  destruct items as [|first rest]; [now intros [= <-]|].
  cbn [length Nat.eqb head].
  destruct (list.last (first :: rest)) as [final|] eqn:Hlast;
    [|apply last_None in Hlast; discriminate].
  intros H. apply bind_Resolved_inv in H as (start & Hs & H).
  apply bind_Resolved_inv in Hs as (s & Hs & [= <-]).
  apply bind_Resolved_inv in H as (final' & He & [= <-]).
  apply bind_Resolved_inv in He as (e & He & [= <-]).
  exists final, s, e. repeat split; assumption.
Qed.

Lemma truthy_true (token : option string) :
  truthy token = true <-> exists t, token = Some t /\ t <> EmptyString.
Proof.
  destruct token as [t|]; simpl.
  - destruct (String.eqb_spec t ""); simpl; split.
    + discriminate.
    + intros (t' & [= <-] & Hne). congruence.
    + eauto.
    + reflexivity.
  - split; [discriminate | intros (t & [=] & _)].
Qed.

Lemma CursorPayloadSchema_parse_shape (v : JsValue) :
  (payload_shaped v -> exists p, CursorPayloadSchema_parse v = Resolved p)
  /\ (~ payload_shaped v -> CursorPayloadSchema_parse v = Rejected ZodError)
  /\ (forall e, CursorPayloadSchema_parse v = Rejected e -> e = ZodError).
Proof.
  unfold payload_shaped, CursorPayloadSchema_parse. split; [|split].
  - intros (o & s & r & -> & -> & ->). eauto.
  - intros Hno. destruct v as [| | | | | | | |o|name]; try reflexivity.
    destruct (o !! "sig") as [[]|] eqn:Hsig; try reflexivity;
      destruct (o !! "k") as [[]|] eqn:Hk; try reflexivity.
    exfalso. apply Hno. eauto 6.
  - intros e. destruct v as [| | | | | | | |o|name]; try (now intros [= <-]).
    destruct (o !! "sig") as [[]|]; try (now intros [= <-]);
      destruct (o !! "k") as [[]|]; try (now intros [= <-]); discriminate.
Qed.

Lemma decodeCursorPayload_Rejected (token : string) (codec : CursorCodec) (e : Error) :
  decodeCursorPayload token codec = Rejected e ->
  decode codec token = Rejected e \/ e = ZodError.
Proof.
  unfold decodeCursorPayload. intros [H|(v & _ & H)]%bind_Rejected_inv; [auto|].
  right. now apply CursorPayloadSchema_parse_shape in H.
Qed.

Lemma decodeCursor_Rejected (cursor : CursorIncoming.t) (codec : CursorCodec) (e : Error) :
  decodeCursor cursor codec = Rejected e ->
  e = invalid_cursor \/ (exists token, decode codec token = Rejected e) \/ e = ZodError.
Proof.
  unfold decodeCursor.
  destruct (CursorIncoming.nextPage cursor) as [token|];
    [|destruct (CursorIncoming.prevPage cursor) as [token|];
      [|destruct (CursorIncoming.offset cursor) as [n|]]].
  - intros [H|(p & _ & [=])]%bind_Rejected_inv.
    apply decodeCursorPayload_Rejected in H as [H| ->]; eauto.
  - intros [H|(p & _ & [=])]%bind_Rejected_inv.
    apply decodeCursorPayload_Rejected in H as [H| ->]; eauto.
  - discriminate.
  - intros [= <-]. now left.
Qed.

Lemma resolvePageTokens_Rejected (items : list Row) (sorts : list SortItem)
    (codec : CursorCodec) (decodedCursor : option DecodedCursor) (overFetched : bool)
    (e : Error) :
  resolvePageTokens items sorts codec decodedCursor overFetched = Rejected e ->
  exists v, encode codec v = Rejected e.
Proof.
  unfold resolvePageTokens. destruct (length items =? 0); [discriminate|].
  intros [H|(s & _ & [H|(t & _ & [=])]%bind_Rejected_inv)]%bind_Rejected_inv.
  - destruct (head items); [|discriminate].
    apply bind_Rejected_inv in H as [H|(? & _ & [=])]. eauto.
  - destruct (list.last items); [|discriminate].
    apply bind_Rejected_inv in H as [H|(? & _ & [=])]. eauto.
Qed.

Lemma resolveEdges_Rejected (rows : list Row) (sorts : list SortItem)
    (codec : CursorCodec) (e : Error) :
  resolveEdges rows sorts codec = Rejected e ->
  exists v, encode codec v = Rejected e.
Proof.
  unfold resolveEdges. destruct (length rows =? 0); [discriminate|].
  induction rows as [|row rest IH]; simpl; [discriminate|].
  intros [H|(c & _ & [H|(edges & _ & [=])]%bind_Rejected_inv)]%bind_Rejected_inv;
    eauto.
Qed.

Lemma surfaced_PaginationError (message : string) (e : Error) :
  exists m code cause,
    surfaced message e = PaginationError m code cause
    /\ (code = INVALID_TOKEN \/ code = INVALID_SORT \/ code = INVALID_LIMIT
        \/ code = UNEXPECTED_ERROR).
Proof.
  destruct e as [name msg|msg code cause]; simpl.
  - do 3 eexists. split; [reflexivity | auto].
  - exists msg, code, cause. split; [reflexivity|]. destruct code; auto.
Qed.

Section PaginatorProperties.

Context {Q : Type}.
Variable execute : Q -> Promise (list Row).
Variable dialect : PaginationDialect Q.
Variable cursorCodec : CursorCodec.
Variable query : Q.
Variable sorts : list SortItem.

(** The [try] block of [paginate], for a limit that passed
    [assertLimitSorts]. *)
Lemma paginate_valid (n : nat) (cursor : option CursorIncoming.t) :
  0 < n -> sorts <> [] ->
  paginate execute query sorts (Int (Z.of_nat n)) cursor dialect cursorCodec
  = try_catch
      (decodedCursor ← incoming cursor cursorCodec;
       q ← match decodedCursor with
           | Some (Keyset c) =>
               if negb (String.eqb (CursorPayload.sig (payload c)) (sortSignature sorts))
               then Rejected (PaginationError "Page token does not match sort order"
                                              INVALID_TOKEN None)
               else constrained dialect query sorts (Z.of_nat n) decodedCursor
           | _ => constrained dialect query sorts (Z.of_nat n) decodedCursor
           end;
       rows ← execute q;
       tokens ← resolvePageTokens (page decodedCursor n rows) sorts cursorCodec
                  decodedCursor (n <? length rows);
       Resolved {| PaginatedResult.items := page decodedCursor n rows;
                   PaginatedResult.prevPage := CursorOutgoing.prevPage tokens;
                   PaginatedResult.nextPage := CursorOutgoing.nextPage tokens;
                   PaginatedResult.startCursor := CursorOutgoing.startCursor tokens;
                   PaginatedResult.endCursor := CursorOutgoing.endCursor tokens;
                   PaginatedResult.hasPrevPage := truthy (CursorOutgoing.prevPage tokens);
                   PaginatedResult.hasNextPage := truthy (CursorOutgoing.nextPage tokens) |})
      (fun error => Rejected (surfaced "Failed to paginate" error)).
Proof.
  intros Hn Hsorts. unfold paginate.
  assert (assertLimitSorts (Int (Z.of_nat n)) sorts = Resolved tt) as ->
    by (apply assertLimitSorts_Resolved; eauto).
  simpl.
  assert (forall (A : Type) (body : Promise A),
            try_catch body
              (fun error =>
                 if instanceof_PaginationError error then Rejected error
                 else Rejected (PaginationError "Failed to paginate"
                                                UNEXPECTED_ERROR (Some error)))
            = try_catch body (fun error => Rejected (surfaced "Failed to paginate" error)))
    as -> by (intros A [a|[]]; reflexivity).
  f_equal. unfold incoming.
  destruct (match cursor with
            | Some c => decodeCursor c cursorCodec ≫= (fun d => Resolved (Some d))
            | None => Resolved None
            end) as [decodedCursor|e]; [|reflexivity].
  simpl. unfold constrained. rewrite effectiveSorts_code.
  assert (forall q : Promise Q,
            (q ≫= fun q =>
             rows ← execute q;
             let items :=
               if is_prev decodedCursor
               then rev (slice0 rows (Int (Z.of_nat n)))
               else slice0 rows (Int (Z.of_nat n)) in
             tokens ← resolvePageTokens items sorts cursorCodec decodedCursor
                        (length_gt (length rows) (Int (Z.of_nat n)));
             Resolved {| PaginatedResult.items := items;
                         PaginatedResult.prevPage := CursorOutgoing.prevPage tokens;
                         PaginatedResult.nextPage := CursorOutgoing.nextPage tokens;
                         PaginatedResult.startCursor := CursorOutgoing.startCursor tokens;
                         PaginatedResult.endCursor := CursorOutgoing.endCursor tokens;
                         PaginatedResult.hasPrevPage :=
                           truthy (CursorOutgoing.prevPage tokens);
                         PaginatedResult.hasNextPage :=
                           truthy (CursorOutgoing.nextPage tokens) |})
            = (q ≫= fun q =>
               rows ← execute q;
               tokens ← resolvePageTokens (page decodedCursor n rows) sorts
                          cursorCodec decodedCursor (n <? length rows);
               Resolved {| PaginatedResult.items := page decodedCursor n rows;
                           PaginatedResult.prevPage := CursorOutgoing.prevPage tokens;
                           PaginatedResult.nextPage := CursorOutgoing.nextPage tokens;
                           PaginatedResult.startCursor := CursorOutgoing.startCursor tokens;
                           PaginatedResult.endCursor := CursorOutgoing.endCursor tokens;
                           PaginatedResult.hasPrevPage :=
                             truthy (CursorOutgoing.prevPage tokens);
                           PaginatedResult.hasNextPage :=
                             truthy (CursorOutgoing.nextPage tokens) |})) as Htail.
  { intros [q|e]; [|reflexivity]. simpl.
    destruct (execute q) as [rows|e]; [|reflexivity]. simpl.
    now rewrite (page_code decodedCursor n rows), length_gt_nat. }
  destruct decodedCursor as [[c|off]|]; apply Htail.
Qed.


(** What a resolved [paginate] went through. *)
Lemma paginate_Resolved (limit : number) (cursor : option CursorIncoming.t)
    (res : PaginatedResult.t) :
  paginate execute query sorts limit cursor dialect cursorCodec = Resolved res ->
  exists (n : nat) decodedCursor q rows tokens,
    limit = Int (Z.of_nat n) /\ 0 < n /\ sorts <> []
    /\ incoming cursor cursorCodec = Resolved decodedCursor
    /\ (forall c, decodedCursor = Some (Keyset c) ->
                  CursorPayload.sig (payload c) = sortSignature sorts)
    /\ constrained dialect query sorts (Z.of_nat n) decodedCursor = Resolved q
    /\ execute q = Resolved rows
    /\ resolvePageTokens (page decodedCursor n rows) sorts cursorCodec
         decodedCursor (n <? length rows) = Resolved tokens
    /\ res = {| PaginatedResult.items := page decodedCursor n rows;
                PaginatedResult.prevPage := CursorOutgoing.prevPage tokens;
                PaginatedResult.nextPage := CursorOutgoing.nextPage tokens;
                PaginatedResult.startCursor := CursorOutgoing.startCursor tokens;
                PaginatedResult.endCursor := CursorOutgoing.endCursor tokens;
                PaginatedResult.hasPrevPage := truthy (CursorOutgoing.prevPage tokens);
                PaginatedResult.hasNextPage := truthy (CursorOutgoing.nextPage tokens) |}.
Proof.
  intros H.
  assert (exists n : nat, limit = Int (Z.of_nat n) /\ 0 < n /\ sorts <> [])
    as (n & -> & Hn & Hsorts).
  { unfold paginate in H.
    destruct (assertLimitSorts limit sorts) as [[]|e] eqn:Ha; [|discriminate].
    now apply assertLimitSorts_Resolved in Ha. }
  rewrite (paginate_valid n cursor Hn Hsorts) in H.
  unfold try_catch in H.
  match type of H with
  | match ?body with _ => _ end = _ => destruct body as [r|e] eqn:Hbody
  end; [injection H as -> | discriminate].
  apply bind_Resolved_inv in Hbody as (decodedCursor & Hdec & Hbody).
  apply bind_Resolved_inv in Hbody as (q & Hq & Hbody).
  apply bind_Resolved_inv in Hbody as (rows & Hrows & Hbody).
  apply bind_Resolved_inv in Hbody as (tokens & Htokens & [= <-]).
  exists n, decodedCursor, q, rows, tokens.
  repeat split; try assumption.
  - intros c ->.
    destruct (String.eqb_spec (CursorPayload.sig (payload c)) (sortSignature sorts));
      [assumption | discriminate].
  - destruct decodedCursor as [[c|off]|]; try assumption.
    destruct (negb _); [discriminate | assumption].
Qed.

Lemma page_bounded (decodedCursor : option DecodedCursor) (n : nat) (rows : list Row) :
  length (page decodedCursor n rows) <= n
  /\ forall i row, page decodedCursor n rows !! i = Some row ->
                   exists j, j < n /\ rows !! j = Some row.
Proof.
  assert (forall i row, take n rows !! i = Some row ->
                        exists j, j < n /\ rows !! j = Some row) as Htake.
  { intros i row Hi. exists i.
    apply lookup_take_Some in Hi as [Hi Hlt]. auto. }
  unfold page. destruct (type_of decodedCursor) as [[]|];
    rewrite ?length_rev, length_take; (split; [lia|]); try exact Htake.
  intros i row Hi.
  assert (row ∈ rev (take n rows)) as Hin by (apply list_elem_of_lookup; eauto).
  apply list_elem_of_In, (proj2 (in_rev _ _)), list_elem_of_In in Hin.
  apply list_elem_of_lookup in Hin as [j Hj]. eauto.
Qed.

(** C2.  A resolved [paginate] applied to the query the sort set with every
    direction flipped when the decoded cursor type is [prev] (an absent or
    ascending direction becomes descending, a descending one ascending) and
    the sort set unchanged otherwise (next, offset, no cursor); its items
    are the first [limit] rows of the executor, reversed for [prev] and in
    fetched order otherwise; so there are at most [limit] items and each is
    one of the first [limit] rows: the row fetched beyond the limit is never
    among them. *)
Theorem paginate_sorts_and_items (limit : number)
    (cursor : option CursorIncoming.t) (res : PaginatedResult.t) :
  paginate execute query sorts limit cursor dialect cursorCodec = Resolved res ->
  exists (n : nat) decodedCursor q rows,
    limit = Int (Z.of_nat n)
    /\ incoming cursor cursorCodec = Resolved decodedCursor
    /\ constrained dialect query sorts (Z.of_nat n) decodedCursor = Resolved q
    /\ execute q = Resolved rows
    /\ (type_of decodedCursor = Some TPrev ->
        (if is_prev decodedCursor then invertSorts sorts else sorts)
        = map flipped sorts
        /\ effectiveSorts decodedCursor sorts = map flipped sorts
        /\ PaginatedResult.items res = rev (take n rows))
    /\ (type_of decodedCursor <> Some TPrev ->
        (if is_prev decodedCursor then invertSorts sorts else sorts) = sorts
        /\ effectiveSorts decodedCursor sorts = sorts
        /\ PaginatedResult.items res = take n rows)
    /\ length (PaginatedResult.items res) <= n
    /\ (forall i row, PaginatedResult.items res !! i = Some row ->
                      exists j, j < n /\ rows !! j = Some row).
Proof.
  intros H.
  apply paginate_Resolved in H
    as (n & decodedCursor & q & rows & tokens & -> & Hn & Hsorts & Hdec & _
        & Hq & Hrows & _ & ->).
  exists n, decodedCursor, q, rows. simpl.
  repeat split; try assumption; try apply page_bounded.
  - rewrite effectiveSorts_code. unfold effectiveSorts. now rewrite H.
  - unfold effectiveSorts. now rewrite H.
  - unfold page. now rewrite H.
  - rewrite effectiveSorts_code. unfold effectiveSorts.
    destruct (type_of decodedCursor) as [[]|]; congruence.
  - unfold effectiveSorts.
    destruct (type_of decodedCursor) as [[]|]; congruence.
  - unfold page. destruct (type_of decodedCursor) as [[]|]; congruence.
Qed.


(** X24.  The cursors of a page.  In a resolved [paginate], [startCursor] and
    [endCursor] are the encodings of
    [{ sig: signature(sortSet), k: { outputKey: item[outputKey] } }] for the
    first and the last of the items (not of the fetched rows); with no item
    all four cursors are absent; otherwise [nextPage] is [endCursor] exactly
    when [inverted || overFetched] and absent if not, [prevPage] is
    [startCursor] exactly when [(!inverted || overFetched) && !isFirst] and
    absent if not, so a first page has no [prevPage]; and [hasNextPage]
    ([hasPrevPage]) is true exactly when [nextPage] ([prevPage]) is present
    and is not the empty string, hence exactly when it is present if the
    codec never encodes to the empty string. *)
Theorem paginate_page_tokens (limit : number)
    (cursor : option CursorIncoming.t) (res : PaginatedResult.t) :
  paginate execute query sorts limit cursor dialect cursorCodec = Resolved res ->
  exists (n : nat) decodedCursor q rows,
    limit = Int (Z.of_nat n)
    /\ incoming cursor cursorCodec = Resolved decodedCursor
    /\ constrained dialect query sorts (Z.of_nat n) decodedCursor = Resolved q
    /\ execute q = Resolved rows
    /\ PaginatedResult.items res = page decodedCursor n rows
    /\ let inverted := is_prev decodedCursor in
       let overFetched := n <? length rows in
       let isFirst := isFirst decodedCursor in
       match PaginatedResult.items res with
       | [] =>
           PaginatedResult.startCursor res = None
           /\ PaginatedResult.endCursor res = None
           /\ PaginatedResult.nextPage res = None
           /\ PaginatedResult.prevPage res = None
           /\ PaginatedResult.hasNextPage res = false
           /\ PaginatedResult.hasPrevPage res = false
       | first :: _ =>
           exists final s e,
             list.last (PaginatedResult.items res) = Some final
             /\ encode cursorCodec
                  (payload_value
                     {| CursorPayload.sig := sortSignature sorts;
                        CursorPayload.k := CursorPayload.k (resolveCursor first sorts) |})
                = Resolved s
             /\ encode cursorCodec
                  (payload_value
                     {| CursorPayload.sig := sortSignature sorts;
                        CursorPayload.k := CursorPayload.k (resolveCursor final sorts) |})
                = Resolved e
             /\ (forall item key,
                   CursorPayload.k (resolveCursor item sorts) !! key
                   = if decide (key ∈ map getSortOutput sorts)
                     then Some (get item key) else None)
             /\ PaginatedResult.startCursor res = Some s
             /\ PaginatedResult.endCursor res = Some e
             /\ (PaginatedResult.nextPage res = PaginatedResult.endCursor res
                 <-> inverted || overFetched = true)
             /\ (PaginatedResult.nextPage res = None
                 <-> inverted || overFetched = false)
             /\ (PaginatedResult.prevPage res = PaginatedResult.startCursor res
                 <-> (negb inverted || overFetched) && negb isFirst = true)
             /\ (PaginatedResult.prevPage res = None
                 <-> (negb inverted || overFetched) && negb isFirst = false)
       end
       /\ (PaginatedResult.hasNextPage res = true
           <-> exists t, PaginatedResult.nextPage res = Some t /\ t <> EmptyString)
       /\ (PaginatedResult.hasPrevPage res = true
           <-> exists t, PaginatedResult.prevPage res = Some t /\ t <> EmptyString)
       /\ ((forall v, encode cursorCodec v <> Resolved EmptyString) ->
           (PaginatedResult.hasNextPage res = true
            <-> is_Some (PaginatedResult.nextPage res))
           /\ (PaginatedResult.hasPrevPage res = true
               <-> is_Some (PaginatedResult.prevPage res)))
       /\ (cursor = None -> PaginatedResult.prevPage res = None).
Proof.
  intros H.
  apply paginate_Resolved in H
    as (n & decodedCursor & q & rows & tokens & -> & Hn & Hsorts & Hdec & _
        & Hq & Hrows & Htokens & ->).
  exists n, decodedCursor, q, rows. cbn [PaginatedResult.items
    PaginatedResult.startCursor PaginatedResult.endCursor PaginatedResult.nextPage
    PaginatedResult.prevPage PaginatedResult.hasNextPage PaginatedResult.hasPrevPage].
  repeat (split; [assumption || reflexivity|]).
  apply resolvePageTokens_Resolved in Htokens.
  split; [|split; [apply truthy_true | split; [apply truthy_true | split]]].
  - destruct (page decodedCursor n rows) as [|first rest].
    + subst tokens. repeat split.
    + destruct Htokens as (final & s & e & Hlast & Hs & He & ->).
      exists final, s, e. cbn [CursorOutgoing.startCursor CursorOutgoing.endCursor
        CursorOutgoing.nextPage CursorOutgoing.prevPage].
      split; [assumption|]. split; [exact Hs|]. split; [exact He|].
      split; [intros item; apply resolveCursor_payload|].
      split; [reflexivity|]. split; [reflexivity|].
      destruct (is_prev decodedCursor || (n <? length rows)),
               ((negb (is_prev decodedCursor) || (n <? length rows))
                && negb (isFirst decodedCursor));
        repeat split; congruence.
  - intros Hnonempty.
    assert (forall token, (token = None \/ exists item, token_of cursorCodec sorts item
                                                       = Resolved (default EmptyString token)
                                                       /\ is_Some token) ->
                          (truthy token = true <-> is_Some token)) as Htruthy.
    { intros [t|] Htoken; simpl.
      - destruct (String.eqb_spec t EmptyString) as [->|_]; [|split; eauto].
        destruct Htoken as [[=]|(item & Htok & _)].
        exfalso. exact (Hnonempty _ Htok).
      - split; [discriminate | intros [t [=]]]. }
    destruct (page decodedCursor n rows) as [|first rest].
    + subst tokens. split; apply Htruthy; now left.
    + destruct Htokens as (final & s & e & _ & Hs & He & ->).
      cbn [CursorOutgoing.nextPage CursorOutgoing.prevPage].
      split; apply Htruthy.
      * destruct (is_prev decodedCursor || (n <? length rows)); [right | now left].
        exists final. split; [exact He | eauto].
      * destruct ((negb (is_prev decodedCursor) || (n <? length rows))
                  && negb (isFirst decodedCursor)); [right | now left].
        exists first. split; [exact Hs | eauto].
  - intros ->. injection Hdec as <-.
    destruct (page None n rows) as [|first rest].
    + now subst tokens.
    + destruct Htokens as (final & s & e & _ & _ & _ & ->).
      unfold is_prev, type_of. simpl.
      now destruct (n <? length rows).
Qed.


Lemma paginate_invalid (limit : number) (cursor : option CursorIncoming.t) (e : Error) :
  assertLimitSorts limit sorts = Rejected e ->
  paginate execute query sorts limit cursor dialect cursorCodec = Rejected e
  /\ paginateWithEdges execute query sorts limit cursor dialect cursorCodec = Rejected e.
Proof.
  intros H. unfold paginateWithEdges, paginate. now rewrite H.
Qed.

Lemma paginate_Rejected (limit : number) (cursor : option CursorIncoming.t) (e : Error) :
  paginate execute query sorts limit cursor dialect cursorCodec = Rejected e ->
  In e [invalid_limit; invalid_sort; invalid_cursor; token_mismatch]
  \/ exists e0, external_failure execute dialect cursorCodec e0
                /\ e = surfaced "Failed to paginate" e0.
Proof.
  intros H.
  destruct (assertLimitSorts limit sorts) as [[]|e'] eqn:Ha.
  - apply assertLimitSorts_Resolved in Ha as (n & -> & Hn & Hsorts).
    rewrite (paginate_valid n cursor Hn Hsorts) in H. unfold try_catch in H.
    match type of H with
    | match ?body with _ => _ end = _ => destruct body as [r|e0] eqn:Hbody
    end; [discriminate | injection H as <-].
    assert (In e0 [invalid_cursor; token_mismatch]
            \/ external_failure execute dialect cursorCodec e0) as [Hown|Hext].
    { unfold external_failure.
      apply bind_Rejected_inv in Hbody as [Hdec|(decodedCursor & _ & Hbody)].
      - unfold incoming in Hdec. destruct cursor as [c|]; [|discriminate].
        apply bind_Rejected_inv in Hdec as [Hdec|(? & _ & [=])].
        apply decodeCursor_Rejected in Hdec as [->|[Hdec| ->]]; simpl; auto.
      - apply bind_Rejected_inv in Hbody as [Hq|(q & _ & Hbody)].
        + assert (e0 = token_mismatch
                  \/ constrained dialect query sorts (Z.of_nat n) decodedCursor
                     = Rejected e0) as [->|Hq'].
          { destruct decodedCursor as [[c|off]|]; auto.
            destruct (negb _); [injection Hq as <-|]; auto. }
          * simpl; auto.
          * unfold constrained in Hq'.
            destruct decodedCursor as [[c|off]|]; try discriminate.
            right. right. right. left. eauto.
        + apply bind_Rejected_inv in Hbody as [Hrows|(rows & _ & Hbody)];
            [right; right; right; right; left; eauto|].
          apply bind_Rejected_inv in Hbody as [Htok|(tokens & _ & [=])].
          apply resolvePageTokens_Rejected in Htok.
          right; right; right; right; right. exact Htok. }
    + left. destruct Hown as [<-|[<-|[]]]; simpl; auto.
    + right. eauto.
  - destruct (paginate_invalid limit cursor e' Ha) as [Hp _].
    rewrite Hp in H. injection H as <-. left.
    unfold assertLimitSorts in Ha.
    destruct (negb _); [injection Ha as <-; simpl; auto|].
    destruct (length sorts <? 1); [injection Ha as <-; simpl; auto | discriminate].
Qed.

(** C7.  A limit that is not a positive integer makes [paginate] and
    [paginateWithEdges] fail with [INVALID_LIMIT], and with a valid limit an
    empty sort set makes them fail with [INVALID_SORT], whatever the other
    arguments are; every failure of either is a [PaginationError] with one
    of the four codes; a failure of [paginate] is one of its own validation
    errors or the failure of the codec, the payload check, the dialect or
    the executor, unchanged if that is a [PaginationError] and else as the
    cause of one [UNEXPECTED_ERROR]; a failure of [paginateWithEdges] is the
    failure of [paginate], unchanged, or that of an edge encoding, surfaced
    the same way.  And no failure is swallowed: when the decoding of the
    cursor, the dialect's [applyCursor], the executor or the encoding of a
    cursor of the page fails, [paginate] is rejected with that failure so
    surfaced and returns no result; when [paginate] is rejected so is
    [paginateWithEdges], with the same error, and when the encoding of an
    edge fails, [paginateWithEdges] is rejected with that failure
    surfaced. *)
Theorem paginate_error_surface (limit : number) (cursor : option CursorIncoming.t) :
  let paginated :=
    paginate execute query sorts limit cursor dialect cursorCodec in
  let withEdges :=
    paginateWithEdges execute query sorts limit cursor dialect cursorCodec in
  (~ positive_integer limit ->
   paginated = Rejected invalid_limit /\ withEdges = Rejected invalid_limit)
  /\ (positive_integer limit -> sorts = [] ->
      paginated = Rejected invalid_sort /\ withEdges = Rejected invalid_sort)
  /\ (forall e, paginated = Rejected e ->
        (exists message code cause,
           e = PaginationError message code cause
           /\ (code = INVALID_TOKEN \/ code = INVALID_SORT \/ code = INVALID_LIMIT
               \/ code = UNEXPECTED_ERROR))
        /\ (In e [invalid_limit; invalid_sort; invalid_cursor; token_mismatch]
            \/ exists e0, external_failure execute dialect cursorCodec e0
                          /\ e = surfaced "Failed to paginate" e0))
  /\ (forall e, withEdges = Rejected e ->
        (exists message code cause,
           e = PaginationError message code cause
           /\ (code = INVALID_TOKEN \/ code = INVALID_SORT \/ code = INVALID_LIMIT
               \/ code = UNEXPECTED_ERROR))
        /\ (paginated = Rejected e
            \/ exists e0 v, encode cursorCodec v = Rejected e0
                            /\ e = surfaced "Failed to generate edges" e0))
  /\ (forall message name text,
        surfaced message (GenericError name text)
        = PaginationError message UNEXPECTED_ERROR (Some (GenericError name text)))
  /\ (forall message m code cause,
        surfaced message (PaginationError m code cause) = PaginationError m code cause)
  /\ (forall n : nat,
        limit = Int (Z.of_nat n) -> 0 < n -> sorts <> [] ->
        (forall e, incoming cursor cursorCodec = Rejected e ->
                   paginated = Rejected (surfaced "Failed to paginate" e))
        /\ (forall decodedCursor,
              incoming cursor cursorCodec = Resolved decodedCursor ->
              (forall c, decodedCursor = Some (Keyset c) ->
                         CursorPayload.sig (payload c) = sortSignature sorts) ->
              (forall e,
                 constrained dialect query sorts (Z.of_nat n) decodedCursor
                 = Rejected e ->
                 paginated = Rejected (surfaced "Failed to paginate" e))
              /\ (forall q,
                    constrained dialect query sorts (Z.of_nat n) decodedCursor
                    = Resolved q ->
                    (forall e, execute q = Rejected e ->
                               paginated = Rejected (surfaced "Failed to paginate" e))
                    /\ (forall rows item e,
                          execute q = Resolved rows ->
                          (head (page decodedCursor n rows) = Some item
                           \/ (list.last (page decodedCursor n rows) = Some item
                               /\ forall first,
                                    head (page decodedCursor n rows) = Some first ->
                                    exists t, token_of cursorCodec sorts first
                                              = Resolved t)) ->
                          token_of cursorCodec sorts item = Rejected e ->
                          paginated
                          = Rejected (surfaced "Failed to paginate" e)))))
  /\ (forall e, paginated = Rejected e -> withEdges = Rejected e)
  /\ (forall res e,
        paginated = Resolved res ->
        resolveEdges (PaginatedResult.items res) sorts cursorCodec = Rejected e ->
        withEdges = Rejected (surfaced "Failed to generate edges" e)).
Proof.
  intros paginated withEdges.
  assert (forall e, paginated = Rejected e ->
            exists message code cause,
              e = PaginationError message code cause
              /\ (code = INVALID_TOKEN \/ code = INVALID_SORT \/ code = INVALID_LIMIT
                  \/ code = UNEXPECTED_ERROR)) as Hkind.
  { intros e [Hown|(e0 & _ & ->)]%paginate_Rejected.
    - simpl in Hown. destruct Hown as [<-|[<-|[<-|[<-|[]]]]];
        do 3 eexists; (split; [reflexivity|]); auto.
    - apply surfaced_PaginationError. }
  split; [|split; [|split; [|split; [|split; [|split; [|split; [|split]]]]]]].
  - intros Hlimit. apply paginate_invalid. unfold assertLimitSorts.
    destruct (Number_isInteger limit && num_gt0 limit) eqn:Hcheck; [|reflexivity].
    now apply positive_integer_check in Hcheck.
  - intros Hlimit Hempty. apply paginate_invalid. unfold assertLimitSorts.
    apply positive_integer_check in Hlimit. now rewrite Hlimit, Hempty.
  - intros e He. split; [now apply Hkind | exact (paginate_Rejected limit cursor e He)].
  - intros e He. unfold withEdges, paginateWithEdges in He. fold paginated in He.
    destruct paginated as [r|e'] eqn:Hp.
    + simpl in He. unfold try_catch in He.
      match type of He with
      | match ?body with _ => _ end = _ => destruct body as [r'|e0] eqn:Hbody
      end; [discriminate|].
      assert (e = surfaced "Failed to generate edges" e0) as ->
        by (destruct e0; simpl in He; now injection He as <-).
      split; [apply surfaced_PaginationError|]. right.
      apply bind_Rejected_inv in Hbody as [Hedges|(edges & _ & [=])].
      apply resolveEdges_Rejected in Hedges as [v Hv]. eauto.
    + injection He as <-. split; [now apply Hkind | now left].
  - reflexivity.
  - reflexivity.
  - intros n -> Hn Hsorts. unfold paginated.
    rewrite (paginate_valid n cursor Hn Hsorts).
    split; [intros e ->; reflexivity|].
    intros decodedCursor -> Hsig. cbn [mbind Promise_bind].
    assert (match decodedCursor with
            | Some (Keyset c) =>
                if negb (String.eqb (CursorPayload.sig (payload c)) (sortSignature sorts))
                then Rejected (PaginationError "Page token does not match sort order"
                                               INVALID_TOKEN None)
                else constrained dialect query sorts (Z.of_nat n) decodedCursor
            | _ => constrained dialect query sorts (Z.of_nat n) decodedCursor
            end
            = constrained dialect query sorts (Z.of_nat n) decodedCursor) as ->.
    { destruct decodedCursor as [[c|off]|]; try reflexivity.
      now rewrite (Hsig c eq_refl), String.eqb_refl. }
    split; [intros e ->; reflexivity|].
    intros q ->. cbn [mbind Promise_bind].
    split; [intros e ->; reflexivity|].
    intros rows item e -> Hitem Hfails. cbn [mbind Promise_bind].
    assert (resolvePageTokens (page decodedCursor n rows) sorts cursorCodec
              decodedCursor (n <? length rows) = Rejected e) as ->; [|reflexivity].
    unfold resolvePageTokens, token_of in *.
    destruct (page decodedCursor n rows) as [|first rest] eqn:Hpage.
    { destruct Hitem as [[=]|[[=] _]]. }
    cbn [length Nat.eqb head] in *.
    destruct Hitem as [[= ->]|[Hlast Hfirst]].
    + now rewrite Hfails.
    + destruct (Hfirst first eq_refl) as [t ->]. cbn [mbind Promise_bind].
      rewrite Hlast. now rewrite Hfails.
  - intros e He. unfold withEdges, paginateWithEdges. fold paginated. now rewrite He.
  - intros res e Hres Hedges. unfold withEdges, paginateWithEdges. fold paginated.
    rewrite Hres. cbn [mbind Promise_bind]. rewrite Hedges.
    destruct e; reflexivity.
Qed.

(** C5, as the code has it.  For the token of an incoming [nextPage] or
    [prevPage] cursor: a failure of the codec's [decode] leaves [paginate]
    unchanged if it is a [PaginationError] and else as the cause of an
    [UNEXPECTED_ERROR]; a decoded value that is not of the shape
    [{ sig: string, k: record }] makes [paginate] fail with
    [UNEXPECTED_ERROR], the shape failure as cause; a payload whose [sig]
    differs from the signature of the request's sort set makes it fail with
    [INVALID_TOKEN], whatever the dialect and the executor would do. *)
Theorem paginate_token_failures (n : nat) (cursor : CursorIncoming.t) (token : string) :
  0 < n -> sorts <> [] ->
  token_to_decode cursor token ->
  let paginated :=
    paginate execute query sorts (Int (Z.of_nat n)) (Some cursor) dialect cursorCodec in
  (forall e, decode cursorCodec token = Rejected e ->
             paginated = Rejected (surfaced "Failed to paginate" e))
  /\ (forall v, decode cursorCodec token = Resolved v ->
                ~ payload_shaped v ->
                paginated = Rejected (PaginationError "Failed to paginate"
                                        UNEXPECTED_ERROR (Some ZodError)))
  /\ (forall v p, decode cursorCodec token = Resolved v ->
                  CursorPayloadSchema_parse v = Resolved p ->
                  CursorPayload.sig p <> sortSignature sorts ->
                  paginated = Rejected token_mismatch).
Proof.
  intros Hn Hsorts Htoken paginated. unfold paginated.
  rewrite (paginate_valid n (Some cursor) Hn Hsorts).
  assert (exists ty,
            decodeCursor cursor cursorCodec
            = (p ← decodeCursorPayload token cursorCodec;
               Resolved (Keyset {| type := ty; payload := p |}))) as [ty Hdec].
  { unfold decodeCursor. destruct Htoken as [->|[-> ->]]; eauto. }
  unfold incoming. rewrite Hdec. unfold decodeCursorPayload.
  split; [|split].
  - intros e ->. reflexivity.
  - intros v -> Hshape.
    apply CursorPayloadSchema_parse_shape in Hshape. simpl. now rewrite Hshape.
  - intros v p -> Hp Hsig. simpl. rewrite Hp. simpl.
    now destruct (String.eqb_spec (CursorPayload.sig p) (sortSignature sorts)).
Qed.

(** C6, as the code has it.  An offset cursor is taken as it is, with no
    decoding and no range check: [decodeCursor] returns [{ type: "offset",
    offset: n }] for every number [n], negative and non-integer ones
    included, whatever the codec is, and [paginate] hands the executor the
    query with [applyOffset(q, n)]; the outcome is the executor's.  (The row
    limit of the query is what JavaScript computes for [limit + 1], which is
    [limit + 1] for a limit below [2^53].) *)
Theorem paginate_offset_as_is (n : nat) (off : number) :
  0 < n -> sorts <> [] ->
  let q := applyOffset dialect
             (applyLimit dialect (applySort dialect query sorts)
                         (num_succ (Int (Z.of_nat n))) (Some TOffset)) off in
  let paginated :=
    paginate execute query sorts (Int (Z.of_nat n)) (Some (at_offset off))
             dialect cursorCodec in
  decodeCursor (at_offset off) cursorCodec = Resolved (Offset off)
  /\ (forall e, execute q = Rejected e ->
                paginated = Rejected (surfaced "Failed to paginate" e))
  /\ (forall rows tokens,
        execute q = Resolved rows ->
        resolvePageTokens (take n rows) sorts cursorCodec (Some (Offset off))
                          (n <? length rows) = Resolved tokens ->
        paginated
        = Resolved {| PaginatedResult.items := take n rows;
                      PaginatedResult.prevPage := CursorOutgoing.prevPage tokens;
                      PaginatedResult.nextPage := CursorOutgoing.nextPage tokens;
                      PaginatedResult.startCursor := CursorOutgoing.startCursor tokens;
                      PaginatedResult.endCursor := CursorOutgoing.endCursor tokens;
                      PaginatedResult.hasPrevPage :=
                        truthy (CursorOutgoing.prevPage tokens);
                      PaginatedResult.hasNextPage :=
                        truthy (CursorOutgoing.nextPage tokens) |})
  /\ ((Z.of_nat n < 2 ^ 53)%Z ->
      num_succ (Int (Z.of_nat n)) = Int (Z.of_nat n + 1)).
Proof.
  intros Hn Hsorts q paginated. split; [reflexivity|].
  unfold paginated. rewrite (paginate_valid n _ Hn Hsorts).
  unfold incoming, at_offset, decodeCursor; simpl.
  unfold constrained, effectiveSorts, type_of; simpl. fold q.
  split; [|split].
  - intros e ->. reflexivity.
  - intros rows tokens -> Htokens. simpl.
    unfold page, type_of. simpl. now rewrite Htokens.
  - apply num_succ_exact.
Qed.

(** C10.  [decodeCursor] looks for the keys [nextPage], [prevPage] and
    [offset] in this order: a cursor object with none of them makes it, and
    [paginate], fail with [INVALID_TOKEN] (it is not read as a first page);
    a cursor with [nextPage] is decoded as [next] whatever other keys it
    has, and one with [prevPage] and no [nextPage] as [prev] whether or not
    it has [offset]. *)
Theorem decodeCursor_key_order (n : nat) :
  0 < n -> sorts <> [] ->
  decodeCursor no_cursor_key cursorCodec = Rejected invalid_cursor
  /\ paginate execute query sorts (Int (Z.of_nat n)) (Some no_cursor_key)
              dialect cursorCodec
     = Rejected invalid_cursor
  /\ error_code invalid_cursor = Some INVALID_TOKEN
  /\ (forall token other off,
        decodeCursor {| CursorIncoming.nextPage := Some token;
                        CursorIncoming.prevPage := other;
                        CursorIncoming.offset := off |} cursorCodec
        = (p ← decodeCursorPayload token cursorCodec;
           Resolved (Keyset {| type := KNext; payload := p |})))
  /\ (forall token off,
        decodeCursor {| CursorIncoming.nextPage := None;
                        CursorIncoming.prevPage := Some token;
                        CursorIncoming.offset := off |} cursorCodec
        = (p ← decodeCursorPayload token cursorCodec;
           Resolved (Keyset {| type := KPrev; payload := p |})))
  /\ (forall off,
        decodeCursor {| CursorIncoming.nextPage := None;
                        CursorIncoming.prevPage := None;
                        CursorIncoming.offset := Some off |} cursorCodec
        = Resolved (Offset off)).
Proof.
  intros Hn Hsorts. repeat split.
  now rewrite (paginate_valid n _ Hn Hsorts).
Qed.

End PaginatorProperties.

(** ** The paginator on a table of five users *)

Example paginate_first_page :
  paginate (execute_on five_users) [] byId (Int 2) None
           SqlitePaginationDialect idTokenCodec
  = Resolved first_page.
Proof. vm_compute. reflexivity. Qed.

Example paginate_second_page :
  paginate (execute_on five_users) [] byId (Int 2) (Some (next_page "b"))
           SqlitePaginationDialect idTokenCodec
  = Resolved second_page.
Proof. vm_compute. reflexivity. Qed.

(** Paging back from the second page gives the first page, in its order. *)
Example paginate_back_to_first_page :
  paginate (execute_on five_users) [] byId (Int 2) (Some (prev_page "c"))
           SqlitePaginationDialect idTokenCodec
  = Resolved first_page.
Proof. vm_compute. reflexivity. Qed.

(** Paging backward from ["d"]: the query is ordered by id descending, its
    rows are d's predecessors c, b, a, and the items are the first two of
    them, reversed. *)
Lemma paginate_sorts_and_items_witness :
  paginate (execute_on five_users) [] byId (Int 2) (Some (prev_page "d"))
           SqlitePaginationDialect idTokenCodec
  = Resolved page_before_d
  /\ exists rows,
       execute_on five_users
         [OrderBy (RefString "id") desc None; Limit (Int 3);
          Where (Eb (RefString "id") OpLt (VStr "d"))]
       = Resolved rows
       /\ PaginatedResult.items page_before_d = rev (take 2 rows).
Proof.
  assert (paginate (execute_on five_users) [] byId (Int 2) (Some (prev_page "d"))
                   SqlitePaginationDialect idTokenCodec
          = Resolved page_before_d) as Hrun by (vm_compute; reflexivity).
  split; [exact Hrun|].
  destruct (paginate_sorts_and_items _ _ _ _ _ _ _ _ Hrun)
    as (n & decodedCursor & q & rows & Hn & Hdec & Hq & Hrows & Hprev & _).
  assert (n = 2) as -> by (injection Hn; lia).
  assert (decodedCursor = Some before_d) as ->
    by (vm_compute in Hdec; now injection Hdec as <-).
  assert (q = [OrderBy (RefString "id") desc None; Limit (Int 3);
               Where (Eb (RefString "id") OpLt (VStr "d"))]) as ->
    by (vm_compute in Hq; now injection Hq as <-).
  exists rows. split; [exact Hrows|]. now apply Hprev.
Defined.

(** The first page of [five_users]: its [prevPage] is absent, and its
    [nextPage] is its [endCursor], a non-empty token. *)
Lemma paginate_page_tokens_witness :
  paginate (execute_on five_users) [] byId (Int 2) None
           SqlitePaginationDialect idTokenCodec
  = Resolved first_page
  /\ PaginatedResult.prevPage first_page = None
  /\ (PaginatedResult.hasNextPage first_page = true
      <-> exists t, PaginatedResult.nextPage first_page = Some t /\ t <> EmptyString).
Proof.
  assert (paginate (execute_on five_users) [] byId (Int 2) None
                   SqlitePaginationDialect idTokenCodec
          = Resolved first_page) as Hrun by (vm_compute; reflexivity).
  split; [exact Hrun|].
  destruct (paginate_page_tokens _ _ _ _ _ _ _ _ Hrun)
    as (n & decodedCursor & q & rows & _ & _ & _ & _ & _ & _ & Hnext & _ & _ & Hfirst).
  split; [now apply Hfirst | exact Hnext].
Defined.

(** C3, where the code departs from it.  With a codec whose token is the
    id of the row, and a table of two rows of which one has the empty id,
    the first page of one row has a [nextPage], the token [""] of its last
    item, and a row remains after it; yet [hasNextPage] is false:
    [!!nextPage] takes the empty token for an absent one. *)
Lemma paginate_hasNextPage_empty_token :
  exists res,
    paginate (execute_on (users ["a"; ""])) [] byId (Int 1) None
             SqlitePaginationDialect idTokenCodec
    = Resolved res
    /\ execute_on (users ["a"; ""]) [OrderBy (RefString "id") asc None; Limit (Int 2)]
       = Resolved (users [""; "a"])
    /\ PaginatedResult.items res = users [""]
    /\ PaginatedResult.nextPage res = Some EmptyString
    /\ PaginatedResult.nextPage res = PaginatedResult.endCursor res
    /\ PaginatedResult.hasNextPage res = false.
Proof. eexists. split; [vm_compute; reflexivity|]. repeat split. Qed.

(** A token the codec cannot decode: the failure is the cause of an
    [UNEXPECTED_ERROR]. *)
Lemma paginate_token_failures_witness :
  paginate (execute_on five_users) [] byId (Int 2) (Some (next_page "b"))
           SqlitePaginationDialect rejectingCodec
  = Rejected (PaginationError "Failed to paginate" UNEXPECTED_ERROR
                (Some (GenericError "SyntaxError" "Unexpected token"))).
Proof.
  apply (proj1 (paginate_token_failures (execute_on five_users)
                  SqlitePaginationDialect rejectingCodec [] byId 2
                  (next_page "b") "b"
                  ltac:(lia) ltac:(discriminate) (or_introl eq_refl))
           (GenericError "SyntaxError" "Unexpected token")).
  reflexivity.
Defined.

(** C5, as the specification states it, fails: a token whose decoding fails,
    and a token that decodes to a value of another shape than a payload, make
    [paginate] fail with [UNEXPECTED_ERROR], not [INVALID_TOKEN]. *)
Lemma paginate_undecodable_token_counterexample :
  (exists e,
     decode rejectingCodec "b" = Rejected e
     /\ paginate (execute_on five_users) [] byId (Int 2) (Some (next_page "b"))
                 SqlitePaginationDialect rejectingCodec
        = Rejected (PaginationError "Failed to paginate" UNEXPECTED_ERROR (Some e)))
  /\ (decode nullCodec "b" = Resolved VNull
      /\ ~ payload_shaped VNull
      /\ paginate (execute_on five_users) [] byId (Int 2) (Some (prev_page "b"))
                  SqlitePaginationDialect nullCodec
         = Rejected (PaginationError "Failed to paginate" UNEXPECTED_ERROR
                       (Some ZodError)))
  /\ UNEXPECTED_ERROR <> INVALID_TOKEN.
Proof.
  split; [|split].
  - eexists. split; reflexivity.
  - split; [reflexivity|]. split; [|reflexivity].
    intros (o & s & r & [=] & _).
  - discriminate.
Qed.

(** The offset [-1] reaches the query as it is. *)
Lemma paginate_offset_as_is_witness :
  decodeCursor (at_offset (Int (-1))) rejectingCodec = Resolved (Offset (Int (-1)))
  /\ paginate (execute_on five_users) [] byId (Int 2) (Some (at_offset (Dyadic 0 1)))
              SqlitePaginationDialect idTokenCodec
     = Rejected (PaginationError "Failed to paginate" UNEXPECTED_ERROR
                   (Some (GenericError "SqliteError" "datatype mismatch"))).
Proof.
  split.
  - apply (paginate_offset_as_is (execute_on five_users) SqlitePaginationDialect
             rejectingCodec [] byId 2 (Int (-1)) ltac:(lia) ltac:(discriminate)).
  - apply (proj1 (proj2 (paginate_offset_as_is (execute_on five_users)
                           SqlitePaginationDialect idTokenCodec [] byId 2 (Dyadic 0 1)
                           ltac:(lia) ltac:(discriminate)))
             (GenericError "SqliteError" "datatype mismatch")).
    reflexivity.
Defined.

(** C6, as the specification states it, fails: with the offset [-1]
    [paginate] does not fail; the query it executes carries [OFFSET -1], which
    SQLite reads as no offset, and the call resolves with the first rows. *)
Lemma paginate_negative_offset_counterexample :
  exists res,
    paginate (execute_on five_users) [] byId (Int 2) (Some (at_offset (Int (-1))))
             SqlitePaginationDialect idTokenCodec
    = Resolved res
    /\ PaginatedResult.items res = users ["a"; "b"]
    /\ constrained SqlitePaginationDialect [] byId 2 (Some (Offset (Int (-1))))
       = Resolved [OrderBy (RefString "id") asc None; Limit (Int 3);
                   OffsetRows (Int (-1))].
Proof. eexists. split; [vm_compute; reflexivity|]. split; reflexivity. Qed.

(** A limit of 0, an empty sort set, and an offset the executor refuses:
    both calls are rejected with the executor's failure as cause. *)
Lemma paginate_error_surface_witness :
  paginate (execute_on five_users) [] byId (Int 0) None
           SqlitePaginationDialect idTokenCodec
  = Rejected invalid_limit
  /\ paginateWithEdges (execute_on five_users) [] [] (Int 2) None
                       SqlitePaginationDialect idTokenCodec
     = Rejected invalid_sort
  /\ paginate (execute_on five_users) [] byId (Int 2) (Some (at_offset (Dyadic 0 1)))
              SqlitePaginationDialect idTokenCodec
     = Rejected (PaginationError "Failed to paginate" UNEXPECTED_ERROR
                   (Some (GenericError "SqliteError" "datatype mismatch")))
  /\ paginateWithEdges (execute_on five_users) [] byId (Int 2)
                       (Some (at_offset (Dyadic 0 1)))
                       SqlitePaginationDialect idTokenCodec
     = Rejected (PaginationError "Failed to paginate" UNEXPECTED_ERROR
                   (Some (GenericError "SqliteError" "datatype mismatch"))).
Proof.
  split; [|split].
  - apply (proj1 (paginate_error_surface (execute_on five_users)
                    SqlitePaginationDialect idTokenCodec [] byId (Int 0) None)).
    intros (z & [= <-] & Hz). lia.
  - apply (proj1 (proj2 (paginate_error_surface (execute_on five_users)
                           SqlitePaginationDialect idTokenCodec [] [] (Int 2) None)));
      [exists 2%Z; split; [reflexivity | lia] | reflexivity].
  - destruct (paginate_error_surface (execute_on five_users) SqlitePaginationDialect
                idTokenCodec [] byId (Int 2) (Some (at_offset (Dyadic 0 1))))
      as (_ & _ & _ & _ & _ & _ & Hfails & Hedges & _).
    destruct (Hfails 2 eq_refl ltac:(lia) ltac:(discriminate)) as [_ Hdecoded].
    destruct (Hdecoded (Some (Offset (Dyadic 0 1))) eq_refl ltac:(discriminate))
      as [_ Hq].
    destruct (Hq _ eq_refl) as [Hexecute _].
    pose proof (Hexecute (GenericError "SqliteError" "datatype mismatch") eq_refl)
      as Hrejected.
    split; [exact Hrejected | exact (Hedges _ Hrejected)].
Defined.

(** A cursor object with no key, and one with all three. *)
Lemma decodeCursor_key_order_witness :
  paginate (execute_on five_users) [] byId (Int 2) (Some no_cursor_key)
           SqlitePaginationDialect idTokenCodec
  = Rejected invalid_cursor
  /\ decodeCursor {| CursorIncoming.nextPage := Some "b";
                     CursorIncoming.prevPage := Some "d";
                     CursorIncoming.offset := Some (Int 1) |} idTokenCodec
     = decodeCursor (next_page "b") idTokenCodec.
Proof.
  destruct (decodeCursor_key_order (execute_on five_users) SqlitePaginationDialect
              idTokenCodec [] byId 2 ltac:(lia) ltac:(discriminate))
    as (_ & Hnone & _ & Hnext & _).
  split; [exact Hnone|].
  rewrite (Hnext "b" (Some "d") (Some (Int 1))). symmetry. exact (Hnext "b" None None).
Defined.

(** ** What the keyset predicate means *)

Section KeysetOrder.

Variable sorts : list SortItem.
Variable decoded : CursorPayload.t.
Variable row : Row.

Let k := CursorPayload.k decoded.

Hypothesis positions_ok :
  forall j s, sorts !! j = Some s ->
              position_ok row k (j =? length sorts - 1) s.

Lemma is_null_VNull (cv : JsValue) :
  cv <> VUndefined -> is_null cv = true -> cv = VNull.
Proof. destruct cv; simpl; congruence. Qed.

Lemma value_not_null {T : Type} (cv : JsValue) (x y : T) :
  cv <> VNull -> match cv with VNull => x | _ => y end = y.
Proof. destruct cv; congruence. Qed.

Lemma keyset_predicate_from (d idx : nat) :
  d = length sorts - idx -> idx < length sorts ->
  exists e,
    buildCursorPredicateRecursive sorts decoded idx = Resolved e
    /\ (eval row e = Some true <-> sorts_after row k (drop idx sorts) = true).
Proof.
  revert idx. induction d as [|d IH]; intros idx Hd Hlt; [lia|].
  destruct (lookup_lt_is_Some_2 sorts idx Hlt) as [sort Hidx].
  destruct (positions_ok idx sort Hidx) as (cv & Hcv & Hdef & Hcmp & Hfinal).
  rewrite buildCursorPredicateRecursive_body, Hidx. cbn zeta. fold k.
  destruct (has_own k _ _ Hcv) as [Hhas Hget]. rewrite Hhas, Hget. cbn [negb].
  rewrite (drop_S _ _ _ Hidx). cbn [sorts_after]. rewrite Hget.
  set (rv := column_value row (col sort)) in *.
  destruct (Nat.eqb_spec idx (length sorts - 1)) as [Hlast|Hearlier].
  - destruct (Hfinal eq_refl) as [Hrv Hcvn].
    destruct (Hcmp Hrv Hcvn) as [c Hc].
    eexists; split; [reflexivity|].
    rewrite drop_ge by lia. cbn [sorts_after]. rewrite andb_false_r, orb_false_r.
    unfold after_at. cbn [eval]. fold rv. unfold eval_binary.
    rewrite Hrv, Hcvn, Hc. cbn [orb].
    destruct (applyDefaultDirection (dir sort)), c; simpl; split; congruence.
  - destruct (IH (idx + 1)) as (next & Hnext & Hiff); [lia | lia |].
    rewrite Hnext. cbn [mbind Promise_bind].
    replace (S idx) with (idx + 1) by lia.
    destruct (sorts_after row k (drop (idx + 1) sorts)) eqn:Hlater.
    + assert (eval row next = Some true) as Hn by now apply Hiff.
      clear Hiff. unfold after_at, tie_at.
      destruct (is_null cv) eqn:Hcvn.
      * apply (is_null_VNull cv Hdef) in Hcvn as ->.
        destruct (applyDefaultDirection (dir sort)), (is_null rv) eqn:Hrv;
          eexists; (split; [reflexivity|]); cbn [eval fold_right]; fold rv;
          unfold eval_binary; rewrite Hrv, Hn; simpl; split; congruence.
      * destruct (is_null rv) eqn:Hrv.
        -- rewrite (value_not_null cv) by (intros ->; discriminate).
           destruct (applyDefaultDirection (dir sort));
             eexists; (split; [reflexivity|]); cbn [eval fold_right app]; fold rv;
             unfold eval_binary; rewrite Hrv, Hcvn, Hn; simpl; split; congruence.
        -- destruct (Hcmp eq_refl eq_refl) as [c Hc].
           rewrite (value_not_null cv) by (intros ->; discriminate).
           destruct (applyDefaultDirection (dir sort)), c;
             eexists; (split; [reflexivity|]); cbn [eval fold_right app]; fold rv;
             unfold eval_binary; rewrite Hrv, Hcvn, Hc, Hn; simpl; split; congruence.
    + assert (eval row next <> Some true) as Hn
        by (intros Hn; apply Hiff in Hn; discriminate).
      clear Hiff. unfold after_at, tie_at. rewrite !andb_false_r, !orb_false_r.
      destruct (is_null cv) eqn:Hcvn.
      * apply (is_null_VNull cv Hdef) in Hcvn as ->.
        destruct (applyDefaultDirection (dir sort)), (is_null rv) eqn:Hrv;
          eexists; (split; [reflexivity|]); cbn [eval fold_right]; fold rv;
          unfold eval_binary; rewrite Hrv; simpl;
          destruct (eval row next) as [[]|]; simpl; split; congruence.
      * destruct (is_null rv) eqn:Hrv.
        -- rewrite (value_not_null cv) by (intros ->; discriminate).
           destruct (applyDefaultDirection (dir sort));
             eexists; (split; [reflexivity|]); cbn [eval fold_right app]; fold rv;
             unfold eval_binary; rewrite Hrv, Hcvn; simpl;
             destruct (eval row next) as [[]|]; simpl; split; congruence.
        -- destruct (Hcmp eq_refl eq_refl) as [c Hc].
           rewrite (value_not_null cv) by (intros ->; discriminate).
           destruct (applyDefaultDirection (dir sort)), c;
             eexists; (split; [reflexivity|]); cbn [eval fold_right app]; fold rv;
             unfold eval_binary; rewrite Hrv, Hcvn, Hc; simpl;
             destruct (eval row next) as [[]|]; simpl; split; congruence.
Qed.


(** X1.  The keyset predicate means "after the cursor".  When the cursor has a
    defined value for every position, values met at a position are of one
    sortable type, and the final column is not NULL in the row or the cursor,
    [buildCursorPredicateRecursive] returns a predicate that is true of a row
    exactly when the row sorts strictly after the cursor position: after it
    at some position and tied with it at all earlier ones, NULL sorting first
    in ascending and last in descending order. *)
Theorem keyset_predicate_order :
  sorts <> [] ->
  exists e,
    buildCursorPredicateRecursive sorts decoded 0 = Resolved e
    /\ (eval row e = Some true <-> sorts_after row k sorts = true).
Proof.
  intros Hsorts.
  destruct (keyset_predicate_from (length sorts - 0) 0 eq_refl) as (e & He & Hiff).
  - destruct sorts; [congruence | simpl; lia].
  - exists e. split; [exact He|]. now rewrite drop_0 in Hiff.
Qed.

End KeysetOrder.

Lemma cursor_30_5_positions (row : Row) :
  (exists age, row !! "age" = Some age
               /\ (age = VNull \/ exists z, age = VNum (Int z))) ->
  (exists z, row !! "id" = Some (VNum (Int z))) ->
  forall j s, byAgeThenId !! j = Some s ->
              position_ok row (CursorPayload.k cursor_30_5)
                          (j =? length byAgeThenId - 1) s.
Proof.
  intros (age & Hage & Hkind) (id & Hid) j s Hs.
  destruct j as [|[|j]]; simpl in Hs; [| |discriminate]; injection Hs as <-.
  - exists (VNum (Int 30)). split; [reflexivity|]. split; [discriminate|].
    unfold column_value; simpl. rewrite Hage; simpl. split; [|discriminate].
    destruct Hkind as [->|[z ->]]; simpl; [discriminate | eauto].
  - exists (VNum (Int 5)). split; [reflexivity|]. split; [discriminate|].
    unfold column_value; simpl. rewrite Hid; simpl. eauto.
Qed.

(** Under [age desc, id asc] and the cursor [{ age: 30, id: 5 }]: the row
    [{ age: 30, id: 6 }] is after the cursor and satisfies the predicate. *)
Lemma keyset_predicate_order_witness :
  exists e,
    buildCursorPredicateRecursive byAgeThenId cursor_30_5 0 = Resolved e
    /\ eval (person 6 (VNum (Int 30))) e = Some true.
Proof.
  destruct (keyset_predicate_order byAgeThenId cursor_30_5 (person 6 (VNum (Int 30))))
    as (e & He & Hiff).
  - apply cursor_30_5_positions.
    + exists (VNum (Int 30)). split; [reflexivity | right; eauto].
    + exists 6%Z. reflexivity.
  - discriminate.
  - exists e. split; [exact He|]. apply Hiff. reflexivity.
Defined.

(** The rows of the specification's example: younger rows, rows of the same
    age with a greater id and rows of unknown age are after the cursor; rows
    of the same age with a smaller id and older rows are not. *)
Example keyset_predicate_rows :
  exists e,
    buildCursorPredicateRecursive byAgeThenId cursor_30_5 0 = Resolved e
    /\ eval (person 1 (VNum (Int 29))) e = Some true
    /\ eval (person 6 (VNum (Int 30))) e = Some true
    /\ eval (person 1 VNull) e = Some true
    /\ eval (person 4 (VNum (Int 30))) e = Some false
    /\ eval (person 9 (VNum (Int 31))) e = Some false.
Proof. eexists. split; [vm_compute; reflexivity|]. repeat split. Qed.

(** ** Edges *)

Lemma resolveEdges_Resolved (rows : list Row) (sorts : list SortItem)
    (codec : CursorCodec) (edges : list EdgeOutgoing.t) :
  resolveEdges rows sorts codec = Resolved edges ->
  map EdgeOutgoing.node edges = rows
  /\ Forall (fun e => token_of codec sorts (EdgeOutgoing.node e) = Resolved (EdgeOutgoing.cursor e)) edges.
Proof.
  unfold resolveEdges.
  assert (forall edges, resolveEdges_all rows sorts codec = Resolved edges ->
            map EdgeOutgoing.node edges = rows
            /\ Forall (fun e => token_of codec sorts (EdgeOutgoing.node e) = Resolved (EdgeOutgoing.cursor e))
                      edges) as Hall.
  { clear edges. induction rows as [|row rest IH]; simpl; intros edges H.
    - injection H as <-. split; [reflexivity | constructor].
    - apply bind_Resolved_inv in H as (c & Hc & H).
      apply bind_Resolved_inv in H as (tail & Htail & [= <-]).
      destruct (IH tail Htail) as [Hnodes Htokens].
      split; [simpl; now rewrite Hnodes | constructor; assumption]. }
  destruct rows as [|row rest]; [|exact (Hall edges)].
  simpl. intros [= <-]. split; [reflexivity | constructor].
Qed.

Section Edges.

Context {Q : Type}.
Variable execute : Q -> Promise (list Row).
Variable dialect : PaginationDialect Q.
Variable cursorCodec : CursorCodec.
Variable query : Q.
Variable sorts : list SortItem.

(** X2.  [paginateWithEdges] runs [paginate] and returns, in place of the items,
    one edge per item in the same order: the item as [node] and the encoding
    of its [{ sig, k }] payload as [cursor]; the page cursors and flags are
    those of [paginate]. *)
Theorem paginateWithEdges_edges (limit : number) (cursor : option CursorIncoming.t)
    (res : PaginatedResultWithEdges.t) :
  paginateWithEdges execute query sorts limit cursor dialect cursorCodec
  = Resolved res ->
  exists page,
    paginate execute query sorts limit cursor dialect cursorCodec = Resolved page
    /\ map EdgeOutgoing.node (PaginatedResultWithEdges.edges res) = PaginatedResult.items page
    /\ Forall (fun e => token_of cursorCodec sorts (EdgeOutgoing.node e) = Resolved (EdgeOutgoing.cursor e))
              (PaginatedResultWithEdges.edges res)
    /\ PaginatedResultWithEdges.prevPage res = PaginatedResult.prevPage page
    /\ PaginatedResultWithEdges.nextPage res = PaginatedResult.nextPage page
    /\ PaginatedResultWithEdges.startCursor res = PaginatedResult.startCursor page
    /\ PaginatedResultWithEdges.endCursor res = PaginatedResult.endCursor page
    /\ PaginatedResultWithEdges.hasPrevPage res = PaginatedResult.hasPrevPage page
    /\ PaginatedResultWithEdges.hasNextPage res = PaginatedResult.hasNextPage page.
Proof.
  unfold paginateWithEdges. intros H.
  apply bind_Resolved_inv in H as (page & Hpage & H).
  exists page. split; [exact Hpage|].
  unfold try_catch in H.
  destruct (resolveEdges (PaginatedResult.items page) sorts cursorCodec)
    as [edges|e] eqn:Hedges; simpl in H.
  - injection H as <-. simpl.
    apply resolveEdges_Resolved in Hedges as [Hnodes Htokens].
    repeat split; assumption.
  - destruct (instanceof_PaginationError e); discriminate.
Qed.

End Edges.

Lemma paginateWithEdges_edges_witness :
  exists res,
    paginateWithEdges (execute_on five_users) [] byId (Int 2) None
                      SqlitePaginationDialect idTokenCodec
    = Resolved res
    /\ map EdgeOutgoing.node (PaginatedResultWithEdges.edges res) = users ["a"; "b"].
Proof.
  eexists. split; [vm_compute; reflexivity|].
  match goal with
  | |- map EdgeOutgoing.node (PaginatedResultWithEdges.edges ?r) = _ =>
      destruct (paginateWithEdges_edges (execute_on five_users) SqlitePaginationDialect
                  idTokenCodec [] byId (Int 2) None r)
        as (page & Hpage & Hnodes & _)
  end.
  - vm_compute. reflexivity.
  - rewrite Hnodes. vm_compute in Hpage. now injection Hpage as <-.
Defined.

(** ** The round trip of the base64url codec *)

Lemma each_below_spec (n : nat) (P : Z -> bool) :
  each_below n P = true -> forall z, (0 <= z < Z.of_nat n)%Z -> P z = true.
Proof.
  unfold each_below. rewrite forallb_forall. intros Hall z Hz.
  apply Hall, in_map_iff. exists (Z.to_nat z). split; [lia|].
  apply in_seq. lia.
Qed.

Lemma unbase64_base64url_char (v : Z) :
  (0 <= v < 64)%Z -> Buffer.unbase64 (Buffer.base64url_char v) = Some v.
Proof.
  intros Hv.
  assert (each_below 64
            (fun v => match Buffer.unbase64 (Buffer.base64url_char v) with
                      | Some v' => (v' =? v)%Z
                      | None => false
                      end) = true) as Hall by (vm_compute; reflexivity).
  apply each_below_spec with (z := v) in Hall; [|lia].
  destruct (Buffer.unbase64 (Buffer.base64url_char v)) as [v'|]; [|discriminate].
  f_equal. lia.
Qed.

Lemma sextets_in_range (b0 b1 : Z) :
  is_byte b0 -> is_byte b1 ->
  (0 <= sextet0 b0 < 64 /\ 0 <= sextet1 b0 b1 < 64
   /\ 0 <= sextet2 b0 b1 < 64 /\ 0 <= sextet3 b0 < 64)%Z.
Proof.
  intros H0 H1.
  assert (each_below 256 (fun b0 => each_below 256 (fun b1 =>
            (0 <=? sextet0 b0) && (sextet0 b0 <? 64)
            && (0 <=? sextet1 b0 b1) && (sextet1 b0 b1 <? 64)
            && (0 <=? sextet2 b0 b1) && (sextet2 b0 b1 <? 64)
            && (0 <=? sextet3 b0) && (sextet3 b0 <? 64))%Z) = true) as Hall
    by (vm_compute; reflexivity).
  apply each_below_spec with (z := b0) in Hall; [|exact H0].
  apply each_below_spec with (z := b1) in Hall; [|exact H1].
  lia.
Qed.

(** The three bytes of a group, put together again from its four values. *)
Lemma group_first_byte (b0 b1 : Z) :
  is_byte b0 -> is_byte b1 ->
  Z.lor (Z.shiftl (sextet0 b0) 2) (Z.shiftr (sextet1 b0 b1) 4) = b0.
Proof.
  intros H0 H1.
  assert (each_below 256 (fun b0 => each_below 256 (fun b1 =>
            Z.lor (Z.shiftl (sextet0 b0) 2) (Z.shiftr (sextet1 b0 b1) 4) =? b0)%Z)
          = true) as Hall by (vm_compute; reflexivity).
  apply each_below_spec with (z := b0) in Hall; [|exact H0].
  apply each_below_spec with (z := b1) in Hall; [|exact H1].
  lia.
Qed.

Lemma group_second_byte (x b1 y : Z) :
  (0 <= x < 4)%Z -> is_byte b1 -> (0 <= y < 4)%Z ->
  Z.lor (Z.shiftl (Z.land (Z.lor (Z.shiftl x 4) (Z.shiftr b1 4)) 15) 4)
        (Z.shiftr (Z.lor (Z.shiftl (Z.land b1 15) 2) y) 2) = b1.
Proof.
  intros Hx H1 Hy.
  assert (each_below 4 (fun x => each_below 256 (fun b1 => each_below 4 (fun y =>
            Z.lor (Z.shiftl (Z.land (Z.lor (Z.shiftl x 4) (Z.shiftr b1 4)) 15) 4)
                  (Z.shiftr (Z.lor (Z.shiftl (Z.land b1 15) 2) y) 2) =? b1)%Z))
          = true) as Hall by (vm_compute; reflexivity).
  apply each_below_spec with (z := x) in Hall; [|exact Hx].
  apply each_below_spec with (z := b1) in Hall; [|exact H1].
  apply each_below_spec with (z := y) in Hall; [|exact Hy].
  lia.
Qed.

Lemma group_third_byte (x b2 : Z) :
  (0 <= x < 16)%Z -> is_byte b2 ->
  Z.lor (Z.shiftl (Z.land (Z.lor (Z.shiftl x 2) (Z.shiftr b2 6)) 3) 6) (sextet3 b2)
  = b2.
Proof.
  intros Hx H2.
  assert (each_below 16 (fun x => each_below 256 (fun b2 =>
            Z.lor (Z.shiftl (Z.land (Z.lor (Z.shiftl x 2) (Z.shiftr b2 6)) 3) 6)
                  (sextet3 b2) =? b2)%Z) = true) as Hall by (vm_compute; reflexivity).
  apply each_below_spec with (z := x) in Hall; [|exact Hx].
  apply each_below_spec with (z := b2) in Hall; [|exact H2].
  lia.
Qed.

Lemma byte_parts (b : Z) :
  is_byte b ->
  (0 <= Z.land b 3 < 4 /\ 0 <= Z.land b 15 < 16 /\ 0 <= Z.shiftr b 6 < 4)%Z.
Proof.
  intros Hb.
  assert (each_below 256 (fun b =>
            (0 <=? Z.land b 3) && (Z.land b 3 <? 4)
            && (0 <=? Z.land b 15) && (Z.land b 15 <? 16)
            && (0 <=? Z.shiftr b 6) && (Z.shiftr b 6 <? 4))%Z = true) as Hall
    by (vm_compute; reflexivity).
  apply each_below_spec with (z := b) in Hall; [|exact Hb]. lia.
Qed.

(** Decoding the base64url text of a buffer gives the buffer back. *)
Lemma from_base64url_toString (bs : list Z) :
  Forall is_byte bs ->
  Buffer.bytes_of_sextets (Buffer.sextets (Buffer.toString_base64url bs)) = bs.
Proof.
  induction bs as [|b0|b0 b1|b0 b1 b2 rest IH] using list_by_three; intros Hbs.
  - reflexivity.
  - apply Forall_cons_1 in Hbs as [H0 _].
    assert (is_byte 0) as Hz by (unfold is_byte; lia).
    destruct (sextets_in_range b0 0 H0 Hz) as (Hs0 & Hs1 & _).
    cbn [Buffer.toString_base64url Buffer.sextets].
    change (Z.shiftr b0 2) with (sextet0 b0).
    replace (Z.shiftl (Z.land b0 3) 4) with (sextet1 b0 0)
      by (unfold sextet1; now rewrite Z.shiftr_0_l, Z.lor_0_r).
    rewrite !unbase64_base64url_char by assumption.
    cbn [Buffer.bytes_of_sextets]. now rewrite group_first_byte.
  - apply Forall_cons_1 in Hbs as [H0 [H1 _]%Forall_cons_1].
    assert (is_byte 0) as Hz by (unfold is_byte; lia).
    destruct (sextets_in_range b0 b1 H0 H1) as (Hs0 & Hs1 & _).
    destruct (sextets_in_range b1 0 H1 Hz) as (_ & _ & Hs2 & _).
    destruct (byte_parts b0 H0) as (Hx & _), (byte_parts b1 H1) as (_ & Hy & _).
    cbn [Buffer.toString_base64url Buffer.sextets].
    change (Z.shiftr b0 2) with (sextet0 b0).
    change (Z.lor (Z.shiftl (Z.land b0 3) 4) (Z.shiftr b1 4)) with (sextet1 b0 b1).
    replace (Z.shiftl (Z.land b1 15) 2) with (sextet2 b1 0)
      by (unfold sextet2; now rewrite Z.shiftr_0_l, Z.lor_0_r).
    rewrite !unbase64_base64url_char by assumption.
    cbn [Buffer.bytes_of_sextets]. rewrite group_first_byte by assumption.
    unfold sextet1, sextet2. rewrite Z.shiftr_0_l.
    rewrite (group_second_byte (Z.land b0 3) b1 0) by (assumption || lia).
    reflexivity.
  - apply Forall_cons_1 in Hbs as [H0 [H1 [H2 Hrest]%Forall_cons_1]%Forall_cons_1].
    destruct (sextets_in_range b0 b1 H0 H1) as (Hs0 & Hs1 & _).
    destruct (sextets_in_range b1 b2 H1 H2) as (_ & _ & Hs2 & _).
    destruct (sextets_in_range b2 b2 H2 H2) as (_ & _ & _ & Hs3).
    destruct (byte_parts b0 H0) as (Hx & _), (byte_parts b1 H1) as (_ & Hy & _),
             (byte_parts b2 H2) as (_ & _ & Hz).
    cbn [Buffer.toString_base64url Buffer.sextets].
    change (Z.shiftr b0 2) with (sextet0 b0).
    change (Z.lor (Z.shiftl (Z.land b0 3) 4) (Z.shiftr b1 4)) with (sextet1 b0 b1).
    change (Z.lor (Z.shiftl (Z.land b1 15) 2) (Z.shiftr b2 6)) with (sextet2 b1 b2).
    change (Z.land b2 63) with (sextet3 b2).
    rewrite !unbase64_base64url_char by assumption.
    cbn [Buffer.bytes_of_sextets]. rewrite (IH Hrest).
    rewrite group_first_byte by assumption.
    unfold sextet1 at 1. unfold sextet2.
    rewrite (group_second_byte (Z.land b0 3) b1 (Z.shiftr b2 6)) by assumption.
    now rewrite (group_third_byte (Z.land b1 15) b2).
Qed.

Lemma from_utf8_bytes (s : string) : Forall is_byte (Buffer.from_utf8 s).
Proof.
  unfold Buffer.from_utf8. apply Forall_map, Forall_forall. intros c _.
  unfold is_byte, Buffer.byte_of_ascii.
  pose proof (nat_ascii_bounded c). lia.
Qed.

Lemma string_of_bytes_from_utf8 (s : string) :
  Buffer.string_of_bytes (Buffer.from_utf8 s) = s.
Proof.
  unfold Buffer.string_of_bytes, Buffer.from_utf8. rewrite map_map.
  rewrite (map_ext _ (fun c => c)), map_id.
  - apply string_of_list_ascii_of_string.
  - intros c. unfold Buffer.ascii_of_byte, Buffer.byte_of_ascii.
    rewrite Nat2Z.id. apply ascii_nat_embedding.
Qed.

(** The UTF-8 decoder leaves ASCII bytes as they are. *)
Lemma utf8_decode_ascii (bs : list Z) :
  Forall (fun b => (0 <= b < 128)%Z) bs -> Buffer.utf8_decode None bs = bs.
Proof.
  induction 1 as [|b rest Hb _ IH]; simpl; [reflexivity|].
  unfold Buffer.utf8_lead.
  destruct (Z.leb_spec b 127) as [_|]; [|lia]. simpl. now rewrite IH.
Qed.

(** X3.  The round trip of [base64UrlCodec]: decoding the encoding of a text gives
    the UTF-8 reading of the text's own bytes, which for an ASCII text is the
    text. *)
Theorem base64Url_round_trip (s : string) :
  exists y,
    encode base64UrlCodec s = Resolved y
    /\ decode base64UrlCodec y
       = Resolved (Buffer.toString_utf8 (Buffer.from_utf8 s))
    /\ (is_ascii_text s -> decode base64UrlCodec y = Resolved s).
Proof.
  eexists. split; [reflexivity|].
  assert (decode base64UrlCodec
            (string_of_list_ascii (Buffer.toString_base64url (Buffer.from_utf8 s)))
          = Resolved (Buffer.toString_utf8 (Buffer.from_utf8 s))) as Hdec.
  { simpl. unfold Buffer.from_base64url.
    rewrite decoder_input_ascii by apply toString_base64url_ascii.
    now rewrite from_base64url_toString by apply from_utf8_bytes. }
  split; [exact Hdec|]. intros Hascii. rewrite Hdec. f_equal.
  unfold Buffer.toString_utf8. rewrite utf8_decode_ascii.
  - apply string_of_bytes_from_utf8.
  - unfold Buffer.from_utf8. apply Forall_map.
    unfold is_ascii_text in Hascii. rewrite Forall_forall in Hascii |- *.
    intros c Hc. apply Hascii in Hc. unfold Buffer.byte_of_ascii. lia.
Qed.

Lemma base64Url_round_trip_witness :
  encode base64UrlCodec "page=2&sort=id" = Resolved "cGFnZT0yJnNvcnQ9aWQ"
  /\ decode base64UrlCodec "cGFnZT0yJnNvcnQ9aWQ" = Resolved "page=2&sort=id".
Proof.
  destruct (base64Url_round_trip "page=2&sort=id") as (y & Henc & _ & Hdec).
  assert (y = "cGFnZT0yJnNvcnQ9aWQ") as -> by (vm_compute in Henc; congruence).
  split; [exact Henc|]. apply Hdec.
  unfold is_ascii_text. repeat constructor; simpl; lia.
Defined.

(** A text outside ASCII makes the round trip too. *)
Example base64Url_round_trip_utf8 :
  exists s y,
    Buffer.from_utf8 s
    = [0xE2; 0x9C; 0x93; 0x20; 0xC3; 0xA0; 0x20; 0xF0; 0x9F; 0x98; 0x80]%Z
    /\ encode base64UrlCodec s = Resolved y
    /\ decode base64UrlCodec y = Resolved s.
Proof.
  exists (Buffer.string_of_bytes
            [0xE2; 0x9C; 0x93; 0x20; 0xC3; 0xA0; 0x20; 0xF0; 0x9F; 0x98; 0x80]%Z).
  eexists. split; [reflexivity|]. split; reflexivity.
Qed.

(** ** SHA-256 on the test vectors of FIPS 180-4 *)

Example sha256_abc :
  string_of_list_ascii (Sha256.digest_hex "abc")
  = "ba7816bf8f01cfea414140de5dae2223b00361a396177a9cb410ff61f20015ad".
Proof. vm_compute. reflexivity. Qed.

Example sha256_empty :
  string_of_list_ascii (Sha256.digest_hex "")
  = "e3b0c44298fc1c149afbf4c8996fb92427ae41e4649b934ca495991b7852b855".
Proof. vm_compute. reflexivity. Qed.

Example sha256_two_blocks :
  string_of_list_ascii
    (Sha256.digest_hex "abcdbcdecdefdefgefghfghighijhijkijkljklmklmnlmnomnopnopq")
  = "248d6a61d20638b8e5c026930c3e6039a33ce45964ff2167f6ecedd419db06c1".
Proof. vm_compute. reflexivity. Qed.

(** ** Sort sets: inversion and output keys *)

Lemma invertSorts_ref (sorts : list SortItem) :
  map ref (invertSorts sorts) = map ref sorts.
Proof. unfold invertSorts. rewrite map_map. reflexivity. Qed.

Lemma invertSorts_getSortOutput (sorts : list SortItem) :
  map getSortOutput (invertSorts sorts) = map getSortOutput sorts.
Proof. unfold invertSorts. rewrite map_map. reflexivity. Qed.

Lemma invertSorts_lookup (sorts : list SortItem) (j : nat) (s' : SortItem) :
  invertSorts sorts !! j = Some s' ->
  exists s, sorts !! j = Some s /\ ref s' = ref s
            /\ applyDefaultDirection (dir s')
               = match applyDefaultDirection (dir s) with asc => desc | desc => asc end.
Proof.
  unfold invertSorts. rewrite list_lookup_fmap.
  destruct (sorts !! j) as [s|]; simpl; [|discriminate].
  intros [= <-]. exists s. repeat split.
Qed.

(** X4.  [invertSorts] flips the effective direction of every item (an
    absent direction counts as ascending) and touches nothing else: the
    columns and output keys stay, every item of the result carries an
    explicit direction, and inverting twice restores the names and effective
    directions of the sort set, hence its signature; a third inversion is the
    first. *)
Theorem invertSorts_involution (sorts : list SortItem) :
  map ref (invertSorts sorts) = map ref sorts
  /\ map getSortOutput (invertSorts sorts) = map getSortOutput sorts
  /\ map (fun s => applyDefaultDirection (dir s)) (invertSorts sorts)
     = map (fun s => match applyDefaultDirection (dir s) with
                     | asc => desc
                     | desc => asc
                     end) sorts
  /\ Forall (fun s => is_Some (dir s)) (invertSorts sorts)
  /\ map signature_entry (invertSorts (invertSorts sorts)) = map signature_entry sorts
  /\ sortSignature (invertSorts (invertSorts sorts)) = sortSignature sorts
  /\ invertSorts (invertSorts (invertSorts sorts)) = invertSorts sorts.
Proof.
  assert (map signature_entry (invertSorts (invertSorts sorts))
          = map signature_entry sorts) as Hentries.
  { unfold invertSorts. rewrite !map_map. apply map_ext.
    intros [[[]|] r]; reflexivity. }
  split; [apply invertSorts_ref|].
  split; [apply invertSorts_getSortOutput|].
  split; [|split; [|split; [exact Hentries|split]]].
  - unfold invertSorts. rewrite map_map. apply map_ext.
    intros [[[]|] r]; reflexivity.
  - unfold invertSorts. apply Forall_map, Forall_forall. intros s _. simpl. eauto.
  - unfold sortSignature. now rewrite !signature_text_entries, Hentries.
  - unfold invertSorts. rewrite !map_map. apply map_ext.
    intros [[[]|] r]; reflexivity.
Qed.

Lemma split_nonempty (sep : ascii) (s : string) : split sep s <> [].
Proof.
  destruct s as [|c rest]; simpl; [discriminate|].
  destruct (Ascii.eqb c sep); [discriminate|].
  destruct (split sep rest); discriminate.
Qed.

(** [split] on a text that starts with another character than the
    separator: the character joins the first segment of the rest. *)
Lemma split_String (sep c : ascii) (rest : string) :
  c <> sep ->
  exists seg segs, split sep rest = seg :: segs
                   /\ split sep (String c rest) = String c seg :: segs.
Proof.
  intros Hne. simpl. destruct (Ascii.eqb_spec c sep) as [|_]; [contradiction|].
  pose proof (split_nonempty sep rest) as Hnonempty.
  destruct (split sep rest) as [|seg segs]; [congruence | eauto].
Qed.

Lemma last_cons_nonempty {A : Type} (a d : A) (l : list A) :
  l <> [] -> List.last (a :: l) d = List.last l d.
Proof. destruct l; [congruence | reflexivity]. Qed.

(** No segment contains the separator. *)
Lemma split_segments (sep : ascii) (s : string) :
  Forall (fun seg => ~ In sep (list_ascii_of_string seg)) (split sep s).
Proof.
  induction s as [|c rest IH].
  - repeat constructor. simpl. tauto.
  - destruct (Ascii.eqb_spec c sep) as [->|Hne].
    + simpl. rewrite Ascii.eqb_refl. constructor; [simpl; tauto | exact IH].
    + destruct (split_String sep c rest Hne) as (seg & segs & Hrest & ->).
      rewrite Hrest in IH. apply Forall_cons_1 in IH as [Hseg Hsegs].
      constructor; [|exact Hsegs]. simpl. intros [Hc|Hin]; [congruence | tauto].
Qed.

(** Joining the segments with the separator gives the text back. *)
Lemma concat_split (sep : ascii) (s : string) :
  String.concat (String sep EmptyString) (split sep s) = s.
Proof.
  induction s as [|c rest IH]; [reflexivity|].
  destruct (Ascii.eqb_spec c sep) as [->|Hne].
  - simpl. rewrite Ascii.eqb_refl.
    pose proof (split_nonempty sep rest) as Hnonempty.
    destruct (split sep rest) as [|seg segs]; [congruence|].
    cbn [String.concat]. cbn [String.concat] in IH. now rewrite IH.
  - destruct (split_String sep c rest Hne) as (seg & segs & Hrest & ->).
    rewrite Hrest in IH. destruct segs as [|seg' segs].
    + simpl in *. now rewrite IH.
    + change (String.concat (String sep EmptyString) (String c seg :: seg' :: segs))
        with (String c (String.concat (String sep EmptyString) (seg :: seg' :: segs))).
      now rewrite IH.
Qed.

Lemma string_append_assoc (a b c : string) : (a +:+ b) +:+ c = a +:+ (b +:+ c).
Proof.
  induction a as [|x a IH]; [reflexivity|].
  change (String x ((a +:+ b) +:+ c) = String x (a +:+ (b +:+ c))).
  now rewrite IH.
Qed.

Lemma concat_last (sep : string) (segs : list string) :
  segs <> [] ->
  String.concat sep segs = List.last segs EmptyString
  \/ exists before,
       String.concat sep segs = before +:+ sep +:+ List.last segs EmptyString.
Proof.
  induction segs as [|seg [|seg' segs] IH]; intros Hne; [congruence | now left |].
  right. destruct IH as [Heq|[before Heq]]; [discriminate | |].
  - exists seg. change (String.concat sep (seg :: seg' :: segs))
      with (seg +:+ sep +:+ String.concat sep (seg' :: segs)).
    now rewrite Heq.
  - exists (seg +:+ sep +:+ before).
    change (String.concat sep (seg :: seg' :: segs))
      with (seg +:+ sep +:+ String.concat sep (seg' :: segs)).
    rewrite Heq.
    change (List.last (seg :: seg' :: segs) EmptyString)
      with (List.last (seg' :: segs) EmptyString).
    now rewrite !string_append_assoc.
Qed.

(** A text that ends with the separator and a segment has that segment as
    its last one, after at least one other. *)
Lemma split_app (sep : ascii) (before after : string) :
  List.last (split sep (before +:+ String sep after)) EmptyString
  = List.last (split sep after) EmptyString
  /\ 2 <= length (split sep (before +:+ String sep after)).
Proof.
  pose proof (split_nonempty sep after) as Hafter.
  induction before as [|c before [IHlast IHlen]].
  - simpl. rewrite Ascii.eqb_refl.
    rewrite last_cons_nonempty by exact Hafter.
    split; [reflexivity|]. destruct (split sep after); [congruence | simpl; lia].
  - change (String c before +:+ String sep after)
      with (String c (before +:+ String sep after)).
    destruct (Ascii.eqb_spec c sep) as [->|Hne].
    + simpl. rewrite Ascii.eqb_refl.
      rewrite last_cons_nonempty by apply split_nonempty.
      split; [exact IHlast | simpl; lia].
    + destruct (split_String sep c (before +:+ String sep after) Hne)
        as (seg & segs & Hrest & ->).
      rewrite Hrest in IHlast, IHlen.
      destruct segs as [|seg' segs]; [simpl in IHlen; lia|].
      split; [exact IHlast | simpl; lia].
Qed.

Lemma last_In {A : Type} (l : list A) (d : A) : l <> [] -> In (List.last l d) l.
Proof.
  intros Hne. rewrite (app_removelast_last d Hne) at 2.
  apply in_or_app. right. now left.
Qed.

(** X5.  The output key of a sort item: its [output] when it has one,
    whatever its column is; for a string-only item with column [c], the text
    after the last dot of [c], that is, the one text without a dot that [c]
    is or ends with after a dot.  A column that ends with a dot has the empty
    output key. *)
Theorem getSortOutput_last_segment (d : option OrderByDirection) :
  (forall c output, getSortOutput {| dir := d; ref := WithOutput c output |} = output)
  /\ (forall c key,
        getSortOutput {| dir := d; ref := Column c |} = key
        <-> ~ In "."%char (list_ascii_of_string key)
            /\ (c = key \/ exists table, c = table +:+ "." +:+ key))
  /\ (forall table, getSortOutput {| dir := d; ref := Column (table +:+ ".") |} = "").
Proof.
  assert (forall c key,
            getSortOutput {| dir := d; ref := Column c |} = key
            <-> ~ In "."%char (list_ascii_of_string key)
                /\ (c = key \/ exists table, c = table +:+ "." +:+ key)) as Hkey.
  { intros c key. unfold getSortOutput; simpl. split.
    - intros <-. split.
      + pose proof (split_segments "." c) as Hall.
        rewrite List.Forall_forall in Hall. apply Hall.
        apply last_In, split_nonempty.
      + pose proof (concat_last "." (split "." c) (split_nonempty _ _)) as Hlast.
        now rewrite (concat_split "." c) in Hlast.
    - intros [Hfree [->|[table ->]]].
      + now rewrite split_without_separator.
      + change (table +:+ "." +:+ key) with (table +:+ String "." key).
        rewrite (proj1 (split_app "." table key)).
        now rewrite split_without_separator. }
  split; [reflexivity | split; [exact Hkey|]].
  intros table. apply Hkey. split; [simpl; tauto|].
  right. exists table. reflexivity.
Qed.

Example getSortOutput_qualified :
  getSortOutput {| dir := None; ref := Column "public.users.id" |} = "id"
  /\ getSortOutput {| dir := Some desc; ref := WithOutput (RefString "u.id") "userId" |}
     = "userId".
Proof. split; reflexivity. Qed.

(** ** Cursors of rows and the queries of the four dialects *)

Lemma CursorPayloadSchema_parse_payload_value (p : CursorPayload.t) :
  CursorPayloadSchema_parse (payload_value p) = Resolved (parsed p).
Proof. destruct p as [sig k]. reflexivity. Qed.

Lemma parsed_unchanged (p : CursorPayload.t) :
  CursorPayload.k p !! "__proto__" = None -> parsed p = p.
Proof.
  destruct p as [sig k]. unfold parsed. cbn [CursorPayload.sig CursorPayload.k].
  intros Hnone. f_equal. now apply delete_id.
Qed.

(** What [in] finds in the values of a payload, it finds after the shape
    check. *)
Lemma has_parsed (p : CursorPayload.t) (key : string) :
  has (CursorPayload.k (parsed p)) key = has (CursorPayload.k p) key.
Proof.
  unfold parsed, has. cbn [CursorPayload.k].
  destruct (decide (key = "__proto__")) as [->|Hne].
  - rewrite lookup_delete_eq. now destruct (CursorPayload.k p !! "__proto__").
  - now rewrite lookup_delete_ne by congruence.
Qed.

Lemma resolveCursor_keys (item : Row) (sorts : list SortItem) (s : SortItem) :
  s ∈ sorts ->
  CursorPayload.k (resolveCursor item sorts) !! getSortOutput s
  = Some (get item (getSortOutput s)).
Proof.
  intros Hs. rewrite (proj2 (resolveCursor_payload item sorts)).
  destruct (decide (getSortOutput s ∈ map getSortOutput sorts)) as [_|Hout];
    [reflexivity|].
  exfalso. apply Hout. now apply list_elem_of_fmap_2.
Qed.

(** Every output key of the sort set is [in] the values of a row's cursor,
    for the sort set as it is or inverted. *)
Lemma resolveCursor_has (item : Row) (sorts : list SortItem) (ty : NextPrev)
    (j : nat) (s : SortItem) :
  applied_sorts ty sorts !! j = Some s ->
  has (CursorPayload.k (resolveCursor item sorts)) (getSortOutput s) = true.
Proof.
  intros Hj.
  assert (exists s0, s0 ∈ sorts /\ getSortOutput s = getSortOutput s0)
    as (s0 & Hs0 & ->).
  { destruct ty; cbn [applied_sorts] in Hj.
    - exists s. split; [apply list_elem_of_lookup; eauto | reflexivity].
    - apply invertSorts_lookup in Hj as (s0 & Hj & Href & _).
      exists s0. split; [apply list_elem_of_lookup; eauto|].
      unfold getSortOutput. now rewrite Href. }
  exact (proj1 (has_own _ _ _ (resolveCursor_keys item sorts s0 Hs0))).
Qed.

(** The builder takes the cursor of a row, for the row's sort set applied
    as it is or inverted. *)
Lemma resolveCursor_builds (item : Row) (sorts : list SortItem) (ty : NextPrev) :
  sorts <> [] ->
  exists e, buildCursorPredicateRecursive (applied_sorts ty sorts)
              (resolveCursor item sorts) 0 = Resolved e.
Proof.
  intros Hsorts.
  assert (0 < length (applied_sorts ty sorts)) as Hlen.
  { destruct ty; cbn [applied_sorts]; unfold invertSorts; rewrite ?length_map;
      (destruct sorts; [congruence | simpl; lia]). }
  apply buildCursorPredicateRecursive_total; [exact Hlen|].
  intros j s _ Hj. exact (resolveCursor_has item sorts ty j s Hj).
Qed.

(** And it takes that cursor as the shape check returns it. *)
Lemma resolveCursor_parsed_builds (item : Row) (sorts : list SortItem) (ty : NextPrev) :
  sorts <> [] ->
  exists e, buildCursorPredicateRecursive (applied_sorts ty sorts)
              (parsed (resolveCursor item sorts)) 0 = Resolved e.
Proof.
  intros Hsorts.
  assert (0 < length (applied_sorts ty sorts)) as Hlen.
  { destruct ty; cbn [applied_sorts]; unfold invertSorts; rewrite ?length_map;
      (destruct sorts; [congruence | simpl; lia]). }
  apply buildCursorPredicateRecursive_total; [exact Hlen|].
  intros j s _ Hj. rewrite has_parsed.
  exact (resolveCursor_has item sorts ty j s Hj).
Qed.

(** X6.  The cursor payload of a row is always one the predicate builder
    takes, for the sort set it was made for and for that sort set inverted,
    as [resolveCursor] returns it and as the shape check passes it on: under
    every output key of the sort set it holds what [item[key]] reads (the
    row's own value, else the member every object inherits under that name,
    else [undefined]), so the builder never reports a missing cursor value;
    the shape check accepts the payload and returns it without the key
    [__proto__], hence unchanged when no output key is [__proto__]. *)
Theorem resolveCursor_accepted (item : Row) (sorts : list SortItem) :
  sorts <> [] ->
  let p := resolveCursor item sorts in
  (forall ty, exists e,
     buildCursorPredicateRecursive (applied_sorts ty sorts) p 0 = Resolved e)
  /\ CursorPayloadSchema_parse (payload_value p) = Resolved (parsed p)
  /\ (forall ty, exists e,
        buildCursorPredicateRecursive (applied_sorts ty sorts) (parsed p) 0
        = Resolved e)
  /\ ("__proto__" ∉ map getSortOutput sorts -> parsed p = p)
  /\ (forall s, s ∈ sorts ->
        let key := getSortOutput s in
        CursorPayload.k p !! key = Some (get item key)
        /\ (forall value, item !! key = Some value -> get item key = value)
        /\ (item !! key = None -> key ∈ Object_prototype ->
            get item key = VInherited key)
        /\ (item !! key = None -> key ∉ Object_prototype ->
            get item key = VUndefined)).
Proof.
  intros Hsorts p. split; [|split; [|split; [|split]]].
  - intros ty. exact (resolveCursor_builds item sorts ty Hsorts).
  - apply CursorPayloadSchema_parse_payload_value.
  - intros ty. exact (resolveCursor_parsed_builds item sorts ty Hsorts).
  - intros Hkey. apply parsed_unchanged. unfold p.
    rewrite (proj2 (resolveCursor_payload item sorts)).
    now destruct (decide ("__proto__" ∈ map getSortOutput sorts)).
  - intros s Hs key. split; [now apply resolveCursor_keys|].
    unfold get. split; [now intros value -> | split; intros ->].
    + intros Hkey. now rewrite bool_decide_eq_true_2.
    + intros Hkey. now rewrite bool_decide_eq_false_2.
Qed.

(** A row without the sorted column: its cursor holds [undefined] there, and
    the builder compares with it. *)
Lemma resolveCursor_accepted_witness :
  buildCursorPredicateRecursive byId (resolveCursor (person 1 VNull) byAgeThenId) 0
  = Resolved (Eb (RefString "id") OpGt (VNum (Int 1)))
  /\ buildCursorPredicateRecursive byId (resolveCursor ∅ byId) 0
     = Resolved (Eb (RefString "id") OpGt VUndefined)
  /\ exists e, buildCursorPredicateRecursive byId (parsed (resolveCursor ∅ byId)) 0
               = Resolved e.
Proof.
  split; [reflexivity|]. split; [reflexivity|].
  exact (proj1 (proj2 (proj2 (resolveCursor_accepted ∅ byId ltac:(discriminate))))
           KNext).
Defined.

Lemma foldl_snoc {A B : Type} (f : A -> B) (sorts : list A) (builder : list B) :
  foldl (fun b s => b ++ [f s]) builder sorts = builder ++ map f sorts.
Proof.
  revert builder. induction sorts as [|s rest IH]; intros builder; simpl.
  - now rewrite app_nil_r.
  - rewrite IH. now rewrite <- app_assoc.
Qed.

(** What the methods of a shipped dialect add to a query. *)
Lemma shipped_clauses (D : Shipped) :
  In D shipped_dialects ->
  (forall builder sorts,
     applySort (dialect_of D) builder sorts = builder ++ map (order_of D) sorts)
  /\ (forall builder n ty,
        applyLimit (dialect_of D) builder n ty = builder ++ [limit_of D n ty])
  /\ (forall builder off,
        applyOffset (dialect_of D) builder off = builder ++ [OffsetRows off])
  /\ (forall builder sorts c,
        applyCursor (dialect_of D) builder sorts c = baseApplyCursor builder sorts c).
Proof.
  intros [<-|[<-|[<-|[<-|[]]]]]; simpl; repeat split;
    try (intros builder sorts; unfold orderBy_each; apply foldl_snoc).
  - intros builder n [[]|]; reflexivity.
  - intros builder sorts.
    etransitivity;
      [apply (foldl_snoc
                (fun s => match default asc (dir s) with
                          | asc => OrderBy (col s) asc (Some NullsFirst)
                          | desc => OrderBy (col s) desc (Some NullsLast)
                          end))|].
    f_equal. apply map_ext. intros s. unfold postgres_order, applyDefaultDirection.
    now destruct (default asc (dir s)).
Qed.

(** A failure of [resolvePageTokens] is that of the encoding of an item's
    cursor. *)
Lemma resolvePageTokens_Rejected_item (items : list Row) (sorts : list SortItem)
    (codec : CursorCodec) (decodedCursor : option DecodedCursor) (overFetched : bool)
    (e : Error) :
  resolvePageTokens items sorts codec decodedCursor overFetched = Rejected e ->
  exists item, item ∈ items /\ token_of codec sorts item = Rejected e.
Proof.
  unfold resolvePageTokens, token_of. destruct (length items =? 0); [discriminate|].
  intros [H|(s & _ & [H|(t & _ & [=])]%bind_Rejected_inv)]%bind_Rejected_inv.
  - destruct (head items) as [first|] eqn:Hfirst; [|discriminate].
    apply bind_Rejected_inv in H as [H|(? & _ & [=])].
    exists first. split; [|exact H]. destruct items; [discriminate|].
    injection Hfirst as ->. apply list_elem_of_here.
  - destruct (list.last items) as [final|] eqn:Hfinal; [|discriminate].
    apply bind_Rejected_inv in H as [H|(? & _ & [=])].
    exists final. split; [|exact H].
    apply last_Some in Hfinal as [before ->].
    apply elem_of_app. right. apply list_elem_of_here.
Qed.

Section ShippedDialects.

Variable execute : SelectQueryBuilder -> Promise (list Row).
Variable cursorCodec : CursorCodec.
Variable query : SelectQueryBuilder.
Variable sorts : list SortItem.
Variable D : Shipped.

Hypothesis D_shipped : In D shipped_dialects.

(** The query a shipped dialect builds for a page. *)
Lemma constrained_shipped (n : Z) (decodedCursor : option DecodedCursor) :
  constrained (dialect_of D) query sorts n decodedCursor
  = let applied := if is_prev decodedCursor then invertSorts sorts else sorts in
    let q := query ++ map (order_of D) applied
             ++ [limit_of D (num_succ (Int n)) (type_of decodedCursor)] in
    match decodedCursor with
    | None => Resolved (q ++ [])
    | Some (Offset off) => Resolved (q ++ [OffsetRows off])
    | Some (Keyset c) =>
        e ← buildCursorPredicateRecursive applied (payload c) 0;
        Resolved (q ++ [Where e])
    end.
Proof.
  destruct (shipped_clauses D D_shipped) as (Hsort & Hlimit & Hoffset & Hcursor).
  unfold constrained. rewrite <- effectiveSorts_code.
  rewrite Hsort, Hlimit, <- !app_assoc. cbn zeta.
  destruct decodedCursor as [[c|off]|].
  - rewrite Hcursor. reflexivity.
  - now rewrite Hoffset.
  - now rewrite app_nil_r.
Qed.

(** X8.  The query a resolved [paginate] ran, under each of the four
    dialects: the caller's query, then one ORDER BY clause for each item of
    the sort set in order (inverted for a [prev] cursor; with NULLS FIRST or
    NULLS LAST under PostgreSQL only), then one row limit of [limit + 1]
    ([TOP], or [FETCH] with an offset cursor, under MSSQL), then nothing for
    a first page, the OFFSET of an offset cursor, or the keyset predicate of
    a [next] or [prev] cursor as a WHERE clause; [TOP] never comes with an
    OFFSET.  The row limit is what JavaScript computes for [limit + 1]: one
    more than the limit for a limit below [2^53], and [2^53] itself for the
    limit [2^53].  The items are the first [limit] of its rows, reversed for
    [prev]. *)
Theorem paginate_query (limit : number) (cursor : option CursorIncoming.t)
    (res : PaginatedResult.t) :
  paginate execute query sorts limit cursor (dialect_of D) cursorCodec = Resolved res ->
  exists (n : nat) decodedCursor tail rows,
    limit = Int (Z.of_nat n)
    /\ incoming cursor cursorCodec = Resolved decodedCursor
    /\ let applied := if is_prev decodedCursor then invertSorts sorts else sorts in
       let row_limit := limit_of D (num_succ limit) (type_of decodedCursor) in
       execute (query ++ map (order_of D) applied ++ [row_limit] ++ tail)
       = Resolved rows
       /\ match decodedCursor with
          | None => tail = []
          | Some (Offset off) => tail = [OffsetRows off]
          | Some (Keyset c) =>
              exists e, buildCursorPredicateRecursive applied (payload c) 0
                        = Resolved e
                        /\ tail = [Where e]
          end
       /\ (forall m off, row_limit = Top m -> ~ In (OffsetRows off) tail)
       /\ ((Z.of_nat n < 2 ^ 53)%Z -> num_succ limit = Int (Z.of_nat n + 1))
       /\ (Z.of_nat n = (2 ^ 53)%Z -> num_succ limit = limit)
       /\ PaginatedResult.items res
          = if is_prev decodedCursor then rev (take n rows) else take n rows.
Proof.
  intros H.
  apply paginate_Resolved in H
    as (n & decodedCursor & q & rows & tokens & -> & Hn & Hsorts & Hdec & _
        & Hq & Hrows & _ & ->).
  rewrite constrained_shipped in Hq. cbn zeta in Hq.
  assert (exists tail,
            q = query ++ map (order_of D)
                           (if is_prev decodedCursor then invertSorts sorts else sorts)
                ++ [limit_of D (num_succ (Int (Z.of_nat n))) (type_of decodedCursor)]
                ++ tail
            /\ match decodedCursor with
               | None => tail = []
               | Some (Offset off) => tail = [OffsetRows off]
               | Some (Keyset c) =>
                   exists e,
                     buildCursorPredicateRecursive
                       (if is_prev decodedCursor then invertSorts sorts else sorts)
                       (payload c) 0 = Resolved e
                     /\ tail = [Where e]
               end) as (tail & -> & Htail).
  { destruct decodedCursor as [[c|off]|].
    - apply bind_Resolved_inv in Hq as (e & He & [= <-]).
      exists [Where e]. rewrite <- !app_assoc. eauto.
    - injection Hq as <-. exists [OffsetRows off]. now rewrite <- !app_assoc.
    - injection Hq as <-. exists []. now rewrite <- !app_assoc. }
  exists n, decodedCursor, tail, rows. cbn zeta.
  split; [reflexivity|]. split; [exact Hdec|]. split; [exact Hrows|].
  split; [exact Htail|]. split; [|split; [|split]].
  - intros m off Htop Hin.
    destruct decodedCursor as [[c|off']|].
    + destruct Htail as (e & _ & ->). destruct Hin as [[=]|[]].
    + destruct D_shipped as [<-|[<-|[<-|[<-|[]]]]]; discriminate.
    + subst tail. destruct Hin.
  - apply num_succ_exact.
  - intros ->. reflexivity.
  - simpl. unfold page, is_prev.
    destruct (type_of decodedCursor) as [[]|]; reflexivity.
Qed.

(** A token that the codec decodes to the payload of a row is decoded to
    the row's cursor, when no output key of the sort set is [__proto__]. *)
Lemma decodeCursorPayload_issued (item : Row) (token : string) :
  decode cursorCodec token = Resolved (payload_value (resolveCursor item sorts)) ->
  "__proto__" ∉ map getSortOutput sorts ->
  decodeCursorPayload token cursorCodec = Resolved (resolveCursor item sorts).
Proof.
  intros Hdecode Hkey. unfold decodeCursorPayload. rewrite Hdecode.
  cbn [mbind Promise_bind]. rewrite CursorPayloadSchema_parse_payload_value.
  f_equal. apply parsed_unchanged.
  rewrite (proj2 (resolveCursor_payload item sorts)).
  now destruct (decide ("__proto__" ∈ map getSortOutput sorts)).
Qed.

(** X7.  A token is taken back for the sort set it was issued for.  When
    a token decodes, through the codec and the shape check, to the cursor
    of a row under the request's sort set, as the tokens of a page of that
    sort set do for a codec that gives back what it was given, [paginate]
    with the token as [nextPage] or [prevPage] passes the signature check
    and the predicate builder and runs the query with the keyset predicate:
    it fails only if the executor or an encoding of the new page's cursors
    fails, and resolves with the first [limit] rows otherwise. *)
Theorem paginate_accepts_issued_token (n : nat) (item : Row) (token : string)
    (ty : NextPrev) :
  0 < n -> sorts <> [] ->
  decodeCursorPayload token cursorCodec = Resolved (resolveCursor item sorts) ->
  let paginated :=
    paginate execute query sorts (Int (Z.of_nat n)) (Some (keyset_cursor ty token))
             (dialect_of D) cursorCodec in
  exists e,
    buildCursorPredicateRecursive (applied_sorts ty sorts) (resolveCursor item sorts) 0
    = Resolved e
    /\ let q := query ++ map (order_of D) (applied_sorts ty sorts)
                ++ [limit_of D (num_succ (Int (Z.of_nat n))) (Some (cursor_type ty));
                    Where e] in
       (forall e0, execute q = Rejected e0 ->
                   paginated = Rejected (surfaced "Failed to paginate" e0))
       /\ (forall rows e', execute q = Resolved rows -> paginated = Rejected e' ->
             exists v e0, encode cursorCodec v = Rejected e0
                          /\ e' = surfaced "Failed to paginate" e0)
       /\ (forall rows, execute q = Resolved rows ->
             (forall row, row ∈ take n rows ->
                          exists t, token_of cursorCodec sorts row = Resolved t) ->
             exists res,
               paginated = Resolved res
               /\ PaginatedResult.items res
                  = match ty with
                    | KNext => take n rows
                    | KPrev => rev (take n rows)
                    end).
Proof.
  intros Hn Hsorts Hdecode paginated.
  destruct (resolveCursor_builds item sorts ty Hsorts) as [e He].
  exists e. split; [exact He|]. cbn zeta.
  set (c := {| type := ty; payload := resolveCursor item sorts |}).
  assert (incoming (Some (keyset_cursor ty token)) cursorCodec
          = Resolved (Some (Keyset c))) as Hincoming.
  { unfold incoming, decodeCursor.
    destruct ty;
      cbn [keyset_cursor next_page prev_page CursorIncoming.nextPage
           CursorIncoming.prevPage];
      now rewrite Hdecode. }
  assert ((if is_prev (Some (Keyset c)) then invertSorts sorts else sorts)
          = applied_sorts ty sorts) as Happlied by (now destruct ty).
  assert (constrained (dialect_of D) query sorts (Z.of_nat n) (Some (Keyset c))
          = Resolved (query ++ map (order_of D) (applied_sorts ty sorts)
                      ++ [limit_of D (num_succ (Int (Z.of_nat n)))
                                   (Some (cursor_type ty));
                          Where e])) as Hq.
  { rewrite constrained_shipped. cbn zeta. rewrite Happlied.
    change (payload c) with (resolveCursor item sorts). rewrite He. simpl.
    now rewrite <- !app_assoc. }
  assert (page (Some (Keyset c)) n
          = fun rows => match ty with
                        | KNext => take n rows
                        | KPrev => rev (take n rows)
                        end) as Hpage by (now destruct ty).
  unfold paginated. rewrite (paginate_valid _ _ _ _ _ n _ Hn Hsorts).
  rewrite Hincoming. cbn [mbind Promise_bind].
  change (CursorPayload.sig (payload c)) with (sortSignature sorts).
  rewrite String.eqb_refl. cbn [negb]. rewrite Hq. cbn [mbind Promise_bind].
  split; [|split].
  - intros e0 ->. reflexivity.
  - intros rows e' -> Hrejected. cbn [mbind Promise_bind] in Hrejected.
    unfold try_catch in Hrejected.
    match type of Hrejected with
    | match ?body with _ => _ end = _ => destruct body as [r|e0] eqn:Hbody
    end; [discriminate|]. injection Hrejected as <-.
    apply bind_Rejected_inv in Hbody as [Htokens|(tokens & _ & [=])].
    apply resolvePageTokens_Rejected in Htokens as [v Hv]. eauto.
  - intros rows -> Hencode. cbn [mbind Promise_bind].
    destruct (resolvePageTokens (page (Some (Keyset c)) n rows) sorts cursorCodec
                (Some (Keyset c)) (n <? length rows)) as [tokens|e0] eqn:Htokens.
    + eexists. split; [reflexivity|]. simpl. now rewrite Hpage.
    + apply resolvePageTokens_Rejected_item in Htokens as (row & Hrow & Hv).
      destruct (Hencode row) as [t Ht]; [|congruence].
      rewrite Hpage in Hrow. destruct ty; [exact Hrow|].
      now apply list_elem_of_In, (proj2 (in_rev _ _)), list_elem_of_In in Hrow.
Qed.

End ShippedDialects.

(** The second page of the five users under SQLite: the query has the
    order, the limit of three rows and the predicate [id > "b"]. *)
Lemma paginate_query_witness :
  exists rows,
    execute_on five_users
      [OrderBy (RefString "id") asc None; Limit (Int 3);
       Where (Eb (RefString "id") OpGt (VStr "b"))]
    = Resolved rows
    /\ PaginatedResult.items second_page = take 2 rows.
Proof.
  destruct (paginate_query (execute_on five_users) idTokenCodec [] byId
              {| dialect_of := SqlitePaginationDialect;
                 order_of := plain_order; limit_of := fun n _ => Limit n |}
              ltac:(simpl; tauto) (Int 2) (Some (next_page "b")) second_page
              ltac:(vm_compute; reflexivity))
    as (n & decodedCursor & tail & rows & Hn & Hdec & Hrows & Htail & _ & _ & _
        & Hitems).
  assert (n = 2) as -> by (injection Hn; lia).
  vm_compute in Hdec. injection Hdec as <-.
  destruct Htail as (e & He & ->). vm_compute in He. injection He as <-.
  exists rows. split; [exact Hrows | exact Hitems].
Defined.

(** The token ["b"] of the id codec, taken back as [prevPage] under MSSQL. *)
Lemma paginate_accepts_issued_token_witness :
  exists res,
    paginate (execute_on five_users) [] byId (Int 2) (Some (prev_page "b"))
             MssqlPaginationDialect idTokenCodec
    = Resolved res
    /\ PaginatedResult.items res = users ["a"].
Proof.
  destruct (paginate_accepts_issued_token (execute_on five_users) idTokenCodec [] byId
              {| dialect_of := MssqlPaginationDialect;
                 order_of := plain_order; limit_of := mssql_limit |}
              ltac:(simpl; tauto) 2 {[ "id" := VStr "b" ]} "b" KPrev
              ltac:(lia) ltac:(discriminate) ltac:(vm_compute; reflexivity))
    as (e & He & _ & _ & Hresolved).
  vm_compute in He. injection He as <-.
  destruct (Hresolved (users ["a"]) ltac:(vm_compute; reflexivity))
    as (res & Hres & Hitems).
  - intros row [->|[]%elem_of_nil]%elem_of_cons. eexists. reflexivity.
  - exists res. split; [exact Hres | exact Hitems].
Defined.

(** ** Pages and the order of the query *)

Lemma position_ok_ref (row : Row) (k : gmap string JsValue) (final : bool)
    (s s' : SortItem) :
  ref s' = ref s -> position_ok row k final s -> position_ok row k final s'.
Proof.
  intros Href. unfold position_ok, getSortOutput, col. now rewrite Href.
Qed.

Lemma positions_ok_applied (row : Row) (k : gmap string JsValue)
    (sorts : list SortItem) (ty : NextPrev) :
  (forall j s, sorts !! j = Some s -> position_ok row k (j =? length sorts - 1) s) ->
  forall j s, applied_sorts ty sorts !! j = Some s ->
              position_ok row k (j =? length (applied_sorts ty sorts) - 1) s.
Proof.
  intros Hpos j s' Hj. destruct ty; [now apply Hpos|]. simpl in *.
  apply invertSorts_lookup in Hj as (s & Hj & Href & _).
  unfold invertSorts. rewrite length_map.
  apply (position_ok_ref _ _ _ s s' Href), Hpos, Hj.
Qed.

(** The predicate of a cursor, for the sort set applied as it is or
    inverted: true of a row exactly when the row sorts after the cursor. *)
Lemma keyset_predicate_applied (sorts : list SortItem) (p : CursorPayload.t)
    (row : Row) (ty : NextPrev) (e : Expression) :
  sorts <> [] ->
  (forall j s, sorts !! j = Some s ->
               position_ok row (CursorPayload.k p) (j =? length sorts - 1) s) ->
  buildCursorPredicateRecursive (applied_sorts ty sorts) p 0 = Resolved e ->
  (eval row e = Some true
   <-> sorts_after row (CursorPayload.k p) (applied_sorts ty sorts) = true).
Proof.
  intros Hsorts Hpos He.
  destruct (keyset_predicate_from (applied_sorts ty sorts) p row
              (positions_ok_applied row _ sorts ty Hpos)
              (length (applied_sorts ty sorts) - 0) 0 eq_refl)
    as (e' & He' & Hiff).
  - destruct ty; simpl; [|unfold invertSorts; rewrite length_map];
      (destruct sorts; [congruence | simpl; lia]).
  - rewrite He in He'. injection He' as <-. now rewrite drop_0 in Hiff.
Qed.

Lemma page_subset (decodedCursor : option DecodedCursor) (n : nat)
    (rows : list Row) (row : Row) :
  row ∈ page decodedCursor n rows -> row ∈ rows.
Proof.
  intros Hrow. apply list_elem_of_lookup in Hrow as [i Hi].
  apply (proj2 (page_bounded decodedCursor n rows)) in Hi as (j & _ & Hj).
  apply list_elem_of_lookup. eauto.
Qed.

Section PagesBeyondCursor.

Variable execute : SelectQueryBuilder -> Promise (list Row).
Variable cursorCodec : CursorCodec.
Variable query : SelectQueryBuilder.
Variable sorts : list SortItem.
Variable D : Shipped.

Hypothesis D_shipped : In D shipped_dialects.
Hypothesis execute_honours_where : honours_where execute.

(** X10.  No item of a page is at or before its cursor.  With one of the
    four dialects and an executor that honours WHERE, every item of the page
    [paginate] returns for a [nextPage] token sorts strictly after the
    position the token holds, under the sort set; for a [prevPage] token,
    strictly after it under the inverted sort set, that is, before it.  The
    row values are taken to be comparable with the cursor's and the final
    column not to be NULL. *)
Theorem paginate_items_beyond_cursor (limit : number) (ty : NextPrev)
    (token : string) (p : CursorPayload.t) (res : PaginatedResult.t) :
  decodeCursorPayload token cursorCodec = Resolved p ->
  paginate execute query sorts limit (Some (keyset_cursor ty token))
           (dialect_of D) cursorCodec
  = Resolved res ->
  (forall item j s,
     item ∈ PaginatedResult.items res -> sorts !! j = Some s ->
     position_ok item (CursorPayload.k p) (j =? length sorts - 1) s) ->
  Forall (fun item =>
            sorts_after item (CursorPayload.k p) (applied_sorts ty sorts) = true)
         (PaginatedResult.items res).
Proof.
  intros Hp H Hpos.
  apply paginate_Resolved in H
    as (n & decodedCursor & q & rows & tokens & -> & Hn & Hsorts & Hdec & _
        & Hq & Hrows & _ & ->).
  cbn [PaginatedResult.items] in Hpos |- *.
  assert (decodedCursor = Some (Keyset {| type := ty; payload := p |})) as ->.
  { unfold incoming, decodeCursor in Hdec.
    destruct ty;
      cbn [keyset_cursor next_page prev_page CursorIncoming.nextPage
           CursorIncoming.prevPage] in Hdec;
      rewrite Hp in Hdec; now injection Hdec as <-. }
  rewrite (constrained_shipped query sorts D D_shipped) in Hq. cbn zeta in Hq.
  assert ((if is_prev (Some (Keyset {| type := ty; payload := p |}))
           then invertSorts sorts else sorts) = applied_sorts ty sorts) as Happlied
    by (now destruct ty).
  rewrite Happlied in Hq. cbn [payload] in Hq.
  apply bind_Resolved_inv in Hq as (e & He & [= <-]).
  apply List.Forall_forall. intros item Hitem%list_elem_of_In.
  apply (keyset_predicate_applied sorts p item ty e Hsorts); [|exact He|].
  - intros j s Hs. exact (Hpos item j s Hitem Hs).
  - apply (execute_honours_where _ rows item e Hrows).
    + now apply page_subset in Hitem.
    + apply in_or_app. right. now left.
Qed.

End PagesBeyondCursor.

(** The executor of the examples honours WHERE. *)
Lemma insert_row_elem (q : list Clause) (r row : Row) (sorted : list Row) :
  row ∈ insert_row q r sorted -> row = r \/ row ∈ sorted.
Proof.
  induction sorted as [|r' rest IH]; simpl.
  - intros [->|[]%elem_of_nil]%elem_of_cons. now left.
  - destruct (compare_rows q r r').
    + intros [->|H]%elem_of_cons; auto.
    + intros [->|H]%elem_of_cons; auto.
    + intros [->|H]%elem_of_cons.
      * right. apply list_elem_of_here.
      * destruct (IH H) as [->|H']; [now left|]. right. now apply list_elem_of_further.
Qed.

Lemma order_rows_elem (q : list Clause) (rows : list Row) (row : Row) :
  row ∈ order_rows q rows -> row ∈ rows.
Proof.
  unfold order_rows. induction rows as [|r rest IH]; simpl; [auto|].
  intros [->|H]%insert_row_elem; [apply list_elem_of_here|].
  apply list_elem_of_further, IH, H.
Qed.

Lemma bound_rows_elem (q : list Clause) (rows bounded : list Row) (row : Row) :
  bound_rows q rows = Resolved bounded -> row ∈ bounded -> row ∈ rows.
Proof.
  revert rows bounded. induction q as [|c rest IH]; intros rows bounded; simpl.
  - now intros [= <-].
  - assert (forall n : number,
              (rows' ← bound_rows rest rows;
               match n with
               | Int z => Resolved (if (z <? 0)%Z then rows' else take (Z.to_nat z) rows')
               | _ => Rejected (GenericError "SqliteError" "datatype mismatch")
               end) = Resolved bounded ->
              row ∈ bounded -> row ∈ rows) as Hlimit.
    { intros n (rows' & Hrest & H)%bind_Resolved_inv Hrow.
      apply (IH _ _ Hrest). destruct n as [z| | |]; try discriminate.
      injection H as <-. destruct (z <? 0)%Z; [exact Hrow|].
      now apply subseteq_take in Hrow. }
    destruct c as [column direction nulls|n|n|n|n|e]; try apply Hlimit.
    + intros (rows' & Hrest & [= <-])%bind_Resolved_inv. now apply IH.
    + destruct n as [z| | |]; try discriminate.
      intros Hrest Hrow. apply (IH _ _ Hrest) in Hrow.
      now apply subseteq_drop in Hrow.
    + intros (rows' & Hrest & [= <-])%bind_Resolved_inv. now apply IH.
Qed.

Lemma execute_on_honours_where (table : list Row) : honours_where (execute_on table).
Proof.
  intros q rows row e Hrows Hrow Hwhere. unfold execute_on in Hrows.
  apply (bound_rows_elem _ _ _ _ Hrows), order_rows_elem in Hrow.
  apply list_elem_of_filter in Hrow as [Hholds _].
  unfold where_holds in Hholds. rewrite forallb_forall in Hholds.
  specialize (Hholds _ Hwhere). simpl in Hholds.
  now destruct (eval row e) as [[]|].
Qed.

(** The page after ["b"] of the five users: its items sort after ["b"]. *)
Lemma paginate_items_beyond_cursor_witness :
  Forall (fun item => sorts_after item {[ "id" := VStr "b" ]} byId = true)
         (PaginatedResult.items second_page).
Proof.
  assert (forall item j s,
            item ∈ PaginatedResult.items second_page -> byId !! j = Some s ->
            position_ok item {[ "id" := VStr "b" ]} (j =? length byId - 1) s) as Hpos.
  { intros item j s Hitem Hs.
    destruct j as [|j]; simpl in Hs; [|discriminate]. injection Hs as <-.
    exists (VStr "b"). split; [reflexivity|]. split; [discriminate|].
    simpl in Hitem.
    apply elem_of_cons in Hitem as [->|Hitem];
      [|apply elem_of_cons in Hitem as [->|[]%elem_of_nil]];
      (split; [intros _ _; vm_compute; eauto | intros _; split; reflexivity]). }
  exact (paginate_items_beyond_cursor (execute_on five_users) idTokenCodec [] byId
           {| dialect_of := SqlitePaginationDialect;
              order_of := plain_order; limit_of := fun n _ => Limit n |}
           ltac:(simpl; tauto) (execute_on_honours_where five_users)
           (Int 2) KNext "b"
           {| CursorPayload.sig := sortSignature byId;
              CursorPayload.k := {[ "id" := VStr "b" ]} |}
           second_page eq_refl ltac:(vm_compute; reflexivity) Hpos).
Defined.

(** ** The keyset predicate and the ORDER BY of the query *)

Lemma compare_strings_antisym (s t : string) :
  compare_strings t s = CompOpp (compare_strings s t).
Proof.
  revert t. induction s as [|a s IH]; intros [|b t]; simpl; try reflexivity.
  rewrite (Nat.compare_antisym (nat_of_ascii a) (nat_of_ascii b)).
  destruct (nat_of_ascii a ?= nat_of_ascii b); simpl; auto.
Qed.

Lemma compare_values_antisym (v w : JsValue) (c : comparison) :
  compare_values v w = Some c -> compare_values w v = Some (CompOpp c).
Proof.
  destruct v, w; simpl; try discriminate.
  - intros [= <-]. now rewrite Nat.compare_antisym.
  - destruct (fraction n) as [[p q]|], (fraction n0) as [[r s]|]; try discriminate.
    intros [= <-]. now rewrite Z.compare_antisym.
  - intros [= <-]. now rewrite compare_strings_antisym.
  - intros [= <-]. now rewrite Z.compare_antisym.
  - intros [= <-]. now rewrite Z.compare_antisym.
Qed.

(** The ORDER BY key of a shipped dialect places NULL first in ascending and
    last in descending order. *)
Lemma compare_by_shipped (D : Shipped) (s : SortItem) (r1 r2 : Row) :
  In D shipped_dialects ->
  compare_by (order_of D s) r1 r2
  = let v1 := column_value r1 (col s) in
    let v2 := column_value r2 (col s) in
    match is_null v1, is_null v2, applyDefaultDirection (dir s) with
    | true, true, _ => Eq
    | true, false, asc | false, true, desc => Lt
    | true, false, desc | false, true, asc => Gt
    | false, false, asc => default Eq (compare_values v1 v2)
    | false, false, desc => CompOpp (default Eq (compare_values v1 v2))
    end.
Proof.
  intros [<-|[<-|[<-|[<-|[]]]]]; simpl;
    destruct (is_null (column_value r1 (col s))),
             (is_null (column_value r2 (col s))),
             (applyDefaultDirection (dir s)); reflexivity.
Qed.

Section PredicateAndOrder.

Variable D : Shipped.
Variable cursorRow row : Row.
Variable k : gmap string JsValue.

Hypothesis D_shipped : In D shipped_dialects.

(** At one position where the cursor holds the cursor row's value of the
    sorted column: the row is after the cursor when the ORDER BY key puts it
    after the cursor row, and ties with it when the key does not tell them
    apart. *)
Lemma position_order (s : SortItem) :
  column_value cursorRow (col s) = get k (getSortOutput s) ->
  (is_null (column_value row (col s)) = false ->
   is_null (get k (getSortOutput s)) = false ->
   is_Some (compare_values (column_value row (col s)) (get k (getSortOutput s)))) ->
  (after_at s (column_value row (col s)) (get k (getSortOutput s)) = true
   <-> compare_by (order_of D s) cursorRow row = Lt)
  /\ (tie_at (column_value row (col s)) (get k (getSortOutput s)) = true
      <-> compare_by (order_of D s) cursorRow row = Eq)
  /\ (after_at s (column_value row (col s)) (get k (getSortOutput s)) = true ->
      tie_at (column_value row (col s)) (get k (getSortOutput s)) = false).
Proof.
  intros Hcolumn Hcomparable.
  rewrite (compare_by_shipped D s cursorRow row D_shipped). cbn zeta.
  rewrite Hcolumn. unfold after_at, tie_at.
  set (rv := column_value row (col s)) in *.
  set (cv := get k (getSortOutput s)) in *.
  destruct (is_null rv) eqn:Hrv, (is_null cv) eqn:Hcv.
  - destruct (applyDefaultDirection (dir s)); repeat split; congruence.
  - destruct (applyDefaultDirection (dir s)); repeat split; congruence.
  - destruct (applyDefaultDirection (dir s)); repeat split; congruence.
  - destruct (Hcomparable eq_refl eq_refl) as [c Hc].
    rewrite Hc, (compare_values_antisym rv cv c Hc). simpl.
    destruct (applyDefaultDirection (dir s)), c; simpl; repeat split; congruence.
Qed.

Lemma sorts_after_order (positions : list SortItem) :
  Forall (fun s =>
            column_value cursorRow (col s) = get k (getSortOutput s)
            /\ (is_null (column_value row (col s)) = false ->
                is_null (get k (getSortOutput s)) = false ->
                is_Some (compare_values (column_value row (col s))
                                        (get k (getSortOutput s)))))
         positions ->
  sorts_after row k positions = true
  <-> compare_rows (map (order_of D) positions) cursorRow row = Lt.
Proof.
  induction 1 as [|s later [Hcolumn Hcomparable] _ IH]; simpl.
  - split; discriminate.
  - destruct (position_order s Hcolumn Hcomparable) as ([Ha1 Ha2] & [Ht1 Ht2] & Hboth).
    destruct (after_at s (column_value row (col s)) (get k (getSortOutput s))),
             (tie_at (column_value row (col s)) (get k (getSortOutput s))),
             (compare_by (order_of D s) cursorRow row);
      simpl; try exact IH;
      first [ discriminate (Ha1 eq_refl) | discriminate (Ha2 eq_refl)
            | discriminate (Ht1 eq_refl) | discriminate (Ht2 eq_refl)
            | discriminate (Hboth eq_refl) | split; congruence ].
Qed.

End PredicateAndOrder.

(** Under the inverted sort set the ORDER BY of a shipped dialect is the
    opposite order. *)
Lemma compare_rows_inverted (D : Shipped) (sorts : list SortItem) (r1 r2 : Row) :
  In D shipped_dialects ->
  compare_rows (map (order_of D) (invertSorts sorts)) r1 r2
  = CompOpp (compare_rows (map (order_of D) sorts) r1 r2).
Proof.
  intros HD. induction sorts as [|s rest IH]; [reflexivity|].
  change (invertSorts (s :: rest))
    with ({| dir := Some (match applyDefaultDirection (dir s) with
                          | desc => asc
                          | asc => desc
                          end);
             ref := ref s |} :: invertSorts rest).
  cbn [map compare_rows]. rewrite IH, !(compare_by_shipped D _ r1 r2 HD).
  cbn zeta. unfold col. cbn [ref dir applyDefaultDirection default].
  fold (col s).
  destruct (is_null (column_value r1 (col s))),
           (is_null (column_value r2 (col s))),
           (applyDefaultDirection (dir s)); try reflexivity;
    destruct (default Eq (compare_values _ _)); reflexivity.
Qed.

Section CursorRowOrder.

Variable D : Shipped.
Variable sorts : list SortItem.
Variable cursorRow row : Row.

Hypothesis D_shipped : In D shipped_dialects.
Hypothesis sorts_nonempty : sorts <> [].
Hypothesis outputs_are_columns : Forall (output_is_column cursorRow) sorts.
Hypothesis positions_ok :
  forall j s, sorts !! j = Some s ->
              position_ok row (CursorPayload.k (resolveCursor cursorRow sorts))
                          (j =? length sorts - 1) s.

Lemma cursor_positions (ty : NextPrev) :
  Forall (fun s =>
            column_value cursorRow (col s)
            = get (CursorPayload.k (resolveCursor cursorRow sorts)) (getSortOutput s)
            /\ (is_null (column_value row (col s)) = false ->
                is_null (get (CursorPayload.k (resolveCursor cursorRow sorts))
                             (getSortOutput s)) = false ->
                is_Some (compare_values
                           (column_value row (col s))
                           (get (CursorPayload.k (resolveCursor cursorRow sorts))
                                (getSortOutput s)))))
         (applied_sorts ty sorts).
Proof.
  apply List.Forall_forall. intros s' Hs'%list_elem_of_In.
  assert (exists j s, sorts !! j = Some s /\ ref s' = ref s) as (j & s & Hj & Href).
  { apply list_elem_of_lookup in Hs' as [j Hj]. destruct ty; simpl in Hj.
    - eauto.
    - apply invertSorts_lookup in Hj as (s & Hj & Href & _). eauto. }
  assert (s ∈ sorts) as Hs by (apply list_elem_of_lookup; eauto).
  unfold col, getSortOutput. rewrite Href.
  fold (col s). fold (getSortOutput s).
  assert (get (CursorPayload.k (resolveCursor cursorRow sorts)) (getSortOutput s)
          = get cursorRow (getSortOutput s)) as ->
    by (unfold get at 1; now rewrite (resolveCursor_keys cursorRow sorts s Hs)).
  split.
  - rewrite List.Forall_forall in outputs_are_columns.
    apply outputs_are_columns, list_elem_of_In, Hs.
  - destruct (positions_ok j s Hj) as (cv & Hcv & _ & Hcomparable & _).
    rewrite (resolveCursor_keys cursorRow sorts s Hs) in Hcv.
    injection Hcv as <-. exact Hcomparable.
Qed.

(** The side of the cursor row a keyset cursor asks for. *)
Lemma keyset_predicate_side (ty : NextPrev) (e : Expression) :
  buildCursorPredicateRecursive (applied_sorts ty sorts)
    (resolveCursor cursorRow sorts) 0 = Resolved e ->
  (eval row e = Some true
   <-> compare_rows (map (order_of D) sorts) cursorRow row = side ty).
Proof.
  intros He.
  rewrite (keyset_predicate_applied sorts _ row ty e sorts_nonempty positions_ok He).
  rewrite (sorts_after_order D cursorRow row _ D_shipped _ (cursor_positions ty)).
  destruct ty; cbn [applied_sorts side]; [reflexivity|].
  rewrite (compare_rows_inverted D sorts _ _ D_shipped).
  destruct (compare_rows (map (order_of D) sorts) cursorRow row);
    simpl; split; congruence.
Qed.

(** X9.  The keyset predicate agrees with the ORDER BY of the query.  For
    each of the four dialects, the predicate built from the cursor of a row
    keeps exactly the rows that the query's ORDER BY clauses place strictly
    after that row; built for the inverted sort set, as for a [prevPage]
    token, exactly the rows placed strictly before it.  (NULL is the smallest
    value where the clause does not place it; the cursor row's output
    columns hold the values of the sorted columns, values met at a position
    are of one sortable type, and the final column is not NULL.) *)
Theorem keyset_predicate_matches_order :
  (exists e,
     buildCursorPredicateRecursive sorts (resolveCursor cursorRow sorts) 0 = Resolved e
     /\ (eval row e = Some true
         <-> compare_rows (map (order_of D) sorts) cursorRow row = Lt))
  /\ (exists e,
        buildCursorPredicateRecursive (invertSorts sorts)
          (resolveCursor cursorRow sorts) 0 = Resolved e
        /\ (eval row e = Some true
            <-> compare_rows (map (order_of D) sorts) cursorRow row = Gt)).
Proof.
  split.
  - destruct (resolveCursor_builds cursorRow sorts KNext sorts_nonempty) as [e He].
    exists e. split; [exact He|].
    rewrite (keyset_predicate_applied sorts _ row KNext e sorts_nonempty
               positions_ok He).
    apply (sorts_after_order D cursorRow row _ D_shipped), (cursor_positions KNext).
  - destruct (resolveCursor_builds cursorRow sorts KPrev sorts_nonempty) as [e He].
    exists e. split; [exact He|].
    rewrite (keyset_predicate_applied sorts _ row KPrev e sorts_nonempty
               positions_ok He).
    rewrite (sorts_after_order D cursorRow row _ D_shipped _ (cursor_positions KPrev)).
    cbn [applied_sorts]. rewrite (compare_rows_inverted D sorts _ _ D_shipped).
    destruct (compare_rows (map (order_of D) sorts) cursorRow row);
      simpl; split; congruence.
Qed.

End CursorRowOrder.

(** Under [age desc, id asc] with PostgreSQL: the row [{ age: 30, id: 6 }]
    comes after the row [{ age: 30, id: 5 }], and the predicate of the
    latter's cursor keeps it. *)
Lemma keyset_predicate_matches_order_witness :
  exists e,
    buildCursorPredicateRecursive byAgeThenId cursor_30_5 0 = Resolved e
    /\ eval (person 6 (VNum (Int 30))) e = Some true
    /\ compare_rows (map postgres_order byAgeThenId)
                    (person 5 (VNum (Int 30))) (person 6 (VNum (Int 30))) = Lt.
Proof.
  destruct (keyset_predicate_matches_order
              {| dialect_of := PostgresPaginationDialect;
                 order_of := postgres_order; limit_of := fun n _ => Limit n |}
              byAgeThenId (person 5 (VNum (Int 30))) (person 6 (VNum (Int 30))))
    as [(e & He & Hiff) _].
  - simpl. tauto.
  - discriminate.
  - repeat constructor.
  - apply cursor_30_5_positions.
    + exists (VNum (Int 30)). split; [reflexivity | right; eauto].
    + exists 6%Z. reflexivity.
  - exists e. split; [exact He|].
    assert (compare_rows (map postgres_order byAgeThenId)
              (person 5 (VNum (Int 30))) (person 6 (VNum (Int 30))) = Lt) as Horder
      by reflexivity.
    split; [apply Hiff, Horder | exact Horder].
Defined.

(** ** Pipes of pipes *)

Section CodecPipeComposition.

Context {V : Type}.
Implicit Types (c : Codec V V) (cs : list (Codec V V)).

Lemma encode_in_order_app cs1 cs2 (v : V) :
  encode_in_order (cs1 ++ cs2) v = encode_in_order cs1 v ≫= encode_in_order cs2.
Proof.
  revert v. induction cs1 as [|c rest IH]; intros v; simpl; [reflexivity|].
  rewrite bind_assoc. destruct (encode c v) as [x|e]; simpl; [apply IH | reflexivity].
Qed.

Lemma decode_in_reverse_app cs1 cs2 (w : V) :
  decode_in_reverse (cs1 ++ cs2) w = decode_in_reverse cs2 w ≫= decode_in_reverse cs1.
Proof.
  induction cs1 as [|c rest IH]; simpl.
  - now destruct (decode_in_reverse cs2 w).
  - rewrite IH, bind_assoc. reflexivity.
Qed.

(** X11.  Pipes compose.  The pipe of a concatenation of two lists of
    codecs encodes with the first pipe and then the second, and decodes with
    the second and then the first; the pipe of no codec is the identity; and
    a codec that fails ends the pipe with its failure, whatever the codecs
    are that would have run after it. *)
Theorem codecPipe_composition cs1 cs2 :
  (forall v, encode (codecPipe (cs1 ++ cs2)) v
             = encode (codecPipe cs1) v ≫= encode (codecPipe cs2))
  /\ (forall w, decode (codecPipe (cs1 ++ cs2)) w
                = decode (codecPipe cs2) w ≫= decode (codecPipe cs1))
  /\ (forall v : V, encode (codecPipe []) v = Resolved v)
  /\ (forall w : V, decode (codecPipe []) w = Resolved w)
  /\ (forall c v x e,
        encode (codecPipe cs1) v = Resolved x -> encode c x = Rejected e ->
        encode (codecPipe (cs1 ++ c :: cs2)) v = Rejected e)
  /\ (forall c w y e,
        decode (codecPipe cs2) w = Resolved y -> decode c y = Rejected e ->
        decode (codecPipe (cs1 ++ c :: cs2)) w = Rejected e).
Proof.
  split; [|split; [|split; [|split; [|split]]]].
  - intros v. rewrite !codecPipe_encode, encode_in_order_app.
    destruct (encode_in_order cs1 v) as [x|e]; cbn [mbind Promise_bind];
      [now rewrite codecPipe_encode | reflexivity].
  - intros w. rewrite !codecPipe_decode, decode_in_reverse_app.
    destruct (decode_in_reverse cs2 w) as [y|e]; cbn [mbind Promise_bind];
      [now rewrite codecPipe_decode | reflexivity].
  - reflexivity.
  - reflexivity.
  - intros c v x e Hx He. rewrite codecPipe_encode in *.
    rewrite encode_in_order_app, Hx. simpl. now rewrite He.
  - intros c w y e Hy He. rewrite codecPipe_decode in *.
    rewrite decode_in_reverse_app. simpl. rewrite Hy. simpl. now rewrite He.
Qed.

End CodecPipeComposition.

Example codecPipe_failure :
  decode (codecPipe [labelCodec "a"; labelCodec "b"; labelCodec "c"])
         (VArr [VStr "c"; VNum (Int 7)])
  = Rejected (GenericError "Error" "Malformed value").
Proof. reflexivity. Qed.

(** ** Tokens of the base64url codec *)

Lemma base64url_char_url_safe (v : Z) :
  (0 <= v < 64)%Z -> is_url_safe (Buffer.base64url_char v) = true.
Proof.
  intros Hv.
  assert (each_below 64 (fun v => is_url_safe (Buffer.base64url_char v)) = true)
    as Hall by (vm_compute; reflexivity).
  now apply each_below_spec with (z := v) in Hall.
Qed.

Lemma toString_base64url_url_safe (bs : list Z) :
  Forall is_byte bs ->
  forallb is_url_safe (Buffer.toString_base64url bs) = true.
Proof.
  assert (is_byte 0) as Hz by (unfold is_byte; lia).
  induction bs as [|b0|b0 b1|b0 b1 b2 rest IH] using list_by_three; intros Hbs.
  - reflexivity.
  - apply Forall_cons_1 in Hbs as [H0 _].
    destruct (sextets_in_range b0 0 H0 Hz) as (Hs0 & Hs1 & _).
    cbn [Buffer.toString_base64url forallb].
    change (Z.shiftr b0 2) with (sextet0 b0).
    replace (Z.shiftl (Z.land b0 3) 4) with (sextet1 b0 0)
      by (unfold sextet1; now rewrite Z.shiftr_0_l, Z.lor_0_r).
    now rewrite !base64url_char_url_safe.
  - apply Forall_cons_1 in Hbs as [H0 [H1 _]%Forall_cons_1].
    destruct (sextets_in_range b0 b1 H0 H1) as (Hs0 & Hs1 & _).
    destruct (sextets_in_range b1 0 H1 Hz) as (_ & _ & Hs2 & _).
    cbn [Buffer.toString_base64url forallb].
    change (Z.shiftr b0 2) with (sextet0 b0).
    change (Z.lor (Z.shiftl (Z.land b0 3) 4) (Z.shiftr b1 4)) with (sextet1 b0 b1).
    replace (Z.shiftl (Z.land b1 15) 2) with (sextet2 b1 0)
      by (unfold sextet2; now rewrite Z.shiftr_0_l, Z.lor_0_r).
    now rewrite !base64url_char_url_safe.
  - apply Forall_cons_1 in Hbs as [H0 [H1 [H2 Hrest]%Forall_cons_1]%Forall_cons_1].
    destruct (sextets_in_range b0 b1 H0 H1) as (Hs0 & Hs1 & _).
    destruct (sextets_in_range b1 b2 H1 H2) as (_ & _ & Hs2 & _).
    destruct (sextets_in_range b2 b2 H2 H2) as (_ & _ & _ & Hs3).
    cbn [Buffer.toString_base64url forallb].
    change (Z.shiftr b0 2) with (sextet0 b0).
    change (Z.lor (Z.shiftl (Z.land b0 3) 4) (Z.shiftr b1 4)) with (sextet1 b0 b1).
    change (Z.lor (Z.shiftl (Z.land b1 15) 2) (Z.shiftr b2 6)) with (sextet2 b1 b2).
    change (Z.land b2 63) with (sextet3 b2).
    rewrite !base64url_char_url_safe by assumption. now rewrite (IH Hrest).
Qed.

Lemma toString_base64url_size (bs : list Z) :
  length (Buffer.toString_base64url bs) = (4 * length bs + 2) / 3.
Proof.
  induction bs as [|b0|b0 b1|b0 b1 b2 rest IH] using list_by_three;
    try reflexivity.
  cbn [Buffer.toString_base64url length]. rewrite IH.
  replace (4 * S (S (S (length rest))) + 2) with (4 * length rest + 2 + 4 * 3) by lia.
  rewrite Nat.div_add by lia. lia.
Qed.

(** X12.  [base64UrlCodec.encode] never fails, and its tokens are safe in a
    URL: the token of a text of [n] bytes has ceil(4n/3) characters, each a
    letter, a digit, [-] or [_], with no padding; only the empty text has the
    empty token. *)
Theorem base64Url_encode_url_safe (s : string) :
  exists y,
    encode base64UrlCodec s = Resolved y
    /\ forallb is_url_safe (list_ascii_of_string y) = true
    /\ String.length y = (4 * String.length s + 2) / 3
    /\ (y = EmptyString <-> s = EmptyString).
Proof.
  eexists. split; [reflexivity|].
  assert (forall l : list ascii, String.length (string_of_list_ascii l) = length l)
    as Hlen by (induction l; simpl; congruence).
  assert (length (Buffer.from_utf8 s) = String.length s) as Hbytes.
  { unfold Buffer.from_utf8. rewrite length_map.
    induction s; simpl; congruence. }
  split; [|split].
  - rewrite list_ascii_of_string_of_list_ascii.
    apply toString_base64url_url_safe, from_utf8_bytes.
  - now rewrite Hlen, toString_base64url_size, Hbytes.
  - split.
    + intros Hy. apply (f_equal String.length) in Hy.
      rewrite Hlen, toString_base64url_size, Hbytes in Hy.
      destruct s as [|c s]; [reflexivity|].
      cbn [String.length] in Hy. apply Nat.div_small_iff in Hy; lia.
    + intros ->. reflexivity.
Qed.

(** ** Texts through the base64url codec *)

(** The UTF-8 decoder leaves well-formed bytes as they are. *)
Lemma utf8_decode_well_formed (bs : list Z) :
  well_formed_utf8 bs = true -> Buffer.utf8_decode None bs = bs.
Proof.
  remember (length bs) as n eqn:Hn. revert bs Hn.
  induction n as [n IH] using lt_wf_ind. intros bs Hn.
  destruct bs as [|b0 rest]; [reflexivity|].
  cbn [well_formed_utf8 Buffer.utf8_decode]. unfold Buffer.utf8_lead.
  destruct (Z.leb_spec 0 b0) as [Hpos|Hneg]; cbn [andb].
  - destruct (Z.leb_spec b0 0x7F) as [Hascii|Hhigh].
    + intros Hrest. cbn [app]. f_equal.
      apply (IH (length rest)); [subst n; simpl; lia | reflexivity | exact Hrest].
    + destruct ((0xC2 <=? b0)%Z && (b0 <=? 0xDF)%Z) eqn:H2.
      * destruct rest as [|b1 rest]; [discriminate|].
        intros [[Hlo Hhi]%andb_prop Hrest]%andb_prop.
        cbn [app Buffer.utf8_decode Buffer.lower Buffer.upper Buffer.needed
             Buffer.pending].
        rewrite Hlo, Hhi. cbn [andb app]. do 2 f_equal.
        apply (IH (length rest)); [subst n; simpl; lia | reflexivity | exact Hrest].
      * destruct ((0xE0 <=? b0)%Z && (b0 <=? 0xEF)%Z) eqn:H3.
        -- destruct rest as [|b1 [|b2 rest]]; try discriminate.
           intros [[[[Hlo1 Hhi1]%andb_prop Hlo2]%andb_prop Hhi2]%andb_prop
                     Hrest]%andb_prop.
           cbn [app Buffer.utf8_decode Buffer.lower Buffer.upper Buffer.needed
                Buffer.pending Nat.pred].
           rewrite Hlo1, Hhi1. cbn [andb].
           cbn [Buffer.utf8_decode Buffer.lower Buffer.upper Buffer.needed
                Buffer.pending app].
           rewrite Hlo2, Hhi2. cbn [andb app]. do 3 f_equal.
           apply (IH (length rest)); [subst n; simpl; lia | reflexivity | exact Hrest].
        -- destruct ((0xF0 <=? b0)%Z && (b0 <=? 0xF4)%Z) eqn:H4; [|discriminate].
           destruct rest as [|b1 [|b2 [|b3 rest]]]; try discriminate.
           intros [[[[[[Hlo1 Hhi1]%andb_prop Hlo2]%andb_prop Hhi2]%andb_prop
                       Hlo3]%andb_prop Hhi3]%andb_prop Hrest]%andb_prop.
           cbn [app Buffer.utf8_decode Buffer.lower Buffer.upper Buffer.needed
                Buffer.pending Nat.pred].
           rewrite Hlo1, Hhi1. cbn [andb].
           cbn [Buffer.utf8_decode Buffer.lower Buffer.upper Buffer.needed
                Buffer.pending app Nat.pred].
           rewrite Hlo2, Hhi2. cbn [andb].
           cbn [Buffer.utf8_decode Buffer.lower Buffer.upper Buffer.needed
                Buffer.pending app Nat.pred].
           rewrite Hlo3, Hhi3. cbn [andb app]. do 4 f_equal.
           apply (IH (length rest)); [subst n; simpl; lia | reflexivity | exact Hrest].
  - destruct ((0xC2 <=? b0)%Z && (b0 <=? 0xDF)%Z) eqn:H2; [lia|].
    destruct ((0xE0 <=? b0)%Z && (b0 <=? 0xEF)%Z) eqn:H3; [lia|].
    destruct ((0xF0 <=? b0)%Z && (b0 <=? 0xF4)%Z) eqn:H4; [lia | discriminate].
Qed.

(** Decoding the token of a text gives the text. *)
Lemma base64Url_decode_encode (s : string) :
  is_text s ->
  decode base64UrlCodec
    (string_of_list_ascii (Buffer.toString_base64url (Buffer.from_utf8 s)))
  = Resolved s.
Proof.
  intros Htext. simpl. unfold Buffer.from_base64url.
  rewrite decoder_input_ascii by apply toString_base64url_ascii.
  rewrite from_base64url_toString by apply from_utf8_bytes.
  unfold Buffer.toString_utf8. rewrite utf8_decode_well_formed by exact Htext.
  now rewrite string_of_bytes_from_utf8.
Qed.

(** X13.  The round trip of [base64UrlCodec] on texts: for every string
    whose bytes are well-formed UTF-8, in any script, decoding the token
    that [encode] returns gives the string back. *)
Theorem base64Url_round_trip_text (s : string) :
  is_text s ->
  exists y, encode base64UrlCodec s = Resolved y /\ decode base64UrlCodec y = Resolved s.
Proof.
  intros Htext. eexists. split; [reflexivity|].
  now apply base64Url_decode_encode.
Qed.

(** A text of two-, three- and four-byte characters. *)
Lemma base64Url_round_trip_text_witness :
  exists s y,
    Buffer.from_utf8 s
    = [0xC3; 0xA9; 0x20; 0xE2; 0x82; 0xAC; 0x20; 0xF0; 0x9F; 0x98; 0x80]%Z
    /\ encode base64UrlCodec s = Resolved y
    /\ decode base64UrlCodec y = Resolved s.
Proof.
  exists (Buffer.string_of_bytes
            [0xC3; 0xA9; 0x20; 0xE2; 0x82; 0xAC; 0x20; 0xF0; 0x9F; 0x98; 0x80]%Z).
  destruct (base64Url_round_trip_text
              (Buffer.string_of_bytes
                 [0xC3; 0xA9; 0x20; 0xE2; 0x82; 0xAC; 0x20; 0xF0; 0x9F; 0x98; 0x80]%Z)
              eq_refl) as (y & Henc & Hdec).
  exists y. split; [reflexivity | split; assumption].
Defined.

(** ** What the base64url codec decodes *)

Lemma unbase64_range (c : ascii) (v : Z) :
  Buffer.unbase64 c = Some v -> (0 <= v < 64)%Z.
Proof.
  unfold Buffer.unbase64. set (n := Buffer.byte_of_ascii c).
  repeat match goal with
         | |- context [if ?t then _ else _] => destruct t eqn:?
         end; intros [= <-]; lia.
Qed.

Lemma sextets_range (cs : list ascii) :
  Forall (fun v => (0 <= v < 64)%Z) (Buffer.sextets cs).
Proof.
  induction cs as [|c rest IH]; cbn [Buffer.sextets]; [constructor|].
  destruct (Buffer.unbase64 c) as [v|] eqn:Hv.
  - constructor; [now apply unbase64_range in Hv | exact IH].
  - destruct (Buffer.byte_of_ascii c =? 61)%Z; [constructor | exact IH].
Qed.

Lemma bytes_of_sextets_bytes (vs : list Z) :
  Forall (fun v => (0 <= v < 64)%Z) vs -> Forall is_byte (Buffer.bytes_of_sextets vs).
Proof.
  assert (forall v w, (0 <= v < 64)%Z -> (0 <= w < 64)%Z ->
            is_byte (Z.lor (Z.shiftl v 2) (Z.shiftr w 4))
            /\ is_byte (Z.lor (Z.shiftl (Z.land v 15) 4) (Z.shiftr w 2))
            /\ is_byte (Z.lor (Z.shiftl (Z.land v 3) 6) w)) as Hgroup.
  { intros v w Hv Hw.
    assert (each_below 64 (fun v => each_below 64 (fun w =>
              (0 <=? Z.lor (Z.shiftl v 2) (Z.shiftr w 4))
              && (Z.lor (Z.shiftl v 2) (Z.shiftr w 4) <? 256)
              && (0 <=? Z.lor (Z.shiftl (Z.land v 15) 4) (Z.shiftr w 2))
              && (Z.lor (Z.shiftl (Z.land v 15) 4) (Z.shiftr w 2) <? 256)
              && (0 <=? Z.lor (Z.shiftl (Z.land v 3) 6) w)
              && (Z.lor (Z.shiftl (Z.land v 3) 6) w <? 256))%Z) = true) as Hall
      by (vm_compute; reflexivity).
    apply each_below_spec with (z := v) in Hall; [|exact Hv].
    apply each_below_spec with (z := w) in Hall; [|exact Hw].
    unfold is_byte. lia. }
  remember (length vs) as n eqn:Hn. revert vs Hn.
  induction n as [n IH] using lt_wf_ind. intros vs Hn Hvs.
  destruct vs as [|v0 [|v1 [|v2 [|v3 rest]]]]; cbn [Buffer.bytes_of_sextets];
    repeat match goal with
           | H : Forall _ (_ :: _) |- _ => apply Forall_cons_1 in H as [? H]
           end;
    repeat (apply Forall_cons; split; [now apply Hgroup|]);
    try (now constructor).
  apply (IH (length rest)); [subst n; simpl; lia | reflexivity | assumption].
Qed.

Lemma from_base64url_bytes (s : string) : Forall is_byte (Buffer.from_base64url s).
Proof. apply bytes_of_sextets_bytes, sextets_range. Qed.

(** What the UTF-8 decoder returns is well-formed UTF-8, whatever the bytes
    it reads. *)

Ltac decide_tests :=
  repeat match goal with
         | |- context [(?a <=? ?b)%Z] =>
             first [ rewrite (proj2 (Z.leb_le a b)) by lia
                   | rewrite (proj2 (Z.leb_gt a b)) by lia ]
         | |- context [(?a =? ?b)%Z] =>
             first [ rewrite (proj2 (Z.eqb_eq a b)) by lia
                   | rewrite (proj2 (Z.eqb_neq a b)) by lia ]
         end; cbn [andb].

Lemma utf8_lead_ok (b : Z) (rest : list Z) :
  is_byte b ->
  (forall st, utf8_state_ok st ->
              well_formed_utf8 (Buffer.utf8_decode st rest) = true) ->
  well_formed_utf8 ((Buffer.utf8_lead b).1 ++ Buffer.utf8_decode (Buffer.utf8_lead b).2 rest)
  = true.
Proof.
  intros Hb IH. unfold Buffer.utf8_lead, is_byte in *.
  assert (b <= 0x7F \/ 0xC2 <= b <= 0xDF \/ 0xE0 <= b <= 0xEF \/ 0xF0 <= b <= 0xF4
          \/ (0x7F < b < 0xC2 \/ 0xF4 < b))%Z as [Hb1|[Hb2|[Hb3|[Hb4|Hbad]]]] by lia.
  - decide_tests. cbn [fst snd app well_formed_utf8]. decide_tests. now apply IH.
  - decide_tests. cbn [fst snd app]. apply IH. cbn.
    intros b1 out Hb1. decide_tests. reflexivity.
  - decide_tests. cbn [fst snd app]. apply IH. cbn.
    intros b1 Hb1 b2 out Hb2.
    destruct (Z.eqb_spec b 0xE0), (Z.eqb_spec b 0xED); decide_tests; reflexivity.
  - decide_tests. cbn [fst snd app]. apply IH. cbn.
    intros b1 Hb1 b2 Hb2 b3 out Hb3.
    destruct (Z.eqb_spec b 0xF0), (Z.eqb_spec b 0xF4); decide_tests; reflexivity.
  - destruct Hbad; decide_tests; cbn; now apply IH.
Qed.

Lemma utf8_decode_output (bs : list Z) :
  Forall is_byte bs ->
  forall st, utf8_state_ok st ->
             well_formed_utf8 (Buffer.utf8_decode st bs) = true.
Proof.
  induction 1 as [|b rest Hb _ IH]; intros st Hst.
  - destruct st; reflexivity.
  - cbn [Buffer.utf8_decode]. destruct st as [s|].
    + destruct (Z.leb_spec (Buffer.lower s) b) as [Hlo|Hlo]; cbn [andb];
        [destruct (Z.leb_spec b (Buffer.upper s)) as [Hhi|Hhi]|].
      * cbn [utf8_state_ok] in Hst.
        destruct (Buffer.needed s) as [|[|m]]; [destruct Hst| |].
        -- rewrite <- app_assoc. cbn [app].
           rewrite (Hst b _ (conj Hlo Hhi)). now apply IH.
        -- apply IH. cbn. exact (Hst b (conj Hlo Hhi)).
      * pose proof (utf8_lead_ok b rest Hb IH) as Hlead.
        destruct (Buffer.utf8_lead b) as [out st']. exact Hlead.
      * pose proof (utf8_lead_ok b rest Hb IH) as Hlead.
        destruct (Buffer.utf8_lead b) as [out st']. exact Hlead.
    + pose proof (utf8_lead_ok b rest Hb IH) as Hlead.
      destruct (Buffer.utf8_lead b) as [out st']. exact Hlead.
Qed.

(** What [base64UrlCodec.decode] returns is a text. *)
Lemma base64Url_decode_text (s : string) :
  is_text (Buffer.toString_utf8 (Buffer.from_base64url s)).
Proof.
  unfold is_text, Buffer.toString_utf8.
  assert (forall bs, Forall is_byte bs ->
                     Buffer.from_utf8 (Buffer.string_of_bytes bs) = bs) as Hbytes.
  { intros bs Hbs. unfold Buffer.from_utf8, Buffer.string_of_bytes.
    rewrite list_ascii_of_string_of_list_ascii, map_map.
    induction Hbs as [|b rest Hb _ IH]; [reflexivity|]. cbn [map]. rewrite IH.
    f_equal. unfold Buffer.byte_of_ascii, Buffer.ascii_of_byte, is_byte in *.
    rewrite nat_ascii_embedding by lia. lia. }
  assert (forall bs, well_formed_utf8 bs = true -> Forall is_byte bs) as Hwf.
  { intros bs. remember (length bs) as n eqn:Hn. revert bs Hn.
    induction n as [n IH] using lt_wf_ind. intros bs -> Hbs.
    destruct bs as [|b0 rest]; [constructor|].
    cbn [well_formed_utf8] in Hbs. unfold is_byte.
    repeat match type of Hbs with
           | (if ?t then _ else _) = true => destruct t eqn:?
           | match ?l with [] => _ | _ :: _ => _ end = true => destruct l
           | false = true => discriminate Hbs
           end;
      repeat match goal with
             | H : _ && _ = true |- _ => apply andb_prop in H as [? ?]
             end;
      repeat match goal with
             | H : (_ <=? _)%Z = true |- _ => apply Z.leb_le in H
             | H : (_ <=? _)%Z = false |- _ => clear H
             | H : ((if (?a =? ?b) then _ else _) <= _)%Z |- _ => destruct (a =? b)%Z
             | H : (_ <= (if (?a =? ?b) then _ else _))%Z |- _ => destruct (a =? b)%Z
             end;
      repeat (apply Forall_cons; split; [lia|]);
      (eapply IH; [| reflexivity | eassumption]; cbn [length]; lia). }
  pose proof (utf8_decode_output _ (from_base64url_bytes s) None I) as Hout.
  now rewrite Hbytes by now apply Hwf.
Qed.

(** C9, as the code has it.  [base64UrlCodec.decode] never raises a
    failure: for every string, the encoding of a text or not, it returns a
    text; and what is not an encoding is silently coerced: the text returned
    is the one the codec returns for a well-formed token, the encoding of
    that text. *)
Theorem base64Url_decode_never_fails (s : string) :
  exists t token,
    decode base64UrlCodec s = Resolved t
    /\ is_text t
    /\ encode base64UrlCodec t = Resolved token
    /\ decode base64UrlCodec token = Resolved t.
Proof.
  exists (Buffer.toString_utf8 (Buffer.from_base64url s)).
  eexists. split; [reflexivity|].
  pose proof (base64Url_decode_text s) as Htext.
  split; [exact Htext|]. split; [reflexivity|].
  now apply base64Url_decode_encode.
Qed.

(** The strings ["!"] and ["YQ!"] are not encodings: they decode as the
    encodings [""] and ["YQ"] do. *)
Example base64Url_decode_coerces :
  decode base64UrlCodec "!" = decode base64UrlCodec ""
  /\ decode base64UrlCodec "YQ!" = decode base64UrlCodec "YQ"
  /\ encode base64UrlCodec "a" = Resolved "YQ".
Proof. repeat split. Qed.

(** ** The AES codec *)

Lemma unbase64_base64_char (v : Z) :
  (0 <= v < 64)%Z -> Buffer.unbase64 (Buffer.base64_char v) = Some v.
Proof.
  intros Hv.
  assert (each_below 64
            (fun v => match Buffer.unbase64 (Buffer.base64_char v) with
                      | Some v' => (v' =? v)%Z
                      | None => false
                      end) = true) as Hall by (vm_compute; reflexivity).
  apply each_below_spec with (z := v) in Hall; [|lia].
  destruct (Buffer.unbase64 (Buffer.base64_char v)) as [v'|]; [|discriminate].
  f_equal. lia.
Qed.

(** The decoder reads the same values from the two encodings of a buffer:
    the alphabets differ in two characters that stand for the same values,
    and the padding ends the reading. *)
Lemma sextets_toString_base64 (bs : list Z) :
  Forall is_byte bs ->
  Buffer.sextets (Buffer.toString_base64 bs)
  = Buffer.sextets (Buffer.toString_base64url bs).
Proof.
  assert (is_byte 0) as Hz by (unfold is_byte; lia).
  induction bs as [|b0|b0 b1|b0 b1 b2 rest IH] using list_by_three; intros Hbs.
  - reflexivity.
  - apply Forall_cons_1 in Hbs as [H0 _].
    destruct (sextets_in_range b0 0 H0 Hz) as (Hs0 & Hs1 & _).
    cbn [Buffer.toString_base64 Buffer.toString_base64url Buffer.sextets].
    change (Z.shiftr b0 2) with (sextet0 b0).
    replace (Z.shiftl (Z.land b0 3) 4) with (sextet1 b0 0)
      by (unfold sextet1; now rewrite Z.shiftr_0_l, Z.lor_0_r).
    now rewrite !unbase64_base64_char, !unbase64_base64url_char.
  - apply Forall_cons_1 in Hbs as [H0 [H1 _]%Forall_cons_1].
    destruct (sextets_in_range b0 b1 H0 H1) as (Hs0 & Hs1 & _).
    destruct (sextets_in_range b1 0 H1 Hz) as (_ & _ & Hs2 & _).
    cbn [Buffer.toString_base64 Buffer.toString_base64url Buffer.sextets].
    change (Z.shiftr b0 2) with (sextet0 b0).
    change (Z.lor (Z.shiftl (Z.land b0 3) 4) (Z.shiftr b1 4)) with (sextet1 b0 b1).
    replace (Z.shiftl (Z.land b1 15) 2) with (sextet2 b1 0)
      by (unfold sextet2; now rewrite Z.shiftr_0_l, Z.lor_0_r).
    now rewrite !unbase64_base64_char, !unbase64_base64url_char.
  - apply Forall_cons_1 in Hbs as [H0 [H1 [H2 Hrest]%Forall_cons_1]%Forall_cons_1].
    destruct (sextets_in_range b0 b1 H0 H1) as (Hs0 & Hs1 & _).
    destruct (sextets_in_range b1 b2 H1 H2) as (_ & _ & Hs2 & _).
    destruct (sextets_in_range b2 b2 H2 H2) as (_ & _ & _ & Hs3).
    cbn [Buffer.toString_base64 Buffer.toString_base64url Buffer.sextets].
    change (Z.shiftr b0 2) with (sextet0 b0).
    change (Z.lor (Z.shiftl (Z.land b0 3) 4) (Z.shiftr b1 4)) with (sextet1 b0 b1).
    change (Z.lor (Z.shiftl (Z.land b1 15) 2) (Z.shiftr b2 6)) with (sextet2 b1 b2).
    change (Z.land b2 63) with (sextet3 b2).
    rewrite !unbase64_base64_char, !unbase64_base64url_char by assumption.
    now rewrite (IH Hrest).
Qed.

(** Decoding the base64 text of a buffer gives the buffer back. *)
Lemma from_base64_toString (bs : list Z) :
  Forall is_byte bs ->
  Buffer.from_base64 (string_of_list_ascii (Buffer.toString_base64 bs)) = bs.
Proof.
  intros Hbs. unfold Buffer.from_base64.
  rewrite decoder_input_ascii by apply toString_base64_ascii.
  rewrite sextets_toString_base64 by exact Hbs.
  now apply from_base64url_toString.
Qed.

Lemma sextets_length (cs : list ascii) : length (Buffer.sextets cs) <= length cs.
Proof.
  induction cs as [|c rest IH]; simpl; [lia|].
  destruct (Buffer.unbase64 c); [simpl; lia|].
  destruct (Buffer.byte_of_ascii c =? 61)%Z; simpl; lia.
Qed.

Lemma bytes_of_sextets_length (vs : list Z) :
  4 * length (Buffer.bytes_of_sextets vs) <= 3 * length vs.
Proof.
  remember (length vs) as n eqn:Hn. revert vs Hn.
  induction n as [n IH] using lt_wf_ind. intros vs Hn.
  destruct vs as [|v0 [|v1 [|v2 [|v3 rest]]]]; simpl in *; try lia.
  specialize (IH (length rest) ltac:(lia) rest eq_refl). lia.
Qed.

(** A text of fewer than sixty characters holds fewer than forty-five
    bytes. *)
Lemma from_base64_short (payload : string) :
  String.length payload < 60 -> length (Buffer.from_base64 payload) < 45.
Proof.
  intros Hshort. unfold Buffer.from_base64.
  pose proof (bytes_of_sextets_length (Buffer.sextets (Buffer.decoder_input payload))).
  pose proof (sextets_length (Buffer.decoder_input payload)).
  pose proof (decoder_input_length payload).
  lia.
Qed.

Section AesCodecProperties.

Context {Entropy : Type}.
Variable randomBytes : nat -> Entropy -> list Z * Entropy.
Variable scrypt : string -> list Z -> nat -> ScryptOptions -> Promise (list Z).
Variable encrypt : list Z -> list Z -> list Z -> list Z -> Promise (list Z * list Z).
Variable decrypt : list Z -> list Z -> list Z -> list Z -> list Z -> Promise (list Z).
Variable secret : string.

Let codec := createAesCodec randomBytes scrypt encrypt decrypt secret.

(** X14.  [createAesCodec(secret).decode] checks the header before it
    derives a key or opens anything: a payload whose base64 reading has
    fewer than 45 bytes, so every payload of fewer than 60 characters, is
    refused as too short; a payload of 45 bytes or more whose first byte is
    not 1 is refused with that byte named as the unsupported version.  Both
    are plain errors, whatever the secret is. *)
Theorem createAesCodec_decode_header (payload : string) (world : Entropy) :
  (length (Buffer.from_base64 payload) < 45 ->
   run_decode codec payload world
   = (Rejected (GenericError "Error" "Invalid payload: too short"), world))
  /\ (String.length payload < 60 ->
      run_decode codec payload world
      = (Rejected (GenericError "Error" "Invalid payload: too short"), world))
  /\ (forall version rest,
        Buffer.from_base64 payload = version :: rest ->
        44 <= length rest -> version <> 1%Z ->
        run_decode codec payload world
        = (Rejected (GenericError "Error"
                       ("Unsupported version: " +:+ pretty version)), world)).
Proof.
  assert (length (Buffer.from_base64 payload) < 45 ->
          run_decode codec payload world
          = (Rejected (GenericError "Error" "Invalid payload: too short"), world))
    as Hshort.
  { intros Hlen. unfold codec, createAesCodec. cbn [run_decode]. cbn zeta.
    destruct (Nat.ltb_spec (length (Buffer.from_base64 payload))
                           (1 + SALT_LEN + IV_LEN + TAG_LEN)) as [_|Hge];
      [reflexivity | change (1 + SALT_LEN + IV_LEN + TAG_LEN) with 45 in Hge; lia]. }
  split; [exact Hshort | split].
  - intros Hchars. apply Hshort, from_base64_short, Hchars.
  - intros version rest Hbuf Hlen Hversion.
    unfold codec, createAesCodec. cbn [run_decode]. cbn zeta. rewrite Hbuf.
    destruct (Nat.ltb_spec (length (version :: rest))
                           (1 + SALT_LEN + IV_LEN + TAG_LEN)) as [Hlt|_];
      [change (1 + SALT_LEN + IV_LEN + TAG_LEN) with 45 in Hlt; simpl in Hlt; lia|].
    unfold Buffer.subarray. cbn [drop take Nat.sub head].
    destruct version as [|[]|]; congruence.
Qed.

(** The parts of a payload: the version, the salt, the IV and the tag at
    their offsets, the ciphertext after them. *)
Lemma payload_parts (salt iv tag ciphertext : list Z) :
  length salt = SALT_LEN -> length iv = IV_LEN -> length tag = TAG_LEN ->
  let buf := VERSION ++ salt ++ iv ++ tag ++ ciphertext in
  45 <= length buf
  /\ Buffer.subarray buf 0 1 = VERSION
  /\ Buffer.subarray buf 1 (1 + SALT_LEN) = salt
  /\ Buffer.subarray buf (1 + SALT_LEN) (1 + SALT_LEN + IV_LEN) = iv
  /\ Buffer.subarray buf (1 + SALT_LEN + IV_LEN) (1 + SALT_LEN + IV_LEN + TAG_LEN) = tag
  /\ drop (1 + SALT_LEN + IV_LEN + TAG_LEN) buf = ciphertext.
Proof.
  intros Hsalt Hiv Htag buf. unfold buf, Buffer.subarray.
  unfold SALT_LEN, IV_LEN, TAG_LEN in *.
  split; [rewrite !length_app; simpl; lia|].
  split; [reflexivity|].
  split; [simpl; apply take_app_length'; lia|].
  assert (drop 17 (VERSION ++ salt ++ iv ++ tag ++ ciphertext)
          = iv ++ tag ++ ciphertext) as H17
    by (simpl; apply drop_app_length'; lia).
  assert (drop 29 (VERSION ++ salt ++ iv ++ tag ++ ciphertext)
          = tag ++ ciphertext) as H29.
  { transitivity (drop 12 (drop 17 (VERSION ++ salt ++ iv ++ tag ++ ciphertext)));
      [now rewrite drop_drop|].
    rewrite H17. apply drop_app_length'; lia. }
  split; [cbn [Nat.add Nat.sub]; rewrite H17; apply take_app_length'; lia|].
  split; [cbn [Nat.add Nat.sub]; rewrite H29; apply take_app_length'; lia|].
  transitivity (drop 16 (drop 29 (VERSION ++ salt ++ iv ++ tag ++ ciphertext)));
    [now rewrite drop_drop|].
  rewrite H29. apply drop_app_length'; lia.
Qed.

Lemma toString_base64_size (bs : list Z) :
  length (Buffer.toString_base64 bs) = 4 * ((length bs + 2) / 3).
Proof.
  induction bs as [|b0|b0 b1|b0 b1 b2 rest IH] using list_by_three;
    try reflexivity.
  cbn [Buffer.toString_base64 length]. rewrite IH.
  replace (S (S (S (length rest))) + 2) with (length rest + 2 + 1 * 3) by lia.
  rewrite Nat.div_add by lia. lia.
Qed.

(** X15.  The round trip of the AES codec.  A token that
    [createAesCodec(secret).encode] returns is the base64 text of the version
    byte 1, the 16-byte salt, the 12-byte IV, the 16-byte tag and the
    ciphertext, in this order, so of at least 60 characters; and [decode]
    with the same secret finds these parts again, derives the same key from
    the salt, opens the ciphertext under the same additional data and
    returns the text that was encoded.  (The random bytes are bytes, the
    sealing gives bytes and a 16-byte tag, and opening inverts sealing.) *)
Theorem createAesCodec_round_trip (plain token : string) (world world' : Entropy) :
  crypto_laws randomBytes encrypt decrypt ->
  run_encode codec plain world = (Resolved token, world') ->
  (exists salt iv tag ciphertext,
     Buffer.from_base64 token = [1%Z] ++ salt ++ iv ++ tag ++ ciphertext
     /\ length salt = 16 /\ length iv = 12 /\ length tag = 16)
  /\ 60 <= String.length token
  /\ (forall later,
        run_decode codec token later
        = (Resolved (Buffer.toString_utf8 (Buffer.from_utf8 plain)), later))
  /\ (is_text plain ->
      forall later, run_decode codec token later = (Resolved plain, later)).
Proof.
  intros [Hrandom Hsealed Hopened] Hencode.
  unfold codec, createAesCodec in Hencode. cbn [run_encode] in Hencode.
  destruct (Hrandom SALT_LEN world) as [Hsalt_len Hsalt_bytes].
  destruct (randomBytes SALT_LEN world) as [salt world1].
  cbn [fst] in Hsalt_len, Hsalt_bytes.
  destruct (scrypt secret salt KEY_LEN SCRYPT) as [key|e] eqn:Hkey;
    [|discriminate].
  destruct (Hrandom IV_LEN world1) as [Hiv_len Hiv_bytes].
  destruct (randomBytes IV_LEN world1) as [iv world2].
  cbn [fst] in Hiv_len, Hiv_bytes.
  destruct (encrypt key iv (VERSION ++ salt) (Buffer.from_utf8 plain))
    as [[ciphertext tag]|e] eqn:Hseal; [|discriminate].
  cbn [mbind Promise_bind] in Hencode.
  apply pair_equal_spec in Hencode as [Htoken _].
  assert (token = string_of_list_ascii
                    (Buffer.toString_base64
                       (VERSION ++ salt ++ iv ++ tag ++ ciphertext))) as ->
    by congruence.
  clear Htoken.
  destruct (Hsealed _ _ _ _ _ _ (from_utf8_bytes plain) Hseal)
    as (Htag_len & Htag_bytes & Hcipher_bytes).
  set (buf := VERSION ++ salt ++ iv ++ tag ++ ciphertext).
  assert (Forall is_byte buf) as Hbuf.
  { unfold buf. repeat apply Forall_app_2; try assumption.
    repeat constructor; unfold is_byte; lia. }
  destruct (payload_parts salt iv tag ciphertext Hsalt_len Hiv_len Htag_len)
    as (Hlen & Hver & Hsalt & Hiv & Htag & Hcipher). fold buf in Hlen, Hver, Hsalt, Hiv, Htag, Hcipher.
  assert (forall later,
            run_decode codec (string_of_list_ascii (Buffer.toString_base64 buf)) later
            = (Resolved (Buffer.toString_utf8 (Buffer.from_utf8 plain)), later))
    as Hdecode.
  { intros later. unfold codec, createAesCodec. cbn [run_decode]. cbn zeta.
    rewrite (from_base64_toString buf Hbuf).
    destruct (Nat.ltb_spec (length buf) (1 + SALT_LEN + IV_LEN + TAG_LEN)) as [Hlt|_];
      [change (1 + SALT_LEN + IV_LEN + TAG_LEN) with 45 in Hlt; lia|].
    rewrite Hver, Hsalt, Hiv, Htag, Hcipher. cbn [head VERSION].
    rewrite Hkey. cbn [mbind Promise_bind].
    now rewrite (Hopened _ _ _ _ _ _ Hseal). }
  split; [|split; [|split]].
  - exists salt, iv, tag, ciphertext.
    split; [apply (from_base64_toString buf Hbuf) | auto].
  - assert (forall l : list ascii, String.length (string_of_list_ascii l) = length l)
      as Hsize by (induction l; simpl; congruence).
    rewrite Hsize, toString_base64_size.
    assert (15 <= (length buf + 2) / 3) by (apply Nat.div_le_lower_bound; lia).
    lia.
  - exact Hdecode.
  - intros Htext later. rewrite Hdecode. do 2 f_equal.
    unfold Buffer.toString_utf8. rewrite utf8_decode_well_formed by exact Htext.
    apply string_of_bytes_from_utf8.
Qed.

End AesCodecProperties.

Lemma reversing_crypto_laws :
  crypto_laws counting_randomBytes reversing_encrypt reversing_decrypt.
Proof.
  split.
  - intros n world. unfold counting_randomBytes. cbn [fst].
    split; [apply repeat_length|].
    apply List.Forall_forall. intros b Hb%repeat_spec. subst b.
    pose proof (Nat.mod_upper_bound world 256). unfold is_byte. lia.
  - intros key iv aad plain ciphertext tag Hplain [= <- <-].
    split; [reflexivity|]. split.
    + repeat constructor; unfold is_byte; lia.
    + now apply Forall_rev.
  - intros key iv aad plain ciphertext tag [= <- <-].
    unfold reversing_decrypt. rewrite decide_True by reflexivity.
    now rewrite rev_involutive.
Qed.

(** A short payload, and one of 45 bytes that begins with the byte 2. *)
Lemma createAesCodec_decode_header_witness :
  run_decode (createAesCodec counting_randomBytes repeating_scrypt
                reversing_encrypt reversing_decrypt "secret") "AQID" 0
  = (Rejected (GenericError "Error" "Invalid payload: too short"), 0)
  /\ run_decode (createAesCodec counting_randomBytes repeating_scrypt
                   reversing_encrypt reversing_decrypt "secret")
       "AgAAAAAAAAAAAAAAAAAAAAAAAAAAAAAAAAAAAAAAAAAAAAAAAAAAAAAAAAAA" 0
     = (Rejected (GenericError "Error" "Unsupported version: 2"), 0).
Proof.
  split.
  - apply (proj1 (proj2 (createAesCodec_decode_header counting_randomBytes
                           repeating_scrypt reversing_encrypt reversing_decrypt
                           "secret" "AQID" 0))).
    simpl. lia.
  - apply (proj2 (proj2 (createAesCodec_decode_header counting_randomBytes
                           repeating_scrypt reversing_encrypt reversing_decrypt
                           "secret"
                           "AgAAAAAAAAAAAAAAAAAAAAAAAAAAAAAAAAAAAAAAAAAAAAAAAAAAAAAAAAAA"
                           0))
             2%Z (repeat 0%Z 44));
      [vm_compute; reflexivity | simpl; lia | discriminate].
Defined.

(** A text sealed and opened again. *)
Lemma createAesCodec_round_trip_witness :
  exists token,
    run_encode (createAesCodec counting_randomBytes repeating_scrypt
                  reversing_encrypt reversing_decrypt "secret") "page 2" 0
    = (Resolved token, 2)
    /\ run_decode (createAesCodec counting_randomBytes repeating_scrypt
                     reversing_encrypt reversing_decrypt "secret") token 7
       = (Resolved "page 2", 7).
Proof.
  eexists. split; [vm_compute; reflexivity|].
  eapply (proj2 (proj2 (proj2 (createAesCodec_round_trip counting_randomBytes
                                 repeating_scrypt reversing_encrypt reversing_decrypt
                                 "secret" "page 2" _ 0 2 reversing_crypto_laws _)))).
  Unshelve.
  - reflexivity.
  - vm_compute. reflexivity.
Defined.

(** ** The stash codec *)

Section StashCodecProperties.

Context {Entropy S : Type}.
Variable randomUUID : Entropy -> string * Entropy.
Variable stash : Stash.t S.

Let codec := stashCodec randomUUID stash.

Lemma stashCodec_encode (value key : string) (world world' : Entropy * S) :
  run_encode codec value world = (Resolved key, world') ->
  key = (randomUUID world.1).1
  /\ world'.1 = (randomUUID world.1).2
  /\ Stash.set stash key value world.2 = (Resolved tt, world'.2).
Proof.
  unfold codec, stashCodec. cbn [run_encode].
  destruct world as [entropy store], world' as [entropy' store']. cbn [fst snd].
  destruct (randomUUID entropy) as [drawn entropy1]. cbn [fst snd].
  destruct (Stash.set stash drawn value store) as [[[]|e] store1] eqn:Hset;
    cbn [mbind Promise_bind]; [|discriminate].
  intros [= <- <- <-]. repeat split. exact Hset.
Qed.

Lemma stashCodec_decode (key : string) (world : Entropy * S) :
  keeps stash ->
  run_decode codec key world = ((Stash.get stash key world.2).1, world).
Proof.
  intros Hkeeps. unfold codec, stashCodec. cbn [run_decode].
  destruct world as [entropy store]. cbn [fst snd].
  pose proof (get_reads stash Hkeeps key store) as Hreads.
  destruct (Stash.get stash key store) as [found store1]. cbn [fst snd] in *.
  now subst store1.
Qed.

(** X16.  The round trip of the stash codec.  With a stash that keeps what
    it is given, [encode] stores the value under the key it draws with
    [randomUUID] and returns that key, and [decode] of the key finds the
    value, at once and after a later [encode] that drew another key; the
    codec does not look whether a key is in use, so a later [encode] that
    draws the same key again replaces the value, and the key then decodes to
    the later value. *)
Theorem stashCodec_round_trip (value1 value2 key1 key2 : string)
    (world world1 world2 : Entropy * S) :
  keeps stash ->
  run_encode codec value1 world = (Resolved key1, world1) ->
  run_encode codec value2 world1 = (Resolved key2, world2) ->
  key1 = (randomUUID world.1).1
  /\ run_decode codec key1 world1 = (Resolved value1, world1)
  /\ run_decode codec key2 world2 = (Resolved value2, world2)
  /\ (key1 <> key2 -> run_decode codec key1 world2 = (Resolved value1, world2))
  /\ (key1 = key2 -> run_decode codec key1 world2 = (Resolved value2, world2)).
Proof.
  intros Hkeeps (Hkey1 & _ & Hset1)%stashCodec_encode
         (Hkey2 & _ & Hset2)%stashCodec_encode.
  split; [exact Hkey1|].
  rewrite !(stashCodec_decode _ _ Hkeeps).
  pose proof (get_set stash Hkeeps _ _ _ _ Hset1) as Hget1.
  pose proof (get_set stash Hkeeps _ _ _ _ Hset2) as Hget2.
  split; [now rewrite Hget1|]. split; [now rewrite Hget2|]. split.
  - intros Hne.
    now rewrite (get_other stash Hkeeps _ _ _ _ _ Hne Hset2), Hget1.
  - intros ->. now rewrite Hget2.
Qed.

End StashCodecProperties.

Lemma memoryStash_keeps : keeps memoryStash.
Proof.
  split.
  - reflexivity.
  - intros key value store store' [= <-]. simpl. now rewrite lookup_insert_eq.
  - intros key other value store store' Hne [= <-]. simpl.
    now rewrite lookup_insert_ne.
Qed.

(** Two values stashed in memory under the keys [uuid-0] and [uuid-1]; and
    with a source that draws [uuid-0] twice, the first value is lost. *)
Lemma stashCodec_round_trip_witness :
  (exists world,
     run_decode (stashCodec counting_randomUUID memoryStash) "uuid-0" world
     = (Resolved "first", world)
     /\ run_decode (stashCodec counting_randomUUID memoryStash) "uuid-1" world
        = (Resolved "second", world))
  /\ (exists world,
        run_decode (stashCodec stuck_randomUUID memoryStash) "uuid-0" world
        = (Resolved "second", world)).
Proof.
  split.
  - exists (2, <["uuid-1" := "second"]> (<["uuid-0" := "first"]> ∅)).
    destruct (stashCodec_round_trip counting_randomUUID memoryStash
                "first" "second" "uuid-0" "uuid-1"
                (0, ∅) (1, <["uuid-0" := "first"]> ∅)
                (2, <["uuid-1" := "second"]> (<["uuid-0" := "first"]> ∅))
                memoryStash_keeps eq_refl eq_refl)
      as (_ & _ & Hsecond & Hfirst & _).
    split; [apply Hfirst; discriminate | exact Hsecond].
  - exists (2, <["uuid-0" := "second"]> (<["uuid-0" := "first"]> ∅)).
    destruct (stashCodec_round_trip stuck_randomUUID memoryStash
                "first" "second" "uuid-0" "uuid-0"
                (0, ∅) (1, <["uuid-0" := "first"]> ∅)
                (2, <["uuid-0" := "second"]> (<["uuid-0" := "first"]> ∅))
                memoryStash_keeps eq_refl eq_refl)
      as (_ & _ & _ & _ & Hlost).
    now apply Hlost.
Defined.

(** ** The default cursor codec *)

(** The pipe of two codecs of one value type is [codecPipe] of the two. *)
Lemma codecPipe2_codecPipe {V : Type} (c1 c2 : Codec V V) :
  codecPipe2 c1 c2 = codecPipe [c1; c2].
Proof. reflexivity. Qed.

Section DefaultCodecProperties.

Variable stringify : JsValue -> Promise string.
Variable parse : string -> Promise JsValue.

Let codec := DEFAULT_CURSOR_CODEC stringify parse.

Lemma DEFAULT_CURSOR_CODEC_encode (v : JsValue) :
  encode codec v
  = (text ← stringify v;
     Resolved (string_of_list_ascii
                 (Buffer.toString_base64url (Buffer.from_utf8 text)))).
Proof. unfold codec. simpl. now destruct (stringify v). Qed.

Lemma DEFAULT_CURSOR_CODEC_decode (token : string) :
  decode codec token = parse (Buffer.toString_utf8 (Buffer.from_base64url token)).
Proof. reflexivity. Qed.

(** X17.  The default cursor codec, [codecPipe(superJsonCodec,
    base64UrlCodec)].  Its tokens are the base64url texts of what superjson
    writes, so they are safe in a URL, and empty only if superjson wrote the
    empty text; decoding any string at all reads it as base64url first,
    without failing, and fails exactly when superjson cannot parse what was
    read; and a value that superjson writes as a text and reads back from it
    makes the round trip through the codec. *)
Theorem DEFAULT_CURSOR_CODEC_round_trip (v : JsValue) (text : string) :
  stringify v = Resolved text ->
  exists token,
    encode codec v = Resolved token
    /\ forallb is_url_safe (list_ascii_of_string token) = true
    /\ (token = EmptyString <-> text = EmptyString)
    /\ (forall any, decode codec any
                    = parse (Buffer.toString_utf8 (Buffer.from_base64url any)))
    /\ (is_text text -> decode codec token = parse text)
    /\ (is_text text -> parse text = Resolved v -> decode codec token = Resolved v).
Proof.
  intros Htext. rewrite DEFAULT_CURSOR_CODEC_encode, Htext. cbn [mbind Promise_bind].
  eexists. split; [reflexivity|].
  assert (is_text text ->
          decode codec (string_of_list_ascii
                          (Buffer.toString_base64url (Buffer.from_utf8 text)))
          = parse text) as Hdecode.
  { intros Hwf. rewrite DEFAULT_CURSOR_CODEC_decode. f_equal.
    pose proof (base64Url_decode_encode text Hwf) as Hback.
    now injection Hback. }
  split; [|split; [|split; [|split]]].
  - rewrite list_ascii_of_string_of_list_ascii.
    apply toString_base64url_url_safe, from_utf8_bytes.
  - split.
    + intros Hempty. apply (f_equal list_ascii_of_string) in Hempty.
      rewrite list_ascii_of_string_of_list_ascii in Hempty.
      apply from_utf8_nil.
      destruct (Buffer.from_utf8 text) as [|b0 [|b1 [|b2 rest]]];
        [reflexivity | discriminate..].
    + intros ->. reflexivity.
  - intros any. apply DEFAULT_CURSOR_CODEC_decode.
  - exact Hdecode.
  - intros Hwf Hparse. now rewrite Hdecode.
Qed.

End DefaultCodecProperties.

Lemma DEFAULT_CURSOR_CODEC_round_trip_witness :
  encode (DEFAULT_CURSOR_CODEC id_stringify id_parse)
         (payload_value (resolveCursor user_b byId))
  = Resolved "aWQ9Yg"
  /\ decode (DEFAULT_CURSOR_CODEC id_stringify id_parse) "aWQ9Yg"
     = Resolved (payload_value (resolveCursor user_b byId)).
Proof.
  destruct (DEFAULT_CURSOR_CODEC_round_trip id_stringify id_parse
              (payload_value (resolveCursor user_b byId)) "id=b"
              ltac:(vm_compute; reflexivity))
    as (token & Hencode & _ & _ & _ & _ & Hdecode).
  assert (token = "aWQ9Yg") as -> by (vm_compute in Hencode; congruence).
  split; [exact Hencode|]. apply Hdecode; vm_compute; reflexivity.
Defined.

(** ** Paginators *)

Section CreatePaginator.

Variable stringify : JsValue -> Promise string.
Variable parse : string -> Promise JsValue.
Context {Q : Type}.
Variable execute : Q -> Promise (list Row).
Variable dialect : PaginationDialect Q.

Let paginator := createPaginator stringify parse execute (with_default_codec dialect).

(** X18.  A paginator made without a cursor codec.  Its two methods are
    [paginate] and [paginateWithEdges] with the dialect of the options and
    the default codec; a paginator made with a cursor codec uses that one.
    Every cursor of a page it returns is safe in a URL; and when superjson
    never writes the empty text, [hasNextPage] is true exactly when the page
    has a [nextPage], and [hasPrevPage] exactly when it has a [prevPage]. *)
Theorem createPaginator_default_codec (args : PaginateArgs.t Q)
    (res : PaginatedResult.t) :
  Paginator.paginate paginator args = Resolved res ->
  Paginator.paginate paginator args
  = paginate execute (PaginateArgs.query args) (PaginateArgs.sorts args)
             (PaginateArgs.limit args) (PaginateArgs.cursor args) dialect
             (DEFAULT_CURSOR_CODEC stringify parse)
  /\ (forall given,
        Paginator.paginate
          (createPaginator stringify parse execute
             {| PaginatorOptions.dialect := dialect;
                PaginatorOptions.cursorCodec := Some given |}) args
        = paginate execute (PaginateArgs.query args) (PaginateArgs.sorts args)
                   (PaginateArgs.limit args) (PaginateArgs.cursor args) dialect given)
  /\ (forall token, Some token ∈ page_cursors res ->
                    forallb is_url_safe (list_ascii_of_string token) = true)
  /\ ((forall v, stringify v <> Resolved EmptyString) ->
      (PaginatedResult.hasNextPage res = true
       <-> is_Some (PaginatedResult.nextPage res))
      /\ (PaginatedResult.hasPrevPage res = true
          <-> is_Some (PaginatedResult.prevPage res))).
Proof.
  intros Hres. split; [reflexivity|]. split; [reflexivity|].
  unfold paginator, createPaginator, with_default_codec in Hres.
  cbn [Paginator.paginate PaginatorOptions.cursorCodec PaginatorOptions.dialect
       default] in Hres.
  set (codec := DEFAULT_CURSOR_CODEC stringify parse) in *.
  apply paginate_Resolved in Hres
    as (n & decodedCursor & q & rows & tokens & _ & _ & _ & _ & _ & _ & _
        & Htokens & ->).
  apply resolvePageTokens_Resolved in Htokens.
  assert (forall item token,
            token_of codec (PaginateArgs.sorts args) item = Resolved token ->
            forallb is_url_safe (list_ascii_of_string token) = true
            /\ ((forall v, stringify v <> Resolved EmptyString) ->
                token <> EmptyString)) as Htoken.
  { intros item token. unfold token_of, codec.
    rewrite DEFAULT_CURSOR_CODEC_encode.
    intros (text & Htext & [= <-])%bind_Resolved_inv. split.
    - rewrite list_ascii_of_string_of_list_ascii.
      apply toString_base64url_url_safe, from_utf8_bytes.
    - intros Hnonempty Hempty.
      assert (text = EmptyString) as Hnone; [|rewrite Hnone in Htext;
                                              exact (Hnonempty _ Htext)].
      apply (f_equal list_ascii_of_string) in Hempty.
      rewrite list_ascii_of_string_of_list_ascii in Hempty.
      apply from_utf8_nil.
      destruct (Buffer.from_utf8 text) as [|b0 [|b1 [|b2 rest]]];
        [reflexivity | discriminate..]. }
  unfold page_cursors.
  cbn [PaginatedResult.startCursor PaginatedResult.endCursor
       PaginatedResult.prevPage PaginatedResult.nextPage
       PaginatedResult.hasPrevPage PaginatedResult.hasNextPage].
  destruct (page decodedCursor n rows) as [|first rest].
  - subst tokens. cbn [CursorOutgoing.startCursor CursorOutgoing.endCursor
                       CursorOutgoing.prevPage CursorOutgoing.nextPage truthy].
    split.
    + intros token Hin. repeat (apply elem_of_cons in Hin as [[=]|Hin]).
      now apply elem_of_nil in Hin.
    + intros _. split; (split; [discriminate | intros [t [=]]]).
  - destruct Htokens as (final & s & e & _ & Hs & He & ->).
    cbn [CursorOutgoing.startCursor CursorOutgoing.endCursor
         CursorOutgoing.prevPage CursorOutgoing.nextPage].
    destruct (Htoken _ _ Hs) as [Hs_safe Hs_nonempty].
    destruct (Htoken _ _ He) as [He_safe He_nonempty].
    split.
    + intros token Hin.
      destruct ((negb (is_prev decodedCursor) || (n <? length rows))
                && negb (isFirst decodedCursor)),
               (is_prev decodedCursor || (n <? length rows));
        repeat (apply elem_of_cons in Hin as [[=]|Hin]); subst;
        try assumption; now apply elem_of_nil in Hin.
    + intros Hnonempty. specialize (Hs_nonempty Hnonempty).
      specialize (He_nonempty Hnonempty).
      destruct ((negb (is_prev decodedCursor) || (n <? length rows))
                && negb (isFirst decodedCursor)),
               (is_prev decodedCursor || (n <? length rows));
        cbn [truthy]; repeat split; intros H;
        try (eexists; reflexivity); try discriminate H;
        try (destruct H as [t [=]]);
        try (now destruct (String.eqb_spec s ""));
        try (now destruct (String.eqb_spec e "")).
Qed.

End CreatePaginator.

(** The first page of the five users from a paginator with the default
    codec: the token of its next page is the base64url text of [id=b]. *)
Lemma createPaginator_default_codec_witness :
  exists res,
    Paginator.paginate
      (createPaginator id_stringify id_parse (execute_on five_users)
         (with_default_codec SqlitePaginationDialect))
      {| PaginateArgs.query := []; PaginateArgs.sorts := byId;
         PaginateArgs.limit := Int 2; PaginateArgs.cursor := None |}
    = Resolved res
    /\ PaginatedResult.nextPage res = Some "aWQ9Yg"
    /\ forallb is_url_safe (list_ascii_of_string "aWQ9Yg") = true.
Proof.
  eexists. split; [vm_compute; reflexivity|]. split; [reflexivity|].
  match goal with
  | |- context [list_ascii_of_string ?t] =>
      refine (proj1 (proj2 (proj2
                (createPaginator_default_codec id_stringify id_parse
                   (execute_on five_users) SqlitePaginationDialect
                   {| PaginateArgs.query := []; PaginateArgs.sorts := byId;
                      PaginateArgs.limit := Int 2; PaginateArgs.cursor := None |}
                   _ _))) t _)
  end.
  - vm_compute. reflexivity.
  - vm_compute. set_solver.
Defined.

(** ** Pages of a table *)

Lemma bind_Resolved_r {A : Type} (m : Promise A) : m ≫= (fun a => Resolved a) = m.
Proof. now destruct m. Qed.

Lemma filter_ext_elem {A : Type} (P1 P2 : A -> Prop) `{!forall x, Decision (P1 x)}
    `{!forall x, Decision (P2 x)} (l : list A) :
  (forall x, x ∈ l -> P1 x <-> P2 x) -> filter P1 l = filter P2 l.
Proof.
  induction l as [|a l IH]; intros Hiff; [reflexivity|].
  rewrite !filter_cons, IH by (intros x Hx; apply Hiff; now apply list_elem_of_further).
  pose proof (Hiff a (list_elem_of_here _ _)) as Ha.
  destruct (decide (P1 a)), (decide (P2 a)); tauto.
Qed.

Lemma filter_all {A : Type} (P : A -> Prop) `{!forall x, Decision (P x)} (l : list A) :
  (forall x, P x) -> filter P l = l.
Proof.
  intros Hall. induction l as [|a l IH]; [reflexivity|].
  rewrite filter_cons_True by apply Hall. now rewrite IH.
Qed.

Lemma insert_row_length (q : list Clause) (r : Row) (sorted : list Row) :
  length (insert_row q r sorted) = S (length sorted).
Proof.
  induction sorted as [|r' rest IH]; simpl; [reflexivity|].
  destruct (compare_rows q r r'); simpl; congruence.
Qed.

Lemma order_rows_length (q : list Clause) (rows : list Row) :
  length (order_rows q rows) = length rows.
Proof.
  unfold order_rows. induction rows as [|r rest IH]; simpl; [reflexivity|].
  now rewrite insert_row_length, IH.
Qed.

Lemma order_rows_ext (q q' : list Clause) (rows : list Row) :
  (forall r1 r2, compare_rows q r1 r2 = compare_rows q' r1 r2) ->
  order_rows q rows = order_rows q' rows.
Proof.
  intros Hsame. unfold order_rows.
  induction rows as [|r rest IH]; simpl; [reflexivity|]. rewrite IH.
  generalize (fold_right (insert_row q') [] rest). intros sorted.
  induction sorted as [|r' sorted IHs]; simpl; [reflexivity|].
  now rewrite Hsame, IHs.
Qed.

Section PageRows.

Variable D : Shipped.
Variable sorts : list SortItem.
Variable table : list Row.
Variable cursorCodec : CursorCodec.

Hypothesis D_shipped : In D shipped_dialects.

(** The table has fewer than [2^53] rows: a JavaScript number can count
    them. *)
Hypothesis table_rows : (Z.of_nat (length table) < 2 ^ 53)%Z.

(** The rows of the table for a query of a shipped dialect with an order, a
    row limit and WHERE clauses: the first rows, in the order, of those that
    satisfy the clauses. *)
Lemma execute_on_page (applied : list SortItem) (n : nat) (ty : option CursorType)
    (tail : list Clause) :
  Forall (fun c => exists e, c = Where e) tail ->
  execute_on table
    (map (order_of D) applied ++ limit_of D (num_succ (Int (Z.of_nat n))) ty :: tail)
  = Resolved (take (S n)
                (order_rows (map (order_of D) applied)
                   (filter (fun row => where_holds tail row = true) table))).
Proof.
  intros Htail.
  assert (forall s, exists c d nulls, order_of D s = OrderBy c d nulls) as Horder.
  { intros s. destruct D_shipped as [<-|[<-|[<-|[<-|[]]]]]; simpl;
      unfold plain_order, postgres_order; eauto. }
  assert (forall m, limit_of D m ty = Limit m \/ limit_of D m ty = Top m
                    \/ limit_of D m ty = Fetch m) as Hlimit_of.
  { intros m. destruct D_shipped as [<-|[<-|[<-|[<-|[]]]]]; simpl; auto.
    destruct ty as [[]|]; simpl; auto. }
  assert (forall r1 r2, compare_rows tail r1 r2 = Eq) as Htail_order.
  { intros r1 r2. induction Htail as [|c rest [e ->] _ IH]; simpl; auto. }
  assert (forall rows, bound_rows tail rows = Resolved rows) as Htail_bound.
  { intros rows. induction Htail as [|c rest [e ->] _ IH]; simpl; [reflexivity|].
    now rewrite IH. }
  set (selected := filter (fun row => where_holds tail row = true) table).
  assert (Z.of_nat (length (order_rows (map (order_of D) applied) selected))
          < 2 ^ 53)%Z as Hfew.
  { rewrite order_rows_length.
    pose proof (length_filter (fun row => where_holds tail row = true) table) as Hle.
    fold selected in Hle. lia. }
  destruct (take_row_limit _ n Hfew) as (z & -> & Hz & <-). clear Hfew.
  unfold selected. clear selected.
  pose proof (Hlimit_of (Int z)) as Hlimit.
  set (limit := limit_of D (Int z) ty) in *.
  assert (forall r1 r2,
            compare_rows (map (order_of D) applied ++ limit :: tail) r1 r2
            = compare_rows (map (order_of D) applied) r1 r2) as Hcompare.
  { intros r1 r2. induction applied as [|s rest IH]; simpl.
    - rewrite Htail_order. now destruct Hlimit as [->|[->| ->]].
    - now rewrite IH. }
  assert (forall row,
            where_holds (map (order_of D) applied ++ limit :: tail) row
            = where_holds tail row) as Hwhere.
  { intros row. unfold where_holds. rewrite forallb_app.
    assert (forallb
              (fun c => match c with
                        | Where e => match eval row e with
                                     | Some true => true
                                     | _ => false
                                     end
                        | _ => true
                        end) (map (order_of D) applied) = true) as ->.
    { apply forallb_forall. intros c (s & <- & _)%in_map_iff.
      now destruct (Horder s) as (column & d & nulls & ->). }
    simpl. now destruct Hlimit as [->|[->| ->]]. }
  assert (forall rows,
            bound_rows (map (order_of D) applied ++ limit :: tail) rows
            = Resolved (take (Z.to_nat z) rows)) as Hbound.
  { clear Hcompare Hwhere. intros rows. induction applied as [|s rest IH]; simpl.
    - destruct Hlimit as [->|[->| ->]]; cbn [bound_rows];
        rewrite Htail_bound; cbn [mbind Promise_bind];
        destruct (Z.ltb_spec z 0); (lia || reflexivity).
    - destruct (Horder s) as (column & d & nulls & ->).
      rewrite IH. reflexivity. }
  unfold execute_on. rewrite Hbound. f_equal. f_equal.
  rewrite (order_rows_ext _ _ _ Hcompare). f_equal.
  apply filter_ext_elem. intros row _. now rewrite Hwhere.
Qed.

Let orders := map (order_of D) sorts.

(** X19.  The first page of a table.  Against a table (of fewer than
    [2^53] rows) queried the way
    SQLite does, with any of the four dialects, [paginate] without a cursor
    returns the first [limit] rows of the table in the order of the sort set;
    the page has no [prevPage]; and, with a codec that never encodes to the
    empty string, [hasNextPage] is true exactly when the table has more than
    [limit] rows. *)
Theorem paginate_first_page_rows (limit : number) (res : PaginatedResult.t) :
  paginate (execute_on table) [] sorts limit None (dialect_of D) cursorCodec
  = Resolved res ->
  exists n : nat,
    limit = Int (Z.of_nat n)
    /\ PaginatedResult.items res = take n (order_rows orders table)
    /\ PaginatedResult.prevPage res = None
    /\ PaginatedResult.hasPrevPage res = false
    /\ ((forall row, row ∈ table ->
                      token_of cursorCodec sorts row <> Resolved EmptyString) ->
        (PaginatedResult.hasNextPage res = true <-> n < length table)).
Proof.
  intros H.
  apply paginate_Resolved in H
    as (n & decodedCursor & q & rows & tokens & -> & Hn & Hsorts & Hdec & _
        & Hq & Hrows & Htokens & ->).
  injection Hdec as <-.
  rewrite (constrained_shipped [] sorts D D_shipped) in Hq. cbn zeta in Hq.
  change (if is_prev None then invertSorts sorts else sorts) with sorts in Hq.
  cbn [app] in Hq. rewrite app_nil_r in Hq. injection Hq as <-.
  rewrite (execute_on_page sorts n (type_of None) []) in Hrows by constructor.
  assert (rows = take (S n)
                   (order_rows (map (order_of D) sorts)
                      (filter (fun row => where_holds [] row = true) table))) as ->
    by congruence.
  clear Hrows.
  assert (filter (fun row => where_holds [] row = true) table = table) as Hall.
  { apply filter_all. reflexivity. }
  rewrite Hall in Htokens |- *. fold orders in Htokens |- *.
  assert (page None n (take (S n) (order_rows orders table))
          = take n (order_rows orders table)) as Hpage.
  { unfold page, type_of. rewrite take_take. f_equal. lia. }
  rewrite Hpage in Htokens |- *.
  assert ((n <? length (take (S n) (order_rows orders table))) = (n <? length table))
    as Hover.
  { rewrite length_take, order_rows_length.
    destruct (Nat.ltb_spec n (S n `min` length table)), (Nat.ltb_spec n (length table));
      (reflexivity || lia). }
  rewrite Hover in Htokens.
  exists n. cbn [PaginatedResult.items PaginatedResult.prevPage
                 PaginatedResult.hasPrevPage PaginatedResult.hasNextPage].
  split; [reflexivity|]. split; [reflexivity|].
  apply resolvePageTokens_Resolved in Htokens.
  assert (forall row, row ∈ take n (order_rows orders table) -> row ∈ table) as Hsub
    by (intros row Hrow%subseteq_take; now apply order_rows_elem in Hrow).
  assert (length (take n (order_rows orders table)) = n `min` length table) as Hlen
    by (now rewrite length_take, order_rows_length).
  destruct (take n (order_rows orders table)) as [|first rest].
  - subst tokens. cbn [CursorOutgoing.prevPage CursorOutgoing.nextPage truthy].
    split; [reflexivity|]. split; [reflexivity|]. intros _.
    simpl in Hlen. split; [discriminate | lia].
  - destruct Htokens as (final & s & e & Hlast & _ & He & ->).
    cbn [CursorOutgoing.prevPage CursorOutgoing.nextPage]. unfold is_prev, type_of.
    cbn [negb orb andb isFirst truthy].
    split; [reflexivity|]. split; [reflexivity|]. intros Hnonempty.
    assert (e <> EmptyString) as He_nonempty.
    { intros ->. apply (Hnonempty final); [|exact He]. apply Hsub.
      apply last_Some in Hlast as [before ->].
      apply elem_of_app. right. apply list_elem_of_here. }
    destruct (Nat.ltb_spec n (length table)) as [Hmore|Hless]; cbn [truthy].
    + split; [intros _; exact Hmore|]. intros _.
      now destruct (String.eqb_spec e "").
    + split; [discriminate | lia].
Qed.

(** X20.  The page of a keyset cursor.  Against a table (of fewer than
    [2^53] rows) queried the way
    SQLite does, with any of the four dialects and a token that decodes to
    the cursor of a row, [paginate] returns, for [nextPage], the first
    [limit] of the table's rows that lie strictly after that row in the order
    of the sort set, in that order; for [prevPage], the [limit] rows that lie
    nearest before it, also in the order of the sort set; and, with a codec
    that never encodes to the empty string, the page has a further page in
    the direction of travel exactly when more than [limit] rows lie beyond
    the cursor. *)
Theorem paginate_keyset_page_rows (limit : number) (ty : NextPrev) (cursorRow : Row)
    (token : string) (res : PaginatedResult.t) :
  decodeCursorPayload token cursorCodec = Resolved (resolveCursor cursorRow sorts) ->
  Forall (output_is_column cursorRow) sorts ->
  (forall row j s,
     row ∈ table -> sorts !! j = Some s ->
     position_ok row (CursorPayload.k (resolveCursor cursorRow sorts))
                 (j =? length sorts - 1) s) ->
  paginate (execute_on table) [] sorts limit (Some (keyset_cursor ty token))
           (dialect_of D) cursorCodec
  = Resolved res ->
  let beyond :=
    order_rows (map (order_of D) (applied_sorts ty sorts))
      (filter (fun row => compare_rows orders cursorRow row = side ty) table) in
  exists n : nat,
    limit = Int (Z.of_nat n)
    /\ PaginatedResult.items res
       = match ty with
         | KNext => take n beyond
         | KPrev => rev (take n beyond)
         end
    /\ ((forall row, row ∈ table ->
                      token_of cursorCodec sorts row <> Resolved EmptyString) ->
        (match ty with
         | KNext => PaginatedResult.hasNextPage res
         | KPrev => PaginatedResult.hasPrevPage res
         end = true
         <-> n < length beyond)).
Proof.
  intros Hdecode Hcolumns Hpos H beyond.
  apply paginate_Resolved in H
    as (n & decodedCursor & q & rows & tokens & -> & Hn & Hsorts & Hdec & _
        & Hq & Hrows & Htokens & ->).
  set (c := {| type := ty; payload := resolveCursor cursorRow sorts |}).
  assert (decodedCursor = Some (Keyset c)) as ->.
  { unfold incoming, decodeCursor in Hdec.
    destruct ty;
      cbn [keyset_cursor next_page prev_page CursorIncoming.nextPage
           CursorIncoming.prevPage] in Hdec;
      rewrite Hdecode in Hdec; cbn [mbind Promise_bind] in Hdec;
      now injection Hdec as <-. }
  rewrite (constrained_shipped [] sorts D D_shipped) in Hq. cbn zeta in Hq.
  assert ((if is_prev (Some (Keyset c)) then invertSorts sorts else sorts)
          = applied_sorts ty sorts) as Happlied by (now destruct ty).
  rewrite Happlied in Hq. change (payload c) with (resolveCursor cursorRow sorts) in Hq.
  apply bind_Resolved_inv in Hq as (e & He & Hq).
  cbn [app] in Hq. rewrite <- app_assoc in Hq. cbn [app] in Hq. injection Hq as <-.
  rewrite (execute_on_page (applied_sorts ty sorts) n _ [Where e]) in Hrows
    by (repeat constructor; eauto).
  assert (rows = take (S n)
                   (order_rows (map (order_of D) (applied_sorts ty sorts))
                      (filter (fun row => where_holds [Where e] row = true) table)))
    as -> by congruence.
  clear Hrows.
  assert (filter (fun row => where_holds [Where e] row = true) table
          = filter (fun row => compare_rows orders cursorRow row = side ty) table)
    as Hfilter.
  { apply filter_ext_elem. intros row Hrow. unfold orders.
    rewrite <- (keyset_predicate_side D sorts cursorRow row D_shipped Hsorts Hcolumns
                  (fun j s => Hpos row j s Hrow) ty e He).
    unfold where_holds. cbn [forallb].
    destruct (eval row e) as [[]|]; simpl; split; congruence. }
  rewrite Hfilter in Htokens |- *. fold beyond in Htokens |- *.
  assert (page (Some (Keyset c)) n (take (S n) beyond)
          = match ty with
            | KNext => take n beyond
            | KPrev => rev (take n beyond)
            end) as Hpage.
  { unfold page, type_of, c. cbn [type cursor_type].
    destruct ty; cbn [cursor_type]; rewrite take_take; do 2 f_equal; lia. }
  assert ((n <? length (take (S n) beyond)) = (n <? length beyond)) as Hover.
  { rewrite length_take.
    destruct (Nat.ltb_spec n (S n `min` length beyond)), (Nat.ltb_spec n (length beyond));
      (reflexivity || lia). }
  rewrite Hover, Hpage in Htokens.
  exists n. cbn [PaginatedResult.items PaginatedResult.hasPrevPage
                 PaginatedResult.hasNextPage].
  split; [reflexivity|]. split; [exact Hpage|].
  intros Hnonempty.
  apply resolvePageTokens_Resolved in Htokens.
  remember (match ty with
            | KNext => take n beyond
            | KPrev => rev (take n beyond)
            end) as items eqn:Hitems.
  assert (length items = n `min` length beyond) as Hlen
    by (subst items; destruct ty; rewrite ?length_rev, length_take; reflexivity).
  assert (forall row, row ∈ items -> row ∈ table) as Hsub.
  { intros row Hrow.
    assert (row ∈ take n beyond) as Htake.
    { subst items. destruct ty; [exact Hrow|].
      now apply list_elem_of_In, (proj2 (in_rev _ _)), list_elem_of_In in Hrow. }
    apply subseteq_take, order_rows_elem, list_elem_of_filter in Htake. tauto. }
  clear Hitems. destruct items as [|first rest].
  - subst tokens. cbn [CursorOutgoing.prevPage CursorOutgoing.nextPage truthy].
    simpl in Hlen. destruct ty; (split; [discriminate | lia]).
  - destruct Htokens as (final & s & e' & Hlast & Hs & He' & ->).
    cbn [CursorOutgoing.prevPage CursorOutgoing.nextPage].
    assert (s <> EmptyString) as Hs_nonempty.
    { intros ->. apply (Hnonempty first); [|exact Hs]. apply Hsub, list_elem_of_here. }
    assert (e' <> EmptyString) as He_nonempty.
    { intros ->. apply (Hnonempty final); [|exact He']. apply Hsub.
      apply last_Some in Hlast as [before ->].
      apply elem_of_app. right. apply list_elem_of_here. }
    unfold is_prev, type_of, c. cbn [type cursor_type isFirst].
    destruct ty; cbn [cursor_type negb orb andb];
      destruct (Nat.ltb_spec n (length beyond)) as [Hmore|Hless];
      cbn [truthy andb orb]; split; try discriminate; try lia; intros _;
      try assumption.
    + now destruct (String.eqb_spec e' "").
    + now destruct (String.eqb_spec s "").
Qed.

End PageRows.

Lemma five_users_tokens (row : Row) :
  row ∈ five_users -> token_of idTokenCodec byId row <> Resolved EmptyString.
Proof.
  intros Hrow. unfold five_users, users in Hrow. cbn [map] in Hrow.
  repeat (apply elem_of_cons in Hrow as [->|Hrow]; [discriminate|]).
  now apply elem_of_nil in Hrow.
Qed.

(** The first page of the five users under MySQL. *)
Lemma paginate_first_page_rows_witness :
  PaginatedResult.items first_page = users ["a"; "b"]
  /\ (PaginatedResult.hasNextPage first_page = true <-> 2 < length five_users).
Proof.
  destruct (paginate_first_page_rows
              {| dialect_of := MysqlPaginationDialect;
                 order_of := plain_order; limit_of := fun n _ => Limit n |}
              byId five_users idTokenCodec ltac:(simpl; tauto) eq_refl (Int 2)
              first_page ltac:(vm_compute; reflexivity))
    as (n & Hn & Hitems & _ & _ & Hnext).
  assert (n = 2) as -> by (injection Hn; lia).
  split; [reflexivity|]. apply Hnext, five_users_tokens.
Defined.

(** The page before ["d"] of the five users under PostgreSQL: the two rows
    nearest before it, in ascending order. *)
Lemma paginate_keyset_page_rows_witness :
  PaginatedResult.items page_before_d
  = rev (take 2 (order_rows (map postgres_order (invertSorts byId))
                   (filter (fun row => compare_rows (map postgres_order byId)
                                         user_d row = Gt)
                           five_users)))
  /\ PaginatedResult.items page_before_d = users ["b"; "c"].
Proof.
  destruct (paginate_keyset_page_rows
              {| dialect_of := PostgresPaginationDialect;
                 order_of := postgres_order; limit_of := fun n _ => Limit n |}
              byId five_users idTokenCodec ltac:(simpl; tauto) eq_refl (Int 2) KPrev
              user_d "d" page_before_d)
    as (n & Hn & Hitems & _).
  - vm_compute. reflexivity.
  - repeat constructor.
  - intros row j s Hrow Hs.
    destruct j as [|j]; simpl in Hs; [|discriminate]. injection Hs as <-.
    exists (VStr "d"). split; [vm_compute; reflexivity|]. split; [discriminate|].
    unfold five_users, users in Hrow. cbn [map] in Hrow.
    repeat (apply elem_of_cons in Hrow as [->|Hrow];
            [split; [intros _ _; vm_compute; eauto | intros _; split; reflexivity]|]).
    now apply elem_of_nil in Hrow.
  - vm_compute. reflexivity.
  - assert (n = 2) as -> by (injection Hn; lia).
    split; [exact Hitems | reflexivity].
Defined.

(** ** Offset pages of a table *)

Section OffsetPageRows.

Variable D : Shipped.
Variable sorts : list SortItem.
Variable table : list Row.
Variable cursorCodec : CursorCodec.

Hypothesis D_shipped : In D shipped_dialects.

(** The table has fewer than [2^53] rows: a JavaScript number can count
    them. *)
Hypothesis table_rows : (Z.of_nat (length table) < 2 ^ 53)%Z.

Let orders := map (order_of D) sorts.

(** The rows of the table for a query with an order, a row limit and an
    OFFSET: the offset is taken first, then the limit. *)
Lemma execute_on_offset_page (n : nat) (ty : option CursorType) (z : Z) :
  execute_on table
    (orders ++ [limit_of D (num_succ (Int (Z.of_nat n))) ty; OffsetRows (Int z)])
  = Resolved (take (S n) (drop (Z.to_nat z) (order_rows orders table))).
Proof.
  assert (forall s, exists c d nulls, order_of D s = OrderBy c d nulls) as Horder.
  { intros s. destruct D_shipped as [<-|[<-|[<-|[<-|[]]]]]; simpl;
      unfold plain_order, postgres_order; eauto. }
  assert (forall m, limit_of D m ty = Limit m \/ limit_of D m ty = Top m
                    \/ limit_of D m ty = Fetch m) as Hlimit_of.
  { intros m. destruct D_shipped as [<-|[<-|[<-|[<-|[]]]]]; simpl; auto.
    destruct ty as [[]|]; simpl; auto. }
  assert (Z.of_nat (length (drop (Z.to_nat z) (order_rows orders table)))
          < 2 ^ 53)%Z as Hfew
    by (rewrite length_drop, order_rows_length; lia).
  destruct (take_row_limit _ n Hfew) as (m & -> & Hm & <-). clear Hfew.
  pose proof (Hlimit_of (Int m)) as Hlimit.
  set (limit := limit_of D (Int m) ty) in *.
  unfold orders.
  assert (forall r1 r2,
            compare_rows (map (order_of D) sorts ++ [limit; OffsetRows (Int z)]) r1 r2
            = compare_rows (map (order_of D) sorts) r1 r2) as Hcompare.
  { intros r1 r2. induction sorts as [|s rest IH]; simpl.
    - now destruct Hlimit as [->|[->| ->]].
    - now rewrite IH. }
  assert (forall row,
            where_holds (map (order_of D) sorts ++ [limit; OffsetRows (Int z)]) row
            = true) as Hwhere.
  { intros row. unfold where_holds. rewrite forallb_app. apply andb_true_intro. split.
    - apply forallb_forall. intros c (s & <- & _)%in_map_iff.
      now destruct (Horder s) as (column & d & nulls & ->).
    - simpl. now destruct Hlimit as [->|[->| ->]]. }
  assert (forall rows,
            bound_rows (map (order_of D) sorts ++ [limit; OffsetRows (Int z)]) rows
            = Resolved (take (Z.to_nat m) (drop (Z.to_nat z) rows))) as Hbound.
  { clear Hcompare Hwhere. intros rows. induction sorts as [|s rest IH]; simpl.
    - destruct Hlimit as [->|[->| ->]]; cbn [bound_rows mbind Promise_bind];
        destruct (Z.ltb_spec m 0); (lia || reflexivity).
    - destruct (Horder s) as (column & d & nulls & ->).
      rewrite IH. reflexivity. }
  unfold execute_on. rewrite Hbound. do 3 f_equal.
  rewrite (order_rows_ext _ _ _ Hcompare). f_equal.
  apply filter_all. intros row. apply Hwhere.
Qed.

(** X21.  The page of an offset cursor.  Against a table (of fewer than
    [2^53] rows) queried the way
    SQLite does, with any of the four dialects, [paginate] with the cursor
    [{ offset: k }] for an integer [k] returns the [limit] rows that follow
    the first [k] rows of the table in the order of the sort set (all of
    [limit] first rows when [k] is negative); and, with tokens that are
    never empty, [hasNextPage] is true exactly when rows remain after the
    page, and [hasPrevPage] exactly when the page has a row and [k] is not
    0, also for a negative [k], where nothing precedes the page. *)
Theorem paginate_offset_page_rows (limit : number) (k : Z) (res : PaginatedResult.t) :
  paginate (execute_on table) [] sorts limit (Some (at_offset (Int k)))
           (dialect_of D) cursorCodec
  = Resolved res ->
  exists n : nat,
    limit = Int (Z.of_nat n)
    /\ PaginatedResult.items res
       = take n (drop (Z.to_nat k) (order_rows orders table))
    /\ ((forall row, row ∈ table ->
                     token_of cursorCodec sorts row <> Resolved EmptyString) ->
        (PaginatedResult.hasNextPage res = true <-> Z.to_nat k + n < length table)
        /\ (PaginatedResult.hasPrevPage res = true
            <-> k <> 0%Z /\ Z.to_nat k < length table)).
Proof.
  intros H.
  apply paginate_Resolved in H
    as (n & decodedCursor & q & rows & tokens & -> & Hn & Hsorts & Hdec & _
        & Hq & Hrows & Htokens & ->).
  injection Hdec as <-.
  rewrite (constrained_shipped [] sorts D D_shipped) in Hq. cbn zeta in Hq.
  change (if is_prev (Some (Offset (Int k))) then invertSorts sorts else sorts)
    with sorts in Hq.
  cbn [app] in Hq. rewrite <- app_assoc in Hq. cbn [app] in Hq. injection Hq as <-.
  fold orders in Hrows. rewrite execute_on_offset_page in Hrows.
  set (following := drop (Z.to_nat k) (order_rows orders table)) in *.
  assert (rows = take (S n) following) as -> by congruence. clear Hrows.
  assert (page (Some (Offset (Int k))) n (take (S n) following) = take n following)
    as Hpage by (unfold page, type_of; rewrite take_take; f_equal; lia).
  assert (length following = length table - Z.to_nat k) as Hfollowing
    by (unfold following; now rewrite length_drop, order_rows_length).
  assert ((n <? length (take (S n) following)) = (n <? length following)) as Hover.
  { rewrite length_take.
    destruct (Nat.ltb_spec n (S n `min` length following)),
             (Nat.ltb_spec n (length following)); (reflexivity || lia). }
  rewrite Hover, Hpage in Htokens. rewrite Hpage.
  exists n. cbn [PaginatedResult.items PaginatedResult.hasPrevPage
                 PaginatedResult.hasNextPage].
  split; [reflexivity|]. split; [reflexivity|]. intros Hnonempty.
  apply resolvePageTokens_Resolved in Htokens.
  assert (forall row, row ∈ take n following -> row ∈ table) as Hsub.
  { intros row Hrow%subseteq_take. unfold following in Hrow.
    apply subseteq_drop in Hrow. now apply order_rows_elem in Hrow. }
  assert (length (take n following) = n `min` length following) as Hlen
    by apply length_take.
  destruct (take n following) as [|first rest].
  - subst tokens. cbn [CursorOutgoing.prevPage CursorOutgoing.nextPage truthy].
    simpl in Hlen. split; (split; [discriminate | lia]).
  - destruct Htokens as (final & s & e & Hlast & Hs & He & ->).
    cbn [CursorOutgoing.prevPage CursorOutgoing.nextPage].
    assert (s <> EmptyString) as Hs_nonempty.
    { intros ->. apply (Hnonempty first); [|exact Hs]. apply Hsub, list_elem_of_here. }
    assert (e <> EmptyString) as He_nonempty.
    { intros ->. apply (Hnonempty final); [|exact He]. apply Hsub.
      apply last_Some in Hlast as [before ->].
      apply elem_of_app. right. apply list_elem_of_here. }
    simpl in Hlen.
    unfold is_prev, type_of. cbn [negb orb andb isFirst num_is0].
    split.
    + destruct (Nat.ltb_spec n (length following)) as [Hmore|Hless]; cbn [truthy].
      * split; [lia|]. intros _. now destruct (String.eqb_spec e "").
      * split; [discriminate | lia].
    + destruct (Z.eqb_spec k 0) as [->|Hne]; cbn [negb truthy].
      * split; [discriminate | tauto].
      * split; [intros _; split; [exact Hne | lia]|]. intros _.
        now destruct (String.eqb_spec s "").
Qed.

End OffsetPageRows.

(** The five users from the third on, two a page, under MSSQL. *)
Lemma paginate_offset_page_rows_witness :
  exists res,
    paginate (execute_on five_users) [] byId (Int 2) (Some (at_offset (Int 2)))
             MssqlPaginationDialect idTokenCodec
    = Resolved res
    /\ PaginatedResult.items res = users ["c"; "d"]
    /\ PaginatedResult.hasNextPage res = true
    /\ PaginatedResult.hasPrevPage res = true.
Proof.
  eexists. split; [vm_compute; reflexivity|].
  match goal with
  | |- PaginatedResult.items ?r = _ /\ _ =>
      destruct (paginate_offset_page_rows
                  {| dialect_of := MssqlPaginationDialect;
                     order_of := plain_order; limit_of := mssql_limit |}
                  byId five_users idTokenCodec ltac:(simpl; tauto) eq_refl (Int 2)
                  2%Z r ltac:(vm_compute; reflexivity))
        as (n & Hn & Hitems & Hflags)
  end.
  assert (n = 2) as -> by (injection Hn; lia).
  destruct (Hflags five_users_tokens) as [Hnext Hprev].
  split; [exact Hitems|]. split.
  - apply Hnext. simpl. lia.
  - apply Hprev. split; [discriminate | simpl; lia].
Defined.

(** ** The failures of the predicate builder *)

Section BuilderFailures.

Variable sorts : list SortItem.
Variable decoded : CursorPayload.t.

(** X22.  The failures of [buildCursorPredicateRecursive].  From an index
    beyond the sort set, so for an empty sort set, it fails with
    [UNEXPECTED_ERROR], "Sort index out of bounds".  From an index within
    it, it fails exactly when the output key of some position from the index
    on is not [in] the cursor's values, being neither an entry of theirs nor
    a name every object inherits, and then with [INVALID_TOKEN] and a
    message that names the key of the first such position, whatever is
    missing after it. *)
Theorem buildCursorPredicateRecursive_failures (idx : nat) :
  let values := CursorPayload.k decoded in
  (length sorts <= idx ->
   buildCursorPredicateRecursive sorts decoded idx
   = Rejected (PaginationError "Sort index out of bounds" UNEXPECTED_ERROR None))
  /\ (forall j s,
        idx <= j -> sorts !! j = Some s ->
        has values (getSortOutput s) = false ->
        (forall i t, idx <= i < j -> sorts !! i = Some t ->
                     has values (getSortOutput t) = true) ->
        buildCursorPredicateRecursive sorts decoded idx
        = Rejected (PaginationError
                      ("Missing pagination cursor value for "
                       +:+ dquote +:+ getSortOutput s +:+ dquote)
                      INVALID_TOKEN None))
  /\ (forall e,
        idx < length sorts ->
        buildCursorPredicateRecursive sorts decoded idx = Rejected e ->
        exists j s,
          idx <= j /\ sorts !! j = Some s
          /\ has values (getSortOutput s) = false)
  /\ (forall key,
        has values key = false
        <-> values !! key = None /\ key ∉ Object_prototype).
Proof.
  intros values. split; [|split; [|split]].
  - intros Hbeyond. rewrite buildCursorPredicateRecursive_body.
    now rewrite (proj2 (lookup_ge_None sorts idx) Hbeyond).
  - intros j. remember (j - idx) as d eqn:Hd. revert idx Hd.
    induction d as [|d IH]; intros idx Hd s Hle Hj Hmissing Hbefore;
      rewrite buildCursorPredicateRecursive_body.
    + assert (idx = j) as -> by lia. rewrite Hj. cbn zeta. fold values.
      now rewrite Hmissing.
    + pose proof (lookup_lt_Some _ _ _ Hj) as Hlt.
      destruct (lookup_lt_is_Some_2 sorts idx ltac:(lia)) as [t Ht].
      rewrite Ht. cbn zeta. fold values.
      rewrite (Hbefore idx t ltac:(lia) Ht). cbn [negb].
      destruct (Nat.eqb_spec idx (length sorts - 1)) as [Heq|_]; [lia|].
      rewrite (IH (idx + 1) ltac:(lia) s ltac:(lia) Hj Hmissing).
      * reflexivity.
      * intros i u Hi. apply Hbefore. lia.
  - intros e Hlt Hrejected.
    destruct (decide (Forall (fun s => has values (getSortOutput s) = true)
                             (drop idx sorts))) as [Hall|Hsome].
    + destruct (buildCursorPredicateRecursive_total sorts decoded idx Hlt)
        as [e' He'].
      * intros j s Hle Hj. rewrite Forall_lookup in Hall.
        apply (Hall (j - idx)). rewrite lookup_drop.
        now replace (idx + (j - idx)) with j by lia.
      * congruence.
    + apply not_Forall_Exists in Hsome; [|intros s; apply _].
      apply Exists_exists in Hsome as (s & Hs & Hnone).
      apply list_elem_of_lookup in Hs as [i Hi]. rewrite lookup_drop in Hi.
      exists (idx + i), s. split; [lia|]. split; [exact Hi|].
      apply not_true_is_false. exact Hnone.
  - intros key. apply has_false.
Qed.

End BuilderFailures.

(** A cursor with neither [age] nor [id] under [age desc, id asc]: the
    message names [age]. *)
Example buildCursorPredicateRecursive_first_missing :
  buildCursorPredicateRecursive byAgeThenId
    {| CursorPayload.sig := ""; CursorPayload.k := ∅ |} 0
  = Rejected (PaginationError
                ("Missing pagination cursor value for " +:+ dquote +:+ "age" +:+ dquote)
                INVALID_TOKEN None)
  /\ buildCursorPredicateRecursive [] cursor_30_5 0
     = Rejected (PaginationError "Sort index out of bounds" UNEXPECTED_ERROR None).
Proof. split; reflexivity. Qed.
